(** * Rules engine of tetris-ts: collision, rotation, lock and line clear,
      score and level.

    A shallow embedding of the TypeScript sources
    [collision.ts], [lockAndClear.ts], [scoreAndLevel.ts], the rotation
    module (rotateShape, attemptRotation, attemptRotationSRS, rotate180,
    getRotationPreview, canRotateAtAll), the piece catalog (TETROMINOS,
    getTetrominoByIndex, rotateTetromino, getTetrominoBounds,
    getTetrominoName) and the drop module (hardDrop,
    calculateGhostPosition).

    Conventions of the embedding.
    - A JavaScript number that the engine uses as an index, an offset, a
      counter or a colour tag is an integer, modelled in [Z].
    - An array is a [list]; reading past its end yields [undefined], which is
      why a cell is an [option Z] ([None] is [undefined], also standing for a
      hole of a sparse array: none of the operations used here tells the two
      apart).  Indexing [undefined] raises a TypeError.
    - The rows of a grid are distinct objects (grids are built with
      [Array(h).fill(null).map(() => Array(w).fill(0))]), so a grid is
      modelled by its contents, and a function that mutates the grid returns
      the new contents next to its result.  A function whose body contains no
      assignment to its arguments is a function of its arguments.
    - The catalog, where sharing between the caller and the module matters,
      is modelled over an explicit store of array objects. *)

From Stdlib Require Import ZArith List Bool Lia QArith Qpower Lqa.
From stdpp Require Import base option list gmap strings.
From Equations Require Import Equations.
Import ListNotations.
Local Open Scope Z_scope.

(** ** Outcomes of a call *)

Inductive js_error : Type :=
| TypeError
| InvalidIndex (index : Z) (upper : Z).

Inductive outcome (A : Type) : Type :=
| Ret (a : A)
| Throw (e : js_error).
Arguments Ret {A} a.
Arguments Throw {A} e.

Definition bind {A B} (m : outcome A) (k : A -> outcome B) : outcome B :=
  match m with
  | Ret a => k a
  | Throw e => Throw e
  end.

Notation "'let*' x ':=' m 'in' k" := (bind m (fun x => k))
  (at level 10, x name, m at level 100, k at level 200).

(** ** Cells, shapes, grids *)

(** A cell read from an array: [Some n] is the number [n], [None] is
    [undefined]. *)
Abbreviation cell := (option Z) (only parsing).

(** [cellValue === 0] *)
Definition is_zero (c : cell) : bool :=
  match c with
  | Some 0 => true
  | _ => false
  end.

(** [cellValue !== 0] *)
Definition occupied (c : cell) : bool := negb (is_zero c).

(** [type BlockShape = number[][]] and [type Grid = number[][]] *)
Abbreviation BlockShape := (list (list cell)) (only parsing).
Abbreviation Grid := (list (list cell)) (only parsing).

Definition GRID_WIDTH : Z := 10.
Definition GRID_HEIGHT : Z := 20.

(** [a[i]] for an integer [i]: [None] when [i] is not an index of [a]. *)
Definition js_get {A} (a : list A) (i : Z) : option A :=
  if i <? 0 then None else a !! Z.to_nat i.

(** [row[i]] for a row of cells: an absent element reads as [undefined]. *)
Definition js_cell (row : list cell) (i : Z) : cell :=
  match js_get row i with
  | Some c => c
  | None => None
  end.

(** [row[i] = v] for [0 <= i]: JavaScript extends a short array, leaving
    holes between the old end and the new element. *)
Definition js_set (row : list cell) (i : nat) (v : cell) : list cell :=
  if (i <? length row)%nat then <[i := v]> row
  else row ++ replicate (i - length row) None ++ [v].

(** [new Array(GRID_WIDTH).fill(0)] *)
Definition emptyRow : list cell := replicate (Z.to_nat GRID_WIDTH) (Some 0).

(** [row.every((cell) => cell !== 0)] *)
Definition rowComplete (row : list cell) : bool := forallb occupied row.

(** The board of the data model: exactly [GRID_HEIGHT] rows of exactly
    [GRID_WIDTH] cells. *)
Definition is_board (grid : Grid) : Prop :=
  length grid = Z.to_nat GRID_HEIGHT /\
  Forall (fun row => length row = Z.to_nat GRID_WIDTH) grid.

(** ** collision.ts *)

Module Collision.

(** The body of the inner loop of [isPositionValid] for an occupied cell:
    [Ret false] is the early [return false], [Ret true] lets the loop go
    on. *)
Definition checkCell (grid : Grid) (gridX gridY : Z) : outcome bool :=
  if (gridX <? 0) || (gridX >=? GRID_WIDTH) then Ret false
  else if (gridY <? 0) || (gridY >=? GRID_HEIGHT) then Ret false
  else match js_get grid gridY with
       | None => Throw TypeError
       | Some row => Ret (is_zero (js_cell row gridX))
       end.

(** [for (shapeX = ...; shapeX < shape[shapeY].length; shapeX++)], entered
    with the cells of the row from [shapeX] on. *)
Fixpoint scanRow (grid : Grid) (cells : list cell)
    (offsetX offsetY shapeX shapeY : Z) : outcome bool :=
  match cells with
  | [] => Ret true
  | cellValue :: rest =>
      if is_zero cellValue then
        scanRow grid rest offsetX offsetY (shapeX + 1) shapeY
      else
        let* ok := checkCell grid (offsetX + shapeX) (offsetY + shapeY) in
        if ok then scanRow grid rest offsetX offsetY (shapeX + 1) shapeY
        else Ret false
  end.

(** [for (shapeY = ...; shapeY < shape.length; shapeY++)], entered with the
    rows of the shape from [shapeY] on. *)
Fixpoint scanRows (grid : Grid) (rows : BlockShape)
    (offsetX offsetY shapeY : Z) : outcome bool :=
  match rows with
  | [] => Ret true
  | row :: rest =>
      let* ok := scanRow grid row offsetX offsetY 0 shapeY in
      if ok then scanRows grid rest offsetX offsetY (shapeY + 1)
      else Ret false
  end.

Definition isPositionValid (grid : Grid) (shape : BlockShape)
    (offsetX offsetY : Z) : outcome bool :=
  scanRows grid shape offsetX offsetY 0.

Definition canMoveDown (grid : Grid) (shape : BlockShape) (offsetX offsetY : Z) :=
  isPositionValid grid shape offsetX (offsetY + 1).
Definition canMoveLeft (grid : Grid) (shape : BlockShape) (offsetX offsetY : Z) :=
  isPositionValid grid shape (offsetX - 1) offsetY.
Definition canMoveRight (grid : Grid) (shape : BlockShape) (offsetX offsetY : Z) :=
  isPositionValid grid shape (offsetX + 1) offsetY.
Definition canRotate (grid : Grid) (rotatedShape : BlockShape) (offsetX offsetY : Z) :=
  isPositionValid grid rotatedShape offsetX offsetY.

End Collision.

(** ** lockAndClear.ts *)

Module LockAndClear.

Record LockResult : Type := { linesCleared : Z }.

(** [grid[gridY][gridX] = cellValue], reached only with
    [0 <= gridY] and [0 <= gridX]: a missing row makes the assignment a
    TypeError. *)
Definition writeCell (grid : Grid) (gridX gridY : Z) (cellValue : cell)
    : outcome Grid :=
  match js_get grid gridY with
  | None => Throw TypeError
  | Some row =>
      Ret (<[Z.to_nat gridY := js_set row (Z.to_nat gridX) cellValue]> grid)
  end.

(** Inner loop of the merge step of [lockPiece]. *)
Fixpoint mergeRow (grid : Grid) (cells : list cell)
    (offsetX offsetY shapeX shapeY : Z) : outcome Grid :=
  match cells with
  | [] => Ret grid
  | cellValue :: rest =>
      if occupied cellValue then
        let gridX := offsetX + shapeX in
        let gridY := offsetY + shapeY in
        if (gridY >=? 0) && (gridY <? GRID_HEIGHT) &&
           (gridX >=? 0) && (gridX <? GRID_WIDTH)
        then
          let* grid' := writeCell grid gridX gridY cellValue in
          mergeRow grid' rest offsetX offsetY (shapeX + 1) shapeY
        else mergeRow grid rest offsetX offsetY (shapeX + 1) shapeY
      else mergeRow grid rest offsetX offsetY (shapeX + 1) shapeY
  end.

(** Outer loop of the merge step of [lockPiece]. *)
Fixpoint mergeRows (grid : Grid) (rows : BlockShape)
    (offsetX offsetY shapeY : Z) : outcome Grid :=
  match rows with
  | [] => Ret grid
  | row :: rest =>
      let* grid' := mergeRow grid row offsetX offsetY 0 shapeY in
      mergeRows grid' rest offsetX offsetY (shapeY + 1)
  end.

(** [grid.splice(row, 1)] *)
Definition splice1 (grid : Grid) (row : nat) : Grid :=
  take row grid ++ drop (S row) grid.

(** [grid.unshift(emptyRow)] *)
Definition unshift (newRow : list cell) (grid : Grid) : Grid :=
  newRow :: grid.

(** Number of complete rows of a grid. *)
Definition completeRows (grid : Grid) : nat :=
  length (List.filter rowComplete grid).

(** What is left for the loop of [clearLines] to do: the rows it has yet to
    step over, and the rows it has yet to remove. *)
Definition loopMeasure (row : Z) (grid : Grid) : nat :=
  (Z.to_nat (row + 1) + completeRows grid)%nat.

Definition inspect {A} (a : A) : {b : A | a = b} := exist _ a eq_refl.

(** The loop of [clearLines], entered at the test [row >= 0].  After a
    removal the body increments [row] and the loop header decrements it
    again: the same index is tested once more.  The recursion is
    well-founded on [loopMeasure]; its equations are proved without
    functional extensionality. *)
#[local] Unset Equations With Funext.
Equations? clearLines_loop (row : Z) (grid : Grid) (clearedCount : Z)
    : outcome (Z * Grid) by wf (loopMeasure row grid) lt :=
  clearLines_loop row grid clearedCount with inspect (row >=? 0) => {
    | exist _ false _ := Ret (clearedCount, grid);
    | exist _ true Hrow with inspect (js_get grid row) => {
        | exist _ None _ := Throw TypeError;
        | exist _ (Some r) Hget with inspect (rowComplete r) => {
            | exist _ true Hc :=
                clearLines_loop (row + 1 - 1)
                  (unshift emptyRow (splice1 grid (Z.to_nat row)))
                  (clearedCount + 1);
            | exist _ false _ :=
                clearLines_loop (row - 1) grid clearedCount } } }.
Proof.
  - unfold loopMeasure, completeRows, unshift, splice1, js_get in *.
    destruct (row <? 0) eqn:E; [discriminate|].
    replace (row + 1 - 1 + 1) with (row + 1) by lia.
    assert (Hn : rowComplete emptyRow = false) by reflexivity.
    cbn [List.filter]. rewrite Hn.
    rewrite <- (take_drop_middle grid (Z.to_nat row) r) at 3 by exact Hget.
    rewrite !List.filter_app. cbn [List.filter]. rewrite Hc.
    rewrite !length_app. simpl. lia.
  - unfold loopMeasure. apply Z.geb_le in Hrow. lia.
Qed.

Definition clearLines (grid : Grid) : outcome (Z * Grid) :=
  clearLines_loop (GRID_HEIGHT - 1) grid 0.

Definition lockPiece (grid : Grid) (shape : BlockShape)
    (offsetX offsetY : Z) : outcome (LockResult * Grid) :=
  let* merged := mergeRows grid shape offsetX offsetY 0 in
  let* res := clearLines merged in
  Ret ({| linesCleared := fst res |}, snd res).

(** The indices visited by [for (row = 0; row < GRID_HEIGHT; row++)]. *)
Definition rowIndices : list Z :=
  map Z.of_nat (seq 0 (Z.to_nat GRID_HEIGHT)).

(** A [for] loop over [xs] whose body updates the loop state or throws. *)
Fixpoint forEachM {A S} (xs : list A) (body : A -> S -> outcome S) (s : S)
    : outcome S :=
  match xs with
  | [] => Ret s
  | x :: rest => let* s' := body x s in forEachM rest body s'
  end.

(** [completedRows.includes(row)] *)
Definition includes (completedRows : list Z) (row : Z) : bool :=
  existsb (Z.eqb row) completedRows.

(** First loop of [clearLinesOptimized]. *)
Definition detectCompleted (grid : Grid) : outcome (list Z) :=
  forEachM rowIndices
    (fun row completedRows =>
       match js_get grid row with
       | None => Throw TypeError
       | Some r =>
           Ret (if rowComplete r then completedRows ++ [row]
                else completedRows)
       end) [].

(** Second loop of [clearLinesOptimized]; [[...grid[row]]] copies the row. *)
Definition extractRemaining (grid : Grid) (completedRows : list Z)
    : outcome (list (list cell)) :=
  forEachM rowIndices
    (fun row remainingRows =>
       if includes completedRows row then Ret remainingRows
       else match js_get grid row with
            | None => Throw TypeError
            | Some r => Ret (remainingRows ++ [r])
            end) [].

Definition clearLinesOptimized (grid : Grid) : outcome (Z * Grid) :=
  let* completedRows := detectCompleted grid in
  if (length completedRows =? 0)%nat then Ret (0, grid)
  else
    let* remainingRows := extractRemaining grid completedRows in
    let grid0 : Grid := [] in
    let grid1 := grid0 ++ replicate (length completedRows) emptyRow in
    Ret (Z.of_nat (length completedRows), grid1 ++ remainingRows).

(** [isRowComplete(grid, rowIndex)] *)
Definition isRowComplete (grid : Grid) (rowIndex : Z) : outcome bool :=
  if (rowIndex <? 0) || (rowIndex >=? GRID_HEIGHT) then Ret false
  else match js_get grid rowIndex with
       | None => Throw TypeError
       | Some r => Ret (rowComplete r)
       end.

(** [getCompletedRows(grid)] *)
Definition getCompletedRows (grid : Grid) : outcome (list Z) :=
  forEachM rowIndices
    (fun row completedRows =>
       let* c := isRowComplete grid row in
       Ret (if c then completedRows ++ [row] else completedRows)) [].

End LockAndClear.

(** ** The rotation module: rotateShape, attemptRotation, attemptRotationSRS *)

Module Rotation.

Import Collision.

Inductive Direction : Type := clockwise | counterClockwise.

(** [shape[i][j]] for [i < shape.length]. *)
Definition shapeCell (shape : BlockShape) (i j : nat) : cell :=
  match shape !! i with
  | Some row => default None (row !! j)
  | None => None
  end.

(** [rotated[r][c] = v].  [rotated] has [n] rows and the loops keep
    [r < n], so the row is always there. *)
Definition setCell (rotated : BlockShape) (r c : nat) (v : cell) : BlockShape :=
  alter (fun row => js_set row c v) r rotated.

(** The two nested [for] loops over [i] and [j] in [0, n). *)
Definition rotateLoops (n : nat) (shape : BlockShape)
    (target : nat -> nat -> nat * nat) (rotated : BlockShape) : BlockShape :=
  foldl (fun rot i =>
           foldl (fun rot' j =>
                    setCell rot' (fst (target i j)) (snd (target i j))
                      (shapeCell shape i j))
                 rot (seq 0 n))
        rotated (seq 0 n).

Definition rotateShape (shape : BlockShape) (direction : Direction)
    : BlockShape :=
  let n := length shape in
  let rotated : BlockShape := replicate n (replicate n (Some 0)) in
  match direction with
  | clockwise =>
      rotateLoops n shape (fun i j => (j, n - 1 - i)%nat) rotated
  | counterClockwise =>
      rotateLoops n shape (fun i j => (n - 1 - j, i)%nat) rotated
  end.

(** [rotateTetromino] of the catalog module: the clockwise loops alone. *)
Definition rotateTetromino (shape : BlockShape) : BlockShape :=
  let n := length shape in
  let rotated : BlockShape := replicate n (replicate n (Some 0)) in
  rotateLoops n shape (fun i j => (j, n - 1 - i)%nat) rotated.

Record RotationResult : Type :=
  { rotated : BlockShape; x : Z; y : Z; valid : bool }.

Definition wallKickOffsets : list Z := [1; -1; 2; -2].

(** The [for (const offset of wallKickOffsets)] loop: [Some] is its early
    [return], [None] its normal end. *)
Fixpoint tryWallKicks (grid : Grid) (rotatedShape : BlockShape)
    (offsetX offsetY : Z) (offsets : list Z)
    : outcome (option RotationResult) :=
  match offsets with
  | [] => Ret None
  | offset :: rest =>
      let newX := offsetX + offset in
      let* ok := isPositionValid grid rotatedShape newX offsetY in
      if ok then
        Ret (Some {| rotated := rotatedShape; x := newX; y := offsetY;
                     valid := true |})
      else tryWallKicks grid rotatedShape offsetX offsetY rest
  end.

Definition attemptRotation (grid : Grid) (shape : BlockShape)
    (offsetX offsetY : Z) (direction : Direction) : outcome RotationResult :=
  let rotatedShape := rotateShape shape direction in
  let* ok := isPositionValid grid rotatedShape offsetX offsetY in
  if ok then
    Ret {| rotated := rotatedShape; x := offsetX; y := offsetY;
           valid := true |}
  else
    let* kicked :=
      tryWallKicks grid rotatedShape offsetX offsetY wallKickOffsets in
    match kicked with
    | Some res => Ret res
    | None =>
        Ret {| rotated := shape; x := offsetX; y := offsetY; valid := false |}
    end.

(** [SRS_WALL_KICK_DATA.standard] *)
Definition SRS_standard : gmap string (list (Z * Z)) :=
  list_to_map
    [ ("0->R"%string, [(0, 0); (-1, 0); (-1, 1); (0, -2); (-1, -2)]);
      ("R->0"%string, [(0, 0); (1, 0); (1, -1); (0, 2); (1, 2)]);
      ("R->2"%string, [(0, 0); (1, 0); (1, -1); (0, 2); (1, 2)]);
      ("2->R"%string, [(0, 0); (-1, 0); (-1, 1); (0, -2); (-1, -2)]);
      ("2->L"%string, [(0, 0); (1, 0); (1, 1); (0, -2); (1, -2)]);
      ("L->2"%string, [(0, 0); (-1, 0); (-1, -1); (0, 2); (-1, 2)]);
      ("L->0"%string, [(0, 0); (-1, 0); (-1, -1); (0, 2); (-1, 2)]);
      ("0->L"%string, [(0, 0); (1, 0); (1, 1); (0, -2); (1, -2)]) ].

(** [SRS_WALL_KICK_DATA.I] *)
Definition SRS_I : gmap string (list (Z * Z)) :=
  list_to_map
    [ ("0->R"%string, [(0, 0); (-2, 0); (1, 0); (-2, -1); (1, 2)]);
      ("R->0"%string, [(0, 0); (2, 0); (-1, 0); (2, 1); (-1, -2)]);
      ("R->2"%string, [(0, 0); (-1, 0); (2, 0); (-1, 2); (2, -1)]);
      ("2->R"%string, [(0, 0); (1, 0); (-2, 0); (1, -2); (-2, 1)]);
      ("2->L"%string, [(0, 0); (2, 0); (-1, 0); (2, 1); (-1, -2)]);
      ("L->2"%string, [(0, 0); (-2, 0); (1, 0); (-2, -1); (1, 2)]);
      ("L->0"%string, [(0, 0); (1, 0); (-2, 0); (1, -2); (-2, 1)]);
      ("0->L"%string, [(0, 0); (-1, 0); (2, 0); (-1, 2); (2, -1)]) ].

Definition rotationStates : list string :=
  ["0"%string; "R"%string; "2"%string; "L"%string].

(** [`${rotationStates[i]}`]: an index outside the array interpolates
    [undefined]. *)
Definition stateLabel (i : Z) : string :=
  match js_get rotationStates i with
  | Some s => s
  | None => "undefined"%string
  end.

(** [(currentRotation + 1) % 4] or [(currentRotation + 3) % 4]; the
    remainder of JavaScript has the sign of the dividend. *)
Definition nextRotation (direction : Direction) (currentRotation : Z) : Z :=
  match direction with
  | clockwise => Z.rem (currentRotation + 1) 4
  | counterClockwise => Z.rem (currentRotation + 3) 4
  end.

Definition transitionKey (direction : Direction) (currentRotation : Z)
    : string :=
  (stateLabel currentRotation ++ "->" ++
   stateLabel (nextRotation direction currentRotation))%string.

Definition kickData (isIPiece : bool) : gmap string (list (Z * Z)) :=
  if isIPiece then SRS_I else SRS_standard.

(** [kickData[transitionKey] || [[0, 0]]] *)
Definition kickOffsets (isIPiece : bool) (direction : Direction)
    (currentRotation : Z) : list (Z * Z) :=
  match kickData isIPiece !! transitionKey direction currentRotation with
  | Some offsets => offsets
  | None => [(0, 0)]
  end.

Record RotationResultSRS : Type :=
  { rotatedSRS : BlockShape; xSRS : Z; ySRS : Z; validSRS : bool;
    newRotation : Z }.

(** The [for (const [kickX, kickY] of kickOffsets)] loop. *)
Fixpoint tryKicksSRS (grid : Grid) (rotatedShape : BlockShape)
    (offsetX offsetY : Z) (newRot : Z) (offsets : list (Z * Z))
    : outcome (option RotationResultSRS) :=
  match offsets with
  | [] => Ret None
  | (kickX, kickY) :: rest =>
      let testX := offsetX + kickX in
      let testY := offsetY + kickY in
      let* ok := isPositionValid grid rotatedShape testX testY in
      if ok then
        Ret (Some {| rotatedSRS := rotatedShape; xSRS := testX;
                     ySRS := testY; validSRS := true;
                     newRotation := newRot |})
      else tryKicksSRS grid rotatedShape offsetX offsetY newRot rest
  end.

Definition attemptRotationSRS (grid : Grid) (shape : BlockShape)
    (offsetX offsetY : Z) (direction : Direction) (currentRotation : Z)
    (isIPiece : bool) : outcome RotationResultSRS :=
  let rotatedShape := rotateShape shape direction in
  let newRot := nextRotation direction currentRotation in
  let* kicked :=
    tryKicksSRS grid rotatedShape offsetX offsetY newRot
      (kickOffsets isIPiece direction currentRotation) in
  match kicked with
  | Some res => Ret res
  | None =>
      Ret {| rotatedSRS := shape; xSRS := offsetX; ySRS := offsetY;
             validSRS := false; newRotation := currentRotation |}
  end.

End Rotation.

(** ** scoreAndLevel.ts *)

Module Score.

(** [baseDropInterval] and the drop interval are rationals: the model
    computes [Math.pow(0.9, level - 1)] exactly, without the rounding of
    double-precision arithmetic.  [linesPerLevel = 0], for which JavaScript
    computes [NaN] or [Infinity], is outside the model. *)
Record ScoreConfig : Type :=
  { initialScore : Z;
    scoreTable : gmap Z Z;
    initialLevel : Z;
    linesPerLevel : Z;
    baseDropInterval : Q }.

Record ScoreManager : Type :=
  { config : ScoreConfig;
    score : Z;
    level : Z;
    totalLinesCleared : Z }.

(** [new ScoreManager(config)] *)
Definition newScoreManager (cfg : ScoreConfig) : ScoreManager :=
  {| config := cfg;
     score := initialScore cfg;
     level := initialLevel cfg;
     totalLinesCleared := 0 |}.

(** [clearLines(count)]; [Math.floor(a / b)] is [a / b] of [Z]. *)
Definition clearLines (m : ScoreManager) (count : Z) : ScoreManager :=
  let score' :=
    match scoreTable (config m) !! count with
    | Some points => score m + points
    | None => score m
    end in
  let total' := totalLinesCleared m + count in
  {| config := config m;
     score := score';
     level := initialLevel (config m) + total' / linesPerLevel (config m);
     totalLinesCleared := total' |}.


(** A manager after a sequence of [clearLines] calls. *)
Definition clearAll (m : ScoreManager) (counts : list Z) : ScoreManager :=
  foldl clearLines m counts.

End Score.

(** ** The piece catalog *)

Module Catalog.

(** Array objects live in a store; a location is the position of the
    object in the allocation order. *)
Abbreviation loc := nat (only parsing).

Inductive obj : Type :=
| ArrNum (cells : list cell)
| ArrRef (elems : list loc).

Abbreviation store := (list obj) (only parsing).

Definition alloc (o : obj) (st : store) : loc * store :=
  (length st, st ++ [o]).

Definition I_PIECE : BlockShape :=
  [ [Some 0; Some 0; Some 0; Some 0];
    [Some 1; Some 1; Some 1; Some 1];
    [Some 0; Some 0; Some 0; Some 0];
    [Some 0; Some 0; Some 0; Some 0] ].

Definition O_PIECE : BlockShape :=
  [ [Some 0; Some 0; Some 0; Some 0];
    [Some 0; Some 2; Some 2; Some 0];
    [Some 0; Some 2; Some 2; Some 0];
    [Some 0; Some 0; Some 0; Some 0] ].

Definition T_PIECE : BlockShape :=
  [ [Some 0; Some 0; Some 0; Some 0];
    [Some 0; Some 3; Some 0; Some 0];
    [Some 3; Some 3; Some 3; Some 0];
    [Some 0; Some 0; Some 0; Some 0] ].

Definition S_PIECE : BlockShape :=
  [ [Some 0; Some 0; Some 0; Some 0];
    [Some 0; Some 4; Some 4; Some 0];
    [Some 4; Some 4; Some 0; Some 0];
    [Some 0; Some 0; Some 0; Some 0] ].

Definition Z_PIECE : BlockShape :=
  [ [Some 0; Some 0; Some 0; Some 0];
    [Some 5; Some 5; Some 0; Some 0];
    [Some 0; Some 5; Some 5; Some 0];
    [Some 0; Some 0; Some 0; Some 0] ].

Definition J_PIECE : BlockShape :=
  [ [Some 0; Some 0; Some 0; Some 0];
    [Some 6; Some 0; Some 0; Some 0];
    [Some 6; Some 6; Some 6; Some 0];
    [Some 0; Some 0; Some 0; Some 0] ].

Definition L_PIECE : BlockShape :=
  [ [Some 0; Some 0; Some 0; Some 0];
    [Some 0; Some 0; Some 7; Some 0];
    [Some 7; Some 7; Some 7; Some 0];
    [Some 0; Some 0; Some 0; Some 0] ].

(** The shapes of the catalog, in the order of [TETROMINOS]. *)
Definition canonicalShapes : list BlockShape :=
  [I_PIECE; O_PIECE; T_PIECE; S_PIECE; Z_PIECE; J_PIECE; L_PIECE].

(** Allocation of fresh row arrays holding the given cells. *)
Fixpoint allocRows (rows : list (list cell)) (st : store)
    : list loc * store :=
  match rows with
  | [] => ([], st)
  | cells :: rest =>
      let (l, st1) := alloc (ArrNum cells) st in
      let (ls, st2) := allocRows rest st1 in
      (l :: ls, st2)
  end.

(** Evaluation of an array literal [[[..], [..], ..]]. *)
Definition allocShape (shape : BlockShape) (st : store) : loc * store :=
  let (ls, st1) := allocRows shape st in
  alloc (ArrRef ls) st1.

Fixpoint allocShapes (shapes : list BlockShape) (st : store)
    : list loc * store :=
  match shapes with
  | [] => ([], st)
  | shape :: rest =>
      let (l, st1) := allocShape shape st in
      let (ls, st2) := allocShapes rest st1 in
      (l :: ls, st2)
  end.

(** Initialisation of the module: the seven piece constants, then the
    array [TETROMINOS] that refers to them. *)
Definition initModule : loc * store :=
  let (pieces, st1) := allocShapes canonicalShapes [] in
  alloc (ArrRef pieces) st1.

Definition TETROMINOS : loc := fst initModule.
Definition initStore : store := snd initModule.

(** [rows.map((row) => [...row])]: one fresh array per row, in order.  The
    array that [map] returns is allocated by the caller of [copyRows], after
    the rows; the order of the allocations cannot be observed. *)
Fixpoint copyRows (rows : list loc) (st : store)
    : outcome (list loc * store) :=
  match rows with
  | [] => Ret ([], st)
  | row :: rest =>
      match st !! row with
      | Some (ArrNum cells) =>
          let (l, st1) := alloc (ArrNum cells) st in
          let* r := copyRows rest st1 in
          Ret (l :: fst r, snd r)
      | _ => Throw TypeError
      end
  end.

(** [getTetrominoByIndex(index)]: the [Error] thrown for an index out of
    range is [InvalidIndex], with the two numbers that its message
    interpolates. *)
Definition getTetrominoByIndex (index : Z) (st : store)
    : outcome (loc * store) :=
  match st !! TETROMINOS with
  | Some (ArrRef pieces) =>
      let len := Z.of_nat (length pieces) in
      if (index <? 0) || (index >=? len) then
        Throw (InvalidIndex index (len - 1))
      else
        match js_get pieces index with
        | Some piece =>
            match st !! piece with
            | Some (ArrRef rows) =>
                let* r := copyRows rows st in
                Ret (alloc (ArrRef (fst r)) (snd r))
            | _ => Throw TypeError
            end
        | None => Throw TypeError
        end
  | _ => Throw TypeError
  end.

(** The contents of the rows at the given locations. *)
Fixpoint readRows (st : store) (rows : list loc) : option (list (list cell)) :=
  match rows with
  | [] => Some []
  | row :: rest =>
      match st !! row with
      | Some (ArrNum cells) =>
          match readRows st rest with
          | Some others => Some (cells :: others)
          | None => None
          end
      | _ => None
      end
  end.

(** The contents of the shape at a location. *)
Definition readShape (st : store) (shape : loc) : option BlockShape :=
  match st !! shape with
  | Some (ArrRef rows) => readRows st rows
  | _ => None
  end.

Fixpoint readShapes (st : store) (pieces : list loc) : option (list BlockShape) :=
  match pieces with
  | [] => Some []
  | piece :: rest =>
      match readShape st piece with
      | Some shape =>
          match readShapes st rest with
          | Some others => Some (shape :: others)
          | None => None
          end
      | None => None
      end
  end.

(** The contents of the catalog: what [TETROMINOS[k]] holds, for each [k]. *)
Definition readCatalog (st : store) : option (list BlockShape) :=
  match st !! TETROMINOS with
  | Some (ArrRef pieces) => readShapes st pieces
  | _ => None
  end.

(** [shape[r][c] = v], a mutation by the caller. *)
Definition writeShapeCell (st : store) (shape : loc) (r c : nat) (v : cell)
    : outcome store :=
  match st !! shape with
  | Some (ArrRef rows) =>
      match rows !! r with
      | Some row =>
          match st !! row with
          | Some (ArrNum cells) =>
              Ret (<[row := ArrNum (js_set cells c v)]> st)
          | _ => Throw TypeError
          end
      | None => Throw TypeError
      end
  | _ => Throw TypeError
  end.

(** The store still holds every object of the module as initialised. *)
Definition catalogIntact (st : store) : Prop :=
  forall l o, initStore !! l = Some o -> st !! l = Some o.

End Catalog.

(** ** collision.ts: placement, completed rows, removal, emptiness *)

(** The values taken by [row] in [for (row = first; row <= last; row++)]. *)
Definition rowsBetween (first last : Z) : list Z :=
  map (fun k => first + Z.of_nat k) (seq 0 (Z.to_nat (last - first + 1))).

(** [row.every((cell) => cell === 0)], for a row without holes ([every]
    steps over the holes of a sparse array). *)
Definition allZero (row : list cell) : bool := forallb is_zero row.

Module Placement.

Import Collision.

(** [grid[gridY][gridX] = cellValue] with no guard around it.  A missing row
    makes the assignment a TypeError.  With a negative [gridX] the
    assignment creates a property that is not an element of the row: the
    cells of the row are what they were. *)
Definition assignCell (grid : Grid) (gridX gridY : Z) (cellValue : cell)
    : outcome Grid :=
  match js_get grid gridY with
  | None => Throw TypeError
  | Some row =>
      if gridX <? 0 then Ret grid
      else Ret (<[Z.to_nat gridY := js_set row (Z.to_nat gridX) cellValue]> grid)
  end.

(** Inner loop of the second part of [placeTetromino]. *)
Fixpoint placeRow (grid : Grid) (cells : list cell)
    (offsetX offsetY shapeX shapeY : Z) : outcome Grid :=
  match cells with
  | [] => Ret grid
  | cellValue :: rest =>
      if occupied cellValue then
        let gridX := offsetX + shapeX in
        let gridY := offsetY + shapeY in
        let* grid' := assignCell grid gridX gridY cellValue in
        placeRow grid' rest offsetX offsetY (shapeX + 1) shapeY
      else placeRow grid rest offsetX offsetY (shapeX + 1) shapeY
  end.

(** Outer loop of the second part of [placeTetromino]. *)
Fixpoint placeRows (grid : Grid) (rows : BlockShape)
    (offsetX offsetY shapeY : Z) : outcome Grid :=
  match rows with
  | [] => Ret grid
  | row :: rest =>
      let* grid' := placeRow grid row offsetX offsetY 0 shapeY in
      placeRows grid' rest offsetX offsetY (shapeY + 1)
  end.

(** [placeTetromino(grid, shape, offsetX, offsetY)]: the returned boolean
    and the grid after the call. *)
Definition placeTetromino (grid : Grid) (shape : BlockShape)
    (offsetX offsetY : Z) : outcome (bool * Grid) :=
  let* ok := isPositionValid grid shape offsetX offsetY in
  if negb ok then Ret (false, grid)
  else
    let* grid' := placeRows grid shape offsetX offsetY 0 in
    Ret (true, grid').

(** [findCompletedRows(grid)] *)
Definition findCompletedRows (grid : Grid) : outcome (list Z) :=
  LockAndClear.forEachM LockAndClear.rowIndices
    (fun row completedRows =>
       match js_get grid row with
       | None => Throw TypeError
       | Some r =>
           Ret (if rowComplete r then completedRows ++ [row]
                else completedRows)
       end) [].

(** Insertion of a number into a list in descending order. *)
Fixpoint insertDesc (a : Z) (sorted : list Z) : list Z :=
  match sorted with
  | [] => [a]
  | b :: rest => if b <? a then a :: b :: rest else b :: insertDesc a rest
  end.

(** [[...rowIndices].sort((a, b) => b - a)]: the same numbers in descending
    order. *)
Definition sortDesc (rowIndices : list Z) : list Z :=
  foldr insertDesc [] rowIndices.

(** [for (let row = rowIndex; row > 0; row--) grid[row] = [...grid[row - 1]]],
    entered with [row] counted as a natural number.  Spreading [undefined]
    is a TypeError.  When [grid[row - 1]] is there, [row] is at most
    [grid.length]: the assignment replaces a row, or appends one. *)
Fixpoint shiftDown (row : nat) (grid : Grid) : outcome Grid :=
  match row with
  | O => Ret grid
  | S above =>
      match grid !! above with
      | None => Throw TypeError
      | Some r =>
          shiftDown above
            (if (S above <? length grid)%nat then <[S above := r]> grid
             else grid ++ [r])
      end
  end.

(** [grid[0] = new Array(GRID_WIDTH).fill(0)] *)
Definition blankTop (grid : Grid) : Grid :=
  match grid with
  | [] => [emptyRow]
  | _ :: rest => emptyRow :: rest
  end.

(** The body of the loop over [sortedIndices]; a [rowIndex] that is not
    positive leaves nothing to shift. *)
Definition removeRow (rowIndex : Z) (grid : Grid) : outcome Grid :=
  let* shifted := shiftDown (Z.to_nat rowIndex) grid in
  Ret (blankTop shifted).

(** [removeRows(grid, rowIndices)]: the returned number and the grid after
    the call. *)
Definition removeRows (grid : Grid) (rowIndices : list Z)
    : outcome (Z * Grid) :=
  let sortedIndices := sortDesc rowIndices in
  let* grid' := LockAndClear.forEachM sortedIndices removeRow grid in
  Ret (Z.of_nat (length rowIndices), grid').

(** [isGridEmpty(grid)] *)
Definition isGridEmpty (grid : Grid) : bool := forallb allZero grid.

(** The loop of [isRangeEmpty] over the rows it visits. *)
Fixpoint rangeLoop (grid : Grid) (rows : list Z) : outcome bool :=
  match rows with
  | [] => Ret true
  | row :: rest =>
      match js_get grid row with
      | None => Throw TypeError
      | Some r => if negb (allZero r) then Ret false else rangeLoop grid rest
      end
  end.

(** [isRangeEmpty(grid, startRow, endRow)]: the loop runs while
    [row <= endRow && row < GRID_HEIGHT]. *)
Definition isRangeEmpty (grid : Grid) (startRow endRow : Z) : outcome bool :=
  rangeLoop grid (rowsBetween startRow (Z.min endRow (GRID_HEIGHT - 1))).

End Placement.

(** ** lockAndClear.ts: the queries *)

Module Queries.

Import LockAndClear.

(** [getLineClearBonus(linesCleared)] *)
Definition getLineClearBonus (linesCleared : Z) : Z :=
  if linesCleared =? 1 then 1
  else if linesCleared =? 2 then 3
  else if linesCleared =? 3 then 5
  else if linesCleared =? 4 then 8
  else 0.

(** The loop of [hasCompletedRowsInRange] over the rows it visits. *)
Fixpoint anyComplete (grid : Grid) (rows : list Z) : outcome bool :=
  match rows with
  | [] => Ret false
  | row :: rest =>
      let* complete := isRowComplete grid row in
      if complete then Ret true else anyComplete grid rest
  end.

(** [hasCompletedRowsInRange(grid, startRow, endRow)] *)
Definition hasCompletedRowsInRange (grid : Grid) (startRow endRow : Z)
    : outcome bool :=
  let start := Z.max 0 startRow in
  let end_ := Z.min (GRID_HEIGHT - 1) endRow in
  anyComplete grid (rowsBetween start end_).

End Queries.

(** ** The rotation module: rotate180, getRotationPreview, canRotateAtAll *)

Module RotationOps.

Import Collision Rotation.

(** [rotate180(shape)] *)
Definition rotate180 (shape : BlockShape) : BlockShape :=
  rotateShape (rotateShape shape clockwise) clockwise.

(** [getRotationPreview(shape, direction, times = 1)]: [None] is the call
    without its third argument.  The loop [for (i = 0; i < times; i++)]
    makes [times] turns, none when [times] is not positive. *)
Definition getRotationPreview (shape : BlockShape) (direction : Direction)
    (times : option Z) : BlockShape :=
  let times := default 1 times in
  Nat.iter (Z.to_nat times) (fun result => rotateShape result direction) shape.

(** [canRotateAtAll(grid, shape, offsetX, offsetY)] *)
Definition canRotateAtAll (grid : Grid) (shape : BlockShape)
    (offsetX offsetY : Z) : outcome bool :=
  let* clockwiseResult :=
    attemptRotation grid shape offsetX offsetY clockwise in
  if valid clockwiseResult then Ret true
  else
    let* counterClockwiseResult :=
      attemptRotation grid shape offsetX offsetY counterClockwise in
    Ret (valid counterClockwiseResult).

End RotationOps.

(** ** The piece catalog: getTetrominoBounds, getTetrominoName *)

Module Pieces.

Record Bounds : Type :=
  { minRow : Z; maxRow : Z; minCol : Z; maxCol : Z }.

(** The body of the inner loop of [getTetrominoBounds]. *)
Definition boundsCell (row col : Z) (c : cell) (b : Bounds) : Bounds :=
  if occupied c then
    {| minRow := Z.min (minRow b) row;
       maxRow := Z.max (maxRow b) row;
       minCol := Z.min (minCol b) col;
       maxCol := Z.max (maxCol b) col |}
  else b.

(** [for (col = ...; col < shape[row].length; col++)], entered with the
    cells of the row from [col] on. *)
Fixpoint boundsRow (cells : list cell) (row col : Z) (b : Bounds) : Bounds :=
  match cells with
  | [] => b
  | c :: rest => boundsRow rest row (col + 1) (boundsCell row col c b)
  end.

(** [for (row = ...; row < shape.length; row++)], entered with the rows of
    the shape from [row] on. *)
Fixpoint boundsRows (rows : BlockShape) (row : Z) (b : Bounds) : Bounds :=
  match rows with
  | [] => b
  | cells :: rest => boundsRows rest (row + 1) (boundsRow cells row 0 b)
  end.

(** The bounds before the loops: [shape[0]?.length || 0] is the length of
    the first row, 0 when there is none. *)
Definition initialBounds (shape : BlockShape) : Bounds :=
  {| minRow := Z.of_nat (length shape);
     maxRow := -1;
     minCol := match shape with
               | [] => 0
               | first :: _ => Z.of_nat (length first)
               end;
     maxCol := -1 |}.

(** [getTetrominoBounds(shape)] *)
Definition getTetrominoBounds (shape : BlockShape) : Bounds :=
  boundsRows shape 0 (initialBounds shape).

Definition names : list string :=
  ["I"%string; "O"%string; "T"%string; "S"%string; "Z"%string; "J"%string;
   "L"%string].

(** [getTetrominoName(type)]: [names[type] || "Unknown"], the empty string
    being the one string that [||] replaces. *)
Definition getTetrominoName (type : Z) : string :=
  match js_get names type with
  | Some EmptyString => "Unknown"%string
  | Some name => name
  | None => "Unknown"%string
  end.

End Pieces.

(** ** The drop module: hardDrop, calculateGhostPosition *)

Module Drop.

Import Collision Placement.

(** [DropConfig], without [scene]: the Phaser scene serves the timer
    functions only. *)
Record DropConfig : Type :=
  { grid : Grid;
    shape : BlockShape;
    offsetX : Z;
    offsetY : Z;
    dropInterval : Q }.

(** The loop of [calculateGhostPosition], entered at its test with at most
    [fuel] turns to make: [None] when the turns run out before the test
    fails. *)
Fixpoint ghostLoop (fuel : nat) (grid : Grid) (shape : BlockShape)
    (offsetX ghostY : Z) : option (outcome Z) :=
  match fuel with
  | O => None
  | S fuel' =>
      match isPositionValid grid shape offsetX (ghostY + 1) with
      | Throw e => Some (Throw e)
      | Ret true => ghostLoop fuel' grid shape offsetX (ghostY + 1)
      | Ret false => Some (Ret ghostY)
      end
  end.

(** [calculateGhostPosition(grid, shape, offsetX, offsetY)] *)
Definition calculateGhostPosition (fuel : nat) (grid : Grid)
    (shape : BlockShape) (offsetX offsetY : Z) : option (outcome Z) :=
  ghostLoop fuel grid shape offsetX offsetY.

(** [config.offsetY++] *)
Definition stepDown (config : DropConfig) : DropConfig :=
  {| grid := grid config;
     shape := shape config;
     offsetX := offsetX config;
     offsetY := offsetY config + 1;
     dropInterval := dropInterval config |}.

(** The grid of the configuration after a mutation of it. *)
Definition withGrid (config : DropConfig) (grid' : Grid) : DropConfig :=
  {| grid := grid';
     shape := shape config;
     offsetX := offsetX config;
     offsetY := offsetY config;
     dropInterval := dropInterval config |}.

(** The loop of [hardDrop], with at most [fuel] turns to make. *)
Fixpoint hardDropLoop (fuel : nat) (config : DropConfig) (dropDistance : Z)
    : option (outcome (Z * DropConfig)) :=
  match fuel with
  | O => None
  | S fuel' =>
      match isPositionValid (grid config) (shape config) (offsetX config)
              (offsetY config + 1) with
      | Throw e => Some (Throw e)
      | Ret true => hardDropLoop fuel' (stepDown config) (dropDistance + 1)
      | Ret false => Some (Ret (dropDistance, config))
      end
  end.

(** [hardDrop(config)]: the returned distance and the configuration after
    the call.  The boolean that [placeTetromino] returns is dropped. *)
Definition hardDrop (fuel : nat) (config : DropConfig)
    : option (outcome (Z * DropConfig)) :=
  match hardDropLoop fuel config 0 with
  | None => None
  | Some (Throw e) => Some (Throw e)
  | Some (Ret (dropDistance, config')) =>
      Some (let* placed :=
              placeTetromino (grid config') (shape config') (offsetX config')
                (offsetY config') in
            Ret (dropDistance, withGrid config' (snd placed)))
  end.

End Drop.

(** ** Vocabulary of the specification *)

Import Collision LockAndClear Rotation.

(** The shape has an occupied cell (a value other than 0) at local column
    [sx] of local row [sy]. *)
Definition occupiedAt (shape : BlockShape) (sx sy : nat) : Prop :=
  exists row c, shape !! sy = Some row /\ row !! sx = Some c /\ occupied c = true.

(** Absolute coordinates inside the board. *)
Definition inBounds (gx gy : Z) : Prop :=
  0 <= gx < GRID_WIDTH /\ 0 <= gy < GRID_HEIGHT.

(** [grid[gy][gx]], [undefined] where the grid has no such cell. *)
Definition gridCell (grid : Grid) (gx gy : Z) : cell :=
  match js_get grid gy with
  | Some row => js_cell row gx
  | None => None
  end.

(** The coordinates address a cell of the board whose value is not 0. *)
Definition blockedAt (grid : Grid) (gx gy : Z) : Prop :=
  inBounds gx gy /\ occupied (gridCell grid gx gy) = true.

(** Some occupied cell of the shape lands outside the board. *)
Definition leavesBoard (shape : BlockShape) (offsetX offsetY : Z) : Prop :=
  exists sx sy, occupiedAt shape sx sy /\
    ~ inBounds (offsetX + Z.of_nat sx) (offsetY + Z.of_nat sy).

(** Some occupied cell of the shape lands on a cell that is not empty. *)
Definition overlaps (grid : Grid) (shape : BlockShape) (offsetX offsetY : Z)
    : Prop :=
  exists sx sy, occupiedAt shape sx sy /\
    blockedAt grid (offsetX + Z.of_nat sx) (offsetY + Z.of_nat sy).

(** Boolean form of "inside the board and on an empty cell". *)
Definition cellFree (grid : Grid) (gx gy : Z) : bool :=
  (0 <=? gx) && (gx <? GRID_WIDTH) && (0 <=? gy) && (gy <? GRID_HEIGHT) &&
  is_zero (gridCell grid gx gy).

(** The rows that survive a line clear. *)
Definition keptRows (grid : Grid) : Grid :=
  List.filter (fun r => negb (rowComplete r)) grid.

(** The grid after a line clear, as the specification words it: the
    complete rows removed, the others in their order, and as many empty rows
    on top. *)
Definition clearedGrid (grid : Grid) : Grid :=
  replicate (completeRows grid) emptyRow ++ keptRows grid.

(** The indices of the complete rows among [rows], whose first row has
    index [start]. *)
Fixpoint completedFrom (start : nat) (rows : list (list cell)) : list Z :=
  match rows with
  | [] => []
  | r :: rest =>
      if rowComplete r then Z.of_nat start :: completedFrom (S start) rest
      else completedFrom (S start) rest
  end.

(** The occupied cell, if any, at local column [dx] of a row of a shape. *)
Definition pieceRowCell (cells : list cell) (dx : Z) : option cell :=
  match js_get cells dx with
  | Some c => if occupied c then Some c else None
  | None => None
  end.

(** The occupied cell, if any, at local column [dx] of local row [dy]. *)
Definition pieceCell (shape : BlockShape) (dx dy : Z) : option cell :=
  match js_get shape dy with
  | Some row => pieceRowCell row dx
  | None => None
  end.

(** No occupied cell of the shape lands inside the board. *)
Definition nothingInRange (shape : BlockShape) (offsetX offsetY : Z) : Prop :=
  forall sx sy, occupiedAt shape sx sy ->
    ~ inBounds (offsetX + Z.of_nat sx) (offsetY + Z.of_nat sy).

(** A matrix of [n] rows of [n] cells. *)
Definition dims (n : nat) (m : BlockShape) : Prop :=
  length m = n /\ Forall (fun row => length row = n) m.

(** A square shape: as many cells in each row as there are rows. *)
Definition isSquare (shape : BlockShape) : Prop := dims (length shape) shape.

(** The matrix [rot] holds the value [final r c] at every position marked
    by [W]. *)
Definition agrees (n : nat) (final : nat -> nat -> cell)
    (W : nat -> nat -> Prop) (rot : BlockShape) : Prop :=
  dims n rot /\ forall r c, W r c -> shapeCell rot r c = final r c.

(** The [n] by [n] table of the values [g r c]. *)
Definition tabulate {A} (n : nat) (g : nat -> nat -> A) : list (list A) :=
  map (fun r => map (fun c => g r c) (seq 0 n)) (seq 0 n).

(** The positions of an [n] by [n] matrix, row by row. *)
Definition positions (n : nat) : list (nat * nat) := concat (tabulate n pair).

(** Every entry of the score table is a bonus, not a penalty. *)
Definition tableNonNegative (cfg : Score.ScoreConfig) : Prop :=
  map_Forall (fun (count points : Z) => 0 <= points) (Score.scoreTable cfg).

(** What holds of a manager between two calls. *)
Definition scoreInvariant (cfg : Score.ScoreConfig) (m : Score.ScoreManager)
    : Prop :=
  Score.config m = cfg /\
  0 <= Score.totalLinesCleared m /\
  Score.level m =
    Score.initialLevel cfg + Score.totalLinesCleared m / Score.linesPerLevel cfg.

(** Sample configurations: the usual score table, a table with a penalty,
    and a negative number of lines per level. *)
Definition cfgStandard : Score.ScoreConfig :=
  {| Score.initialScore := 0;
     Score.scoreTable := list_to_map [(1, 100); (2, 300); (3, 500); (4, 800)];
     Score.initialLevel := 1;
     Score.linesPerLevel := 10;
     Score.baseDropInterval := 1000 # 1 |}.

Definition cfgPenalty : Score.ScoreConfig :=
  {| Score.initialScore := 0;
     Score.scoreTable := list_to_map [(1, -100)];
     Score.initialLevel := 1;
     Score.linesPerLevel := 10;
     Score.baseDropInterval := 1000 # 1 |}.

Definition cfgBackwards : Score.ScoreConfig :=
  {| Score.initialScore := 0;
     Score.scoreTable := list_to_map [(1, 100)];
     Score.initialLevel := 1;
     Score.linesPerLevel := -1;
     Score.baseDropInterval := 1000 # 1 |}.

(** Sample boards and shapes. *)
Definition emptyGrid : Grid := replicate 20 emptyRow.

Definition fullRow : list cell := replicate 10 (Some 1).

(** Empty but for a complete bottom row. *)
Definition gridBottomFull : Grid := replicate 19 emptyRow ++ [fullRow].

(** Rows 16, 18 and 19 complete, row 17 with a single block. *)
Definition gridThreeFull : Grid :=
  replicate 16 emptyRow ++
  [fullRow; <[3%nat := Some 5]> emptyRow; fullRow; fullRow].

(** Every cell taken. *)
Definition gridAllFull : Grid := replicate 20 fullRow.

Definition dotShape : BlockShape := [[Some 1]].

Definition squareShape : BlockShape := [[Some 1; Some 1]; [Some 1; Some 1]].

(** The empty board with a block at column 5 of row 5. *)
Definition gridOneBlock : Grid :=
  <[5%nat := <[5%nat := Some 1]> emptyRow]> emptyGrid.

(** The empty board with its four bottom rows complete. *)
Definition gridFourFull : Grid :=
  replicate 16 emptyRow ++ replicate 4 fullRow.

(** ** Vocabulary of the further properties *)

(** Some occupied cell. *)
Definition hasOccupied (shape : BlockShape) : Prop :=
  exists sx sy, occupiedAt shape sx sy.

(** Every cell of the grid holds a number: no row has a hole or an
    [undefined] element. *)
Definition numeric (grid : Grid) : Prop :=
  Forall (fun row : list cell => Forall (fun c : cell => is_Some c) row) grid.

(** Row [k] of the grid is there and complete. *)
Definition completeAt (grid : Grid) (k : Z) : Prop :=
  exists r, js_get grid k = Some r /\ rowComplete r = true.

(** Row [k] of the grid is there and every cell of it is the number 0. *)
Definition blankAt (grid : Grid) (k : Z) : Prop :=
  exists r, js_get grid k = Some r /\ Forall (fun c : cell => c = Some 0) r.

(** The numbers of the list increase strictly from left to right. *)
Definition ascending (l : list Z) : Prop :=
  forall (i j : nat) (a b : Z),
    l !! i = Some a -> l !! j = Some b -> (i < j)%nat -> a < b.

(** The other direction of rotation. *)
Definition opposite (direction : Direction) : Direction :=
  match direction with
  | clockwise => counterClockwise
  | counterClockwise => clockwise
  end.

(** A kick, taken backwards. *)
Definition mirrored (kick : Z * Z) : Z * Z := (- fst kick, - snd kick).

(** The column shifts at which [attemptRotation] tests the rotated shape:
    none, then the wall kicks. *)
Definition kickCandidates : list Z := 0 :: wallKickOffsets.

(** The positions (row, column) of the occupied cells of a row of a shape,
    from left to right; [col] is the column of the first cell. *)
Fixpoint occupiedInRow (cells : list cell) (row col : Z) : list (Z * Z) :=
  match cells with
  | [] => []
  | c :: rest =>
      if occupied c then (row, col) :: occupiedInRow rest row (col + 1)
      else occupiedInRow rest row (col + 1)
  end.

(** The positions of the occupied cells of a shape, row by row; [row] is
    the index of the first row. *)
Fixpoint occupiedCells (rows : BlockShape) (row : Z) : list (Z * Z) :=
  match rows with
  | [] => []
  | cells :: rest => occupiedInRow cells row 0 ++ occupiedCells rest (row + 1)
  end.

(** Bounds widened to take in one more position. *)
Definition extend (b : Pieces.Bounds) (p : Z * Z) : Pieces.Bounds :=
  {| Pieces.minRow := Z.min (Pieces.minRow b) (fst p);
     Pieces.maxRow := Z.max (Pieces.maxRow b) (fst p);
     Pieces.minCol := Z.min (Pieces.minCol b) (snd p);
     Pieces.maxCol := Z.max (Pieces.maxCol b) (snd p) |}.

(** Every row of the shape has [w] cells. *)
Definition rectangular (w : nat) (shape : BlockShape) : Prop :=
  Forall (fun row : list cell => length row = w) shape.


(** The points that the score table gives for a count of lines: none when
    the table has no entry for it. *)
Definition points (cfg : Score.ScoreConfig) (count : Z) : Z :=
  default 0 (Score.scoreTable cfg !! count).

(** * Properties *)

(** Boolean tests on numbers, settled by arithmetic. *)
Ltac test_true t :=
  replace t with true
    by (symmetry; rewrite ?Z.geb_leb;
        first [apply Z.ltb_lt | apply Z.leb_le | apply Z.eqb_eq | apply Nat.ltb_lt];
        lia).

Ltac test_false t :=
  replace t with false
    by (symmetry; rewrite ?Z.geb_leb;
        first [apply Z.ltb_ge | apply Z.leb_gt | apply Z.eqb_neq | apply Nat.ltb_ge];
        lia).

(** The tests recorded in the hypotheses, as inequalities. *)
Ltac tests :=
  repeat match goal with
    | H : (_ >=? _) = _ |- _ => rewrite Z.geb_leb in H
    | H : (_ <? _) = true |- _ => apply Z.ltb_lt in H
    | H : (_ <? _) = false |- _ => apply Z.ltb_ge in H
    | H : (_ <=? _) = true |- _ => apply Z.leb_le in H
    | H : (_ <=? _) = false |- _ => apply Z.leb_gt in H
    | H : (_ =? _) = true |- _ => apply Z.eqb_eq in H
    | H : (_ =? _) = false |- _ => apply Z.eqb_neq in H
    end.

(** ** Boards *)

Lemma board_row (grid : Grid) (gy : Z) :
  is_board grid -> 0 <= gy < GRID_HEIGHT ->
  exists row, js_get grid gy = Some row /\ length row = Z.to_nat GRID_WIDTH.
Proof.
  intros [Hlen Hrows] Hgy. unfold js_get.
  destruct (gy <? 0) eqn:E; [apply Z.ltb_lt in E; lia|].
  destruct (lookup_lt_is_Some_2 grid (Z.to_nat gy)) as [row Hrow]; [lia|].
  exists row. split; [exact Hrow|].
  rewrite Forall_lookup in Hrows. exact (Hrows _ _ Hrow).
Qed.

Lemma cellFree_true (grid : Grid) (gx gy : Z) :
  cellFree grid gx gy = true <-> inBounds gx gy /\ ~ blockedAt grid gx gy.
Proof.
  unfold cellFree, blockedAt, inBounds, occupied.
  rewrite !andb_true_iff, !Z.leb_le, !Z.ltb_lt, negb_true_iff.
  split.
  - intros [[[[? ?] ?] ?] Hz]. split; [lia|]. intros [_ Hc]. congruence.
  - intros [Hb Hn]. repeat split; try lia.
    destruct (is_zero (gridCell grid gx gy)) eqn:E; [reflexivity|].
    exfalso. apply Hn. split; [lia|reflexivity].
Qed.

(** ** collision.ts *)

(** The check of one occupied cell: whenever it returns, it tells whether
    the cell is free. *)
Lemma checkCell_verdict (grid : Grid) (gx gy : Z) (b : bool) :
  checkCell grid gx gy = Ret b -> b = cellFree grid gx gy.
Proof.
  unfold checkCell, cellFree, gridCell, GRID_WIDTH, GRID_HEIGHT.
  destruct (gx <? 0) eqn:?, (gx >=? 10) eqn:?, (gy <? 0) eqn:?, (gy >=? 20) eqn:?;
    cbn [orb]; tests.
  all: try (intros [= <-]; symmetry; rewrite !andb_false_iff,
              ?Z.leb_gt, ?Z.ltb_ge; lia).
  test_true (0 <=? gx). test_true (gx <? 10).
  test_true (0 <=? gy). test_true (gy <? 20). cbn [andb].
  destruct (js_get grid gy) as [row|]; [|discriminate].
  intros [= <-]. reflexivity.
Qed.

(** On a board the check of a cell returns. *)
Lemma checkCell_total (grid : Grid) (gx gy : Z) :
  is_board grid -> exists b, checkCell grid gx gy = Ret b.
Proof.
  intros Hb. unfold checkCell.
  destruct ((gx <? 0) || (gx >=? GRID_WIDTH)); [eauto|].
  destruct ((gy <? 0) || (gy >=? GRID_HEIGHT)) eqn:E; [eauto|].
  apply orb_false_iff in E. destruct E as [E3 E4].
  apply Z.ltb_ge in E3. rewrite Z.geb_leb in E4. apply Z.leb_gt in E4.
  destruct (board_row grid gy Hb) as [row [Hrow _]]; [lia|].
  rewrite Hrow. eauto.
Qed.

(** The inner loop: whenever it returns, it returns [true] exactly when
    every occupied cell it visits is free on the grid. *)
Lemma scanRow_verdict (grid : Grid) (offsetX offsetY shapeY : Z) :
  forall (cells : list (option Z)) (shapeX : Z) (b : bool),
  scanRow grid cells offsetX offsetY shapeX shapeY = Ret b ->
  (b = true <->
   forall (k : nat) (c : option Z), cells !! k = Some c -> occupied c = true ->
     cellFree grid (offsetX + (shapeX + Z.of_nat k)) (offsetY + shapeY) = true).
Proof.
  induction cells as [|c rest IH]; intros shapeX b Hscan.
  - injection Hscan as <-. split; [|reflexivity].
    intros _ k c Hk. rewrite lookup_nil in Hk. discriminate.
  - cbn [scanRow] in Hscan.
    assert (Hshift : forall P : nat -> option Z -> Prop,
      (forall k c', rest !! k = Some c' -> P (S k) c') ->
      P 0%nat c -> forall k c', (c :: rest) !! k = Some c' -> P k c').
    { intros P Hrest H0 [|k] c' Hk; simpl in Hk; [congruence|]. auto. }
    assert (Hstep : forall b',
      (b' = true <->
       forall (k : nat) (c' : option Z), rest !! k = Some c' -> occupied c' = true ->
         cellFree grid (offsetX + (shapeX + 1 + Z.of_nat k)) (offsetY + shapeY) = true) ->
      (occupied c = true ->
         cellFree grid (offsetX + shapeX) (offsetY + shapeY) = true) ->
      (b' = true <->
       forall (k : nat) (c' : option Z), (c :: rest) !! k = Some c' -> occupied c' = true ->
         cellFree grid (offsetX + (shapeX + Z.of_nat k)) (offsetY + shapeY) = true)).
    { intros b' Hiff Hhead. rewrite Hiff. split.
      - intros H k c' Hk Hocc. revert k c' Hk Hocc.
        apply (Hshift (fun k c' => occupied c' = true -> _ = true)).
        + intros k c' Hk Hocc.
          replace (shapeX + Z.of_nat (S k)) with (shapeX + 1 + Z.of_nat k) by lia.
          eauto.
        + replace (shapeX + Z.of_nat 0) with shapeX by lia. exact Hhead.
      - intros H k c' Hk Hocc.
        replace (shapeX + 1 + Z.of_nat k) with (shapeX + Z.of_nat (S k)) by lia.
        apply (H (S k) c'); assumption. }
    destruct (is_zero c) eqn:Ez.
    + apply Hstep; [exact (IH _ _ Hscan)|].
      unfold occupied. rewrite Ez. discriminate.
    + destruct (checkCell grid (offsetX + shapeX) (offsetY + shapeY))
        as [ok|e] eqn:Hck; [|discriminate].
      apply checkCell_verdict in Hck. cbn [bind] in Hscan. destruct ok.
      * apply Hstep; [exact (IH _ _ Hscan)|auto].
      * injection Hscan as <-. split; [discriminate|].
        intros H. specialize (H 0%nat c eq_refl).
        replace (shapeX + Z.of_nat 0) with shapeX in H by lia.
        rewrite <- Hck in H. apply H. unfold occupied. rewrite Ez. reflexivity.
Qed.

Lemma scanRow_total (grid : Grid) (offsetX offsetY shapeY : Z) :
  is_board grid ->
  forall (cells : list (option Z)) (shapeX : Z),
  exists b, scanRow grid cells offsetX offsetY shapeX shapeY = Ret b.
Proof.
  intros Hb. induction cells as [|c rest IH]; intros shapeX; [cbn; eauto|].
  cbn [scanRow]. destruct (is_zero c); [apply IH|].
  destruct (checkCell_total grid (offsetX + shapeX) (offsetY + shapeY) Hb)
    as [[|] Hck]; rewrite Hck; cbn [bind]; [apply IH|eauto].
Qed.

(** The outer loop. *)
Lemma scanRows_verdict (grid : Grid) (offsetX offsetY : Z) :
  forall (rows : list (list (option Z))) (shapeY : Z) (b : bool),
  scanRows grid rows offsetX offsetY shapeY = Ret b ->
  (b = true <->
   forall (sx sy : nat), occupiedAt rows sx sy ->
     cellFree grid (offsetX + Z.of_nat sx) (offsetY + (shapeY + Z.of_nat sy)) = true).
Proof.
  induction rows as [|row rest IH]; intros shapeY b Hscan.
  - injection Hscan as <-. split; [|reflexivity].
    intros _ sx sy (r & c & Hr & _). rewrite lookup_nil in Hr. discriminate.
  - cbn [scanRows] in Hscan.
    destruct (scanRow grid row offsetX offsetY 0 shapeY) as [b1|e] eqn:H1;
      [|discriminate].
    pose proof (scanRow_verdict grid offsetX offsetY shapeY row 0 b1 H1) as Hiff1.
    cbn [bind] in Hscan. destruct b1.
    + rewrite (IH _ _ Hscan). split.
      * intros H sx [|sy] (r & c & Hr & Hc & Hocc); simpl in Hr.
        -- injection Hr as <-. replace (shapeY + Z.of_nat 0) with shapeY by lia.
           destruct Hiff1 as [Hall _]. specialize (Hall eq_refl sx c Hc Hocc).
           replace (0 + Z.of_nat sx) with (Z.of_nat sx) in Hall by lia. exact Hall.
        -- replace (shapeY + Z.of_nat (S sy)) with (shapeY + 1 + Z.of_nat sy) by lia.
           apply H. exists r, c. auto.
      * intros H sx sy (r & c & Hr & Hc & Hocc).
        replace (shapeY + 1 + Z.of_nat sy) with (shapeY + Z.of_nat (S sy)) by lia.
        apply H. exists r, c. auto.
    + injection Hscan as <-. split; [discriminate|].
      intros H. apply Hiff1. intros k c Hk Hocc.
      specialize (H k 0%nat). replace (shapeY + Z.of_nat 0) with shapeY in H by lia.
      replace (0 + Z.of_nat k) with (Z.of_nat k) by lia.
      apply H. exists row, c. auto.
Qed.

Lemma scanRows_total (grid : Grid) (offsetX offsetY : Z) :
  is_board grid ->
  forall (rows : list (list (option Z))) (shapeY : Z),
  exists b, scanRows grid rows offsetX offsetY shapeY = Ret b.
Proof.
  intros Hb. induction rows as [|row rest IH]; intros shapeY; [cbn; eauto|].
  cbn [scanRows].
  destruct (scanRow_total grid offsetX offsetY shapeY Hb row 0) as [[|] H1];
    rewrite H1; cbn [bind]; [apply IH|eauto].
Qed.

(** A verdict [false] comes from an occupied cell that is not free. *)
Lemma scanRow_culprit (grid : Grid) (offsetX offsetY shapeY : Z) :
  forall (cells : list (option Z)) (shapeX : Z),
  scanRow grid cells offsetX offsetY shapeX shapeY = Ret false ->
  exists (k : nat) (c : option Z),
    cells !! k = Some c /\ occupied c = true /\
    cellFree grid (offsetX + (shapeX + Z.of_nat k)) (offsetY + shapeY) = false.
Proof.
  induction cells as [|c rest IH]; intros shapeX Hscan; [discriminate|].
  cbn [scanRow] in Hscan.
  assert (Hnext : scanRow grid rest offsetX offsetY (shapeX + 1) shapeY = Ret false ->
    exists (k : nat) (c' : option Z),
      (c :: rest) !! k = Some c' /\ occupied c' = true /\
      cellFree grid (offsetX + (shapeX + Z.of_nat k)) (offsetY + shapeY) = false).
  { intros H. destruct (IH _ H) as (k & c' & Hk & Hocc & Hfree).
    exists (S k), c'. repeat split; auto.
    replace (shapeX + Z.of_nat (S k)) with (shapeX + 1 + Z.of_nat k) by lia.
    exact Hfree. }
  destruct (is_zero c) eqn:Ez; [auto|].
  destruct (checkCell grid (offsetX + shapeX) (offsetY + shapeY))
    as [ok|e] eqn:Hck; [|discriminate].
  apply checkCell_verdict in Hck. cbn [bind] in Hscan. destruct ok; [auto|].
  exists 0%nat, c. repeat split.
  - unfold occupied. rewrite Ez. reflexivity.
  - replace (shapeX + Z.of_nat 0) with shapeX by lia. auto.
Qed.

Lemma scanRows_culprit (grid : Grid) (offsetX offsetY : Z) :
  forall (rows : list (list (option Z))) (shapeY : Z),
  scanRows grid rows offsetX offsetY shapeY = Ret false ->
  exists (sx sy : nat), occupiedAt rows sx sy /\
    cellFree grid (offsetX + Z.of_nat sx) (offsetY + (shapeY + Z.of_nat sy)) = false.
Proof.
  induction rows as [|row rest IH]; intros shapeY Hscan; [discriminate|].
  cbn [scanRows] in Hscan.
  destruct (scanRow grid row offsetX offsetY 0 shapeY) as [[|]|e] eqn:H1;
    cbn [bind] in Hscan; [| |discriminate].
  - destruct (IH _ Hscan) as (sx & sy & (r & c & Hr & Hc & Hocc) & Hfree).
    exists sx, (S sy). split; [exists r, c; auto|].
    replace (shapeY + Z.of_nat (S sy)) with (shapeY + 1 + Z.of_nat sy) by lia.
    exact Hfree.
  - destruct (scanRow_culprit _ _ _ _ _ _ H1) as (k & c & Hk & Hocc & Hfree).
    exists k, 0%nat. split; [exists row, c; auto|].
    replace (shapeY + Z.of_nat 0) with shapeY by lia.
    replace (0 + Z.of_nat k) with (Z.of_nat k) in Hfree by lia. exact Hfree.
Qed.

Lemma isPositionValid_culprit (grid : Grid) (shape : BlockShape) (offsetX offsetY : Z) :
  isPositionValid grid shape offsetX offsetY = Ret false ->
  leavesBoard shape offsetX offsetY \/ overlaps grid shape offsetX offsetY.
Proof.
  intros Hret. destruct (scanRows_culprit _ _ _ _ _ Hret) as (sx & sy & Hocc & Hfree).
  replace (0 + Z.of_nat sy) with (Z.of_nat sy) in Hfree by lia.
  assert (Hdec : inBounds (offsetX + Z.of_nat sx) (offsetY + Z.of_nat sy) \/
                 ~ inBounds (offsetX + Z.of_nat sx) (offsetY + Z.of_nat sy)).
  { unfold inBounds, GRID_WIDTH, GRID_HEIGHT. lia. }
  destruct Hdec as [Hi|Ho]; [right|left]; exists sx, sy; split; auto.
  split; [exact Hi|].
  destruct (occupied (gridCell grid (offsetX + Z.of_nat sx) (offsetY + Z.of_nat sy)))
    eqn:Hg; [reflexivity|].
  exfalso. assert (Ht : cellFree grid (offsetX + Z.of_nat sx) (offsetY + Z.of_nat sy) = true).
  { apply cellFree_true. split; [exact Hi|]. intros [_ Hblk]. congruence. }
  congruence.
Qed.

(** On a board the check always returns a verdict. *)
Lemma isPositionValid_total (grid : Grid) (shape : BlockShape) (offsetX offsetY : Z) :
  is_board grid ->
  exists b, isPositionValid grid shape offsetX offsetY = Ret b.
Proof. intros Hb. apply scanRows_total. exact Hb. Qed.

(** On any grid a verdict, when there is one, is the right one. *)
Lemma isPositionValid_verdict (grid : Grid) (shape : BlockShape)
    (offsetX offsetY : Z) (b : bool) :
  isPositionValid grid shape offsetX offsetY = Ret b ->
  (b = true <->
   ~ leavesBoard shape offsetX offsetY /\ ~ overlaps grid shape offsetX offsetY).
Proof.
  unfold isPositionValid. intros Hret.
  rewrite (scanRows_verdict grid offsetX offsetY shape 0 b Hret). split.
  - intros Hall. split.
    + intros (sx & sy & Hocc & Hout). specialize (Hall sx sy Hocc).
      replace (0 + Z.of_nat sy) with (Z.of_nat sy) in Hall by lia.
      apply cellFree_true in Hall. tauto.
    + intros (sx & sy & Hocc & Hblk). specialize (Hall sx sy Hocc).
      replace (0 + Z.of_nat sy) with (Z.of_nat sy) in Hall by lia.
      apply cellFree_true in Hall. tauto.
  - intros [Hin Hov] sx sy Hocc.
    replace (0 + Z.of_nat sy) with (Z.of_nat sy) by lia.
    apply cellFree_true.
    assert (Hdec : inBounds (offsetX + Z.of_nat sx) (offsetY + Z.of_nat sy) \/
                   ~ inBounds (offsetX + Z.of_nat sx) (offsetY + Z.of_nat sy)).
    { unfold inBounds, GRID_WIDTH, GRID_HEIGHT. lia. }
    destruct Hdec as [Hi|Ho].
    + split; [exact Hi|]. intros Hblk. apply Hov. exists sx, sy. auto.
    + exfalso. apply Hin. exists sx, sy. auto.
Qed.

(** C1.  On every grid, a verdict of [isPositionValid] is the right one:
    [true] only if no occupied cell of the shape leaves the board or lands
    on a cell that is not 0, [false] only if some occupied cell does.  On the 10x20 board
    the call always returns: [false] when an occupied cell of the shape
    lands on a column outside [0, 10) or a row outside [0, 20), [false] when
    an occupied cell lands on a board cell whose value is not 0, and [true]
    otherwise.  The function only reads its arguments: it is a function of
    them. *)
Theorem isPositionValid_spec (grid : Grid) (shape : BlockShape) (offsetX offsetY : Z) :
  (isPositionValid grid shape offsetX offsetY = Ret true ->
     ~ leavesBoard shape offsetX offsetY /\ ~ overlaps grid shape offsetX offsetY) /\
  (isPositionValid grid shape offsetX offsetY = Ret false ->
     leavesBoard shape offsetX offsetY \/ overlaps grid shape offsetX offsetY) /\
  (is_board grid ->
     (leavesBoard shape offsetX offsetY ->
        isPositionValid grid shape offsetX offsetY = Ret false) /\
     (overlaps grid shape offsetX offsetY ->
        isPositionValid grid shape offsetX offsetY = Ret false) /\
     (~ leavesBoard shape offsetX offsetY -> ~ overlaps grid shape offsetX offsetY ->
        isPositionValid grid shape offsetX offsetY = Ret true)).
Proof.
  split; [|split].
  - intros Hret. apply (isPositionValid_verdict _ _ _ _ _ Hret). reflexivity.
  - apply isPositionValid_culprit.
  - intros Hb.
    destruct (isPositionValid_total grid shape offsetX offsetY Hb) as [b Hret].
    pose proof (isPositionValid_verdict _ _ _ _ _ Hret) as Hiff.
    rewrite Hret. destruct b.
    + destruct Hiff as [Hall _]. specialize (Hall eq_refl).
      repeat split; tauto.
    + repeat split; try reflexivity.
      intros H1 H2. destruct Hiff as [_ Hall]. f_equal. apply Hall. tauto.
Qed.

(** ** The rotation module: kick search *)

(** The simple kick loop ends with the first offset of the list at which
    the rotated shape fits. *)
Lemma tryWallKicks_first (grid : Grid) (rot : BlockShape) (offsetX offsetY : Z)
    (pre : list Z) (kick : Z) (post : list Z) :
  Forall (fun p => isPositionValid grid rot (offsetX + p) offsetY = Ret false) pre ->
  isPositionValid grid rot (offsetX + kick) offsetY = Ret true ->
  tryWallKicks grid rot offsetX offsetY (pre ++ kick :: post) =
    Ret (Some {| rotated := rot; x := offsetX + kick; y := offsetY; valid := true |}).
Proof.
  intros Hpre Hkick. induction Hpre as [|p pre Hp _ IH].
  - cbn [app tryWallKicks]. rewrite Hkick. reflexivity.
  - cbn [app tryWallKicks]. rewrite Hp. cbn [bind]. exact IH.
Qed.

(** It ends without a result when the shape fits at none of them. *)
Lemma tryWallKicks_none (grid : Grid) (rot : BlockShape) (offsetX offsetY : Z)
    (offsets : list Z) :
  Forall (fun p => isPositionValid grid rot (offsetX + p) offsetY = Ret false) offsets ->
  tryWallKicks grid rot offsetX offsetY offsets = Ret None.
Proof.
  induction 1 as [|p rest Hp _ IH]; [reflexivity|].
  cbn [tryWallKicks]. rewrite Hp. cbn [bind]. exact IH.
Qed.

(** On a board every check returns a verdict, so a list of offsets has a
    first one that fits, or none. *)
Lemma kicks_board (grid : Grid) (rot : BlockShape) (offsetX offsetY : Z) :
  is_board grid ->
  forall offsets : list Z,
  (exists pre kick post,
     offsets = pre ++ kick :: post /\
     Forall (fun p => isPositionValid grid rot (offsetX + p) offsetY = Ret false) pre /\
     isPositionValid grid rot (offsetX + kick) offsetY = Ret true)
  \/
  Forall (fun p => isPositionValid grid rot (offsetX + p) offsetY = Ret false) offsets.
Proof.
  intros Hb. induction offsets as [|k rest IH].
  - right. constructor.
  - destruct (isPositionValid_total grid rot (offsetX + k) offsetY Hb) as [[|] Hk].
    + left. exists [], k, rest. repeat split; auto.
    + destruct IH as [(pre & k' & post & -> & Hpre & Hk') | Hall].
      * left. exists (k :: pre), k', post. repeat split; auto.
      * right. constructor; assumption.
Qed.

(** C2.  [attemptRotation] tests the rotated shape at the unchanged offset
    first and returns it there when it fits; when it does not, the column
    kicks +1, -1, +2, -2 are tried in this order, row unchanged, and the
    rotated shape is returned at the first kick at which it fits, with
    [valid = true]; when it fits at none, the original shape is returned at
    the unchanged offsets with [valid = false].  On the 10x20 board one of
    the three cases applies.  Grid, shape and offsets are only read. *)
Theorem attemptRotation_spec (grid : Grid) (shape : BlockShape)
    (offsetX offsetY : Z) (direction : Direction) :
  let rot := rotateShape shape direction in
  let fits (kick : Z) := isPositionValid grid rot (offsetX + kick) offsetY in
  (isPositionValid grid rot offsetX offsetY = Ret true ->
   attemptRotation grid shape offsetX offsetY direction =
     Ret {| rotated := rot; x := offsetX; y := offsetY; valid := true |})
  /\
  (isPositionValid grid rot offsetX offsetY = Ret false ->
   forall pre kick post,
     [1; -1; 2; -2] = pre ++ kick :: post ->
     Forall (fun p => fits p = Ret false) pre ->
     fits kick = Ret true ->
     attemptRotation grid shape offsetX offsetY direction =
       Ret {| rotated := rot; x := offsetX + kick; y := offsetY; valid := true |})
  /\
  (isPositionValid grid rot offsetX offsetY = Ret false ->
   Forall (fun p => fits p = Ret false) [1; -1; 2; -2] ->
   attemptRotation grid shape offsetX offsetY direction =
     Ret {| rotated := shape; x := offsetX; y := offsetY; valid := false |})
  /\
  (is_board grid ->
   isPositionValid grid rot offsetX offsetY = Ret true \/
   (isPositionValid grid rot offsetX offsetY = Ret false /\
    exists pre kick post,
      [1; -1; 2; -2] = pre ++ kick :: post /\
      Forall (fun p => fits p = Ret false) pre /\ fits kick = Ret true) \/
   (isPositionValid grid rot offsetX offsetY = Ret false /\
    Forall (fun p => fits p = Ret false) [1; -1; 2; -2])).
Proof.
  intros rot fits. unfold attemptRotation. fold rot.
  split; [|split; [|split]].
  - intros H0. rewrite H0. reflexivity.
  - intros H0 pre kick post Heq Hpre Hkick. rewrite H0. cbn [bind].
    unfold wallKickOffsets. rewrite Heq.
    rewrite (tryWallKicks_first grid rot offsetX offsetY pre kick post Hpre Hkick).
    reflexivity.
  - intros H0 Hall. rewrite H0. cbn [bind].
    rewrite (tryWallKicks_none grid rot offsetX offsetY wallKickOffsets Hall).
    reflexivity.
  - intros Hb.
    destruct (isPositionValid_total grid rot offsetX offsetY Hb) as [[|] H0];
      [left; exact H0|right].
    destruct (kicks_board grid rot offsetX offsetY Hb [1; -1; 2; -2])
      as [Hfirst|Hall]; [left|right]; auto.
Qed.

(** The SRS kick loop ends without a result when every candidate is
    rejected. *)
Lemma tryKicksSRS_all_fail (grid : Grid) (rot : BlockShape)
    (offsetX offsetY newRot : Z) (offsets : list (Z * Z)) :
  Forall (fun k => isPositionValid grid rot (offsetX + fst k) (offsetY + snd k)
                   = Ret false) offsets ->
  tryKicksSRS grid rot offsetX offsetY newRot offsets = Ret None.
Proof.
  induction 1 as [|[kx ky] rest Hk _ IH]; [reflexivity|].
  cbn [tryKicksSRS]. simpl in Hk. rewrite Hk. cbn [bind]. exact IH.
Qed.

(** Both kick tables have an entry for each transition between two of the
    four rotation states: the fallback to [[0, 0]] is taken only with a
    rotation-state index outside 0..3. *)
Lemma kickData_entry (isIPiece : bool) (direction : Direction) (currentRotation : Z) :
  0 <= currentRotation < 4 ->
  is_Some (kickData isIPiece !! transitionKey direction currentRotation).
Proof.
  intros H.
  assert (Hc : currentRotation = 0 \/ currentRotation = 1 \/
               currentRotation = 2 \/ currentRotation = 3) by lia.
  destruct Hc as [-> | [-> | [-> | ->]]]; destruct isIPiece, direction;
    vm_compute; eauto.
Qed.

(** C8.  When every kick candidate of [attemptRotationSRS] is rejected, the
    call returns the original shape, the unchanged offsets, [valid = false]
    and the rotation-state index it was given.  When the kick table has no
    entry for the transition, the candidates are the single pair (0, 0): the
    outcome is decided by the one check of the rotated shape at the
    unchanged offsets. *)
Theorem attemptRotationSRS_failure (grid : Grid) (shape : BlockShape)
    (offsetX offsetY : Z) (direction : Direction) (currentRotation : Z)
    (isIPiece : bool) :
  let rot := rotateShape shape direction in
  (Forall (fun k => isPositionValid grid rot (offsetX + fst k) (offsetY + snd k)
                    = Ret false)
          (kickOffsets isIPiece direction currentRotation) ->
   attemptRotationSRS grid shape offsetX offsetY direction currentRotation isIPiece =
     Ret {| rotatedSRS := shape; xSRS := offsetX; ySRS := offsetY;
            validSRS := false; newRotation := currentRotation |})
  /\
  (kickData isIPiece !! transitionKey direction currentRotation = None ->
   kickOffsets isIPiece direction currentRotation = [(0, 0)] /\
   attemptRotationSRS grid shape offsetX offsetY direction currentRotation isIPiece =
     (let* ok := isPositionValid grid rot (offsetX + 0) (offsetY + 0) in
      Ret (if ok then
             {| rotatedSRS := rot; xSRS := offsetX + 0; ySRS := offsetY + 0;
                validSRS := true;
                newRotation := nextRotation direction currentRotation |}
           else
             {| rotatedSRS := shape; xSRS := offsetX; ySRS := offsetY;
                validSRS := false; newRotation := currentRotation |}))).
Proof.
  intros rot. split.
  - intros Hall. unfold attemptRotationSRS. fold rot.
    rewrite (tryKicksSRS_all_fail _ _ _ _ _ _ Hall). reflexivity.
  - intros Hnone.
    assert (Hk : kickOffsets isIPiece direction currentRotation = [(0, 0)]).
    { unfold kickOffsets. rewrite Hnone. reflexivity. }
    split; [exact Hk|].
    unfold attemptRotationSRS. fold rot. rewrite Hk. cbn [tryKicksSRS].
    destruct (isPositionValid grid rot (offsetX + 0) (offsetY + 0)) as [[|]|e];
      reflexivity.
Qed.

(** ** lockAndClear.ts: the two line-clearing procedures *)

(** One turn of the loop of [clearLines]. *)
Lemma clearLines_loop_unfold (row : Z) (grid : Grid) (clearedCount : Z) :
  clearLines_loop row grid clearedCount =
    if row >=? 0 then
      match js_get grid row with
      | None => Throw TypeError
      | Some r =>
          if rowComplete r then
            clearLines_loop (row + 1 - 1)
              (unshift emptyRow (splice1 grid (Z.to_nat row))) (clearedCount + 1)
          else clearLines_loop (row - 1) grid clearedCount
      end
    else Ret (clearedCount, grid).
Proof.
  destruct (row >=? 0) eqn:E1;
    [destruct (js_get grid row) as [r|] eqn:E2;
       [destruct (rowComplete r) eqn:E3|]|];
    rewrite clearLines_loop_equation_1;
    (destruct (inspect (row >=? 0)) as [[|] H1]; [|try congruence]);
    cbn [clearLines_loop_unfold_clause_1]; try reflexivity; try congruence;
    (destruct (inspect (js_get grid row)) as [[r'|] H2]; [|try congruence]);
    cbn [clearLines_loop_unfold_clause_1_clause_2]; try reflexivity; try congruence;
    assert (r' = r) by congruence; subst r';
    (destruct (inspect (rowComplete r)) as [[|] H3]; try congruence);
    cbn [clearLines_loop_unfold_clause_1_clause_2_clause_2]; reflexivity.
Qed.

Lemma js_get_nat {A} (a : list A) (i : nat) : js_get a (Z.of_nat i) = a !! i.
Proof.
  unfold js_get. destruct (Z.of_nat i <? 0) eqn:E.
  - apply Z.ltb_lt in E. lia.
  - rewrite Nat2Z.id. reflexivity.
Qed.

Lemma emptyRow_not_complete : rowComplete emptyRow = false.
Proof. reflexivity. Qed.

Lemma completeRows_app (g1 g2 : Grid) :
  completeRows (g1 ++ g2) = (completeRows g1 + completeRows g2)%nat.
Proof. unfold completeRows. rewrite List.filter_app, length_app. reflexivity. Qed.

Lemma keptRows_app (g1 g2 : Grid) : keptRows (g1 ++ g2) = keptRows g1 ++ keptRows g2.
Proof. apply List.filter_app. Qed.

Lemma splice1_middle (g1 g2 : Grid) (r : list cell) :
  splice1 (g1 ++ r :: g2) (length g1) = g1 ++ g2.
Proof.
  unfold splice1. rewrite take_app_length.
  replace (S (length g1)) with (length (g1 ++ [r])) by (rewrite length_app; simpl; lia).
  replace (g1 ++ r :: g2) with ((g1 ++ [r]) ++ g2) by (rewrite <- app_assoc; reflexivity).
  rewrite drop_app_length. reflexivity.
Qed.

(** The loop of [clearLines], entered at index [row] with the rows [above]
    up to that index still to visit and the rows [below] already settled:
    it returns, having removed the complete rows of [above]. *)
Lemma clearLines_loop_spec (n : nat) :
  forall (above below : Grid) (row clearedCount : Z),
  Z.of_nat (length above) = row + 1 ->
  (length above + completeRows above <= n)%nat ->
  clearLines_loop row (above ++ below) clearedCount =
    Ret (clearedCount + Z.of_nat (completeRows above),
         replicate (completeRows above) emptyRow ++ keptRows above ++ below).
Proof.
  induction n as [|n IH]; intros above below row c Hlen Hn.
  - destruct above; [|simpl in Hn; lia].
    rewrite clearLines_loop_unfold.
    replace (row >=? 0) with false by (symmetry; rewrite Z.geb_leb; apply Z.leb_gt; simpl in Hlen; lia).
    cbn. f_equal. f_equal. lia.
  - rewrite clearLines_loop_unfold.
    destruct above as [|r above' _] using rev_ind.
    + replace (row >=? 0) with false by (symmetry; rewrite Z.geb_leb; apply Z.leb_gt; simpl in Hlen; lia).
      cbn. f_equal. f_equal. lia.
    + rewrite length_app in Hlen, Hn. simpl in Hlen, Hn.
      test_true (row >=? 0).
      replace row with (Z.of_nat (length above')) by lia.
      rewrite js_get_nat, Nat2Z.id.
      rewrite <- app_assoc. cbn [app].
      rewrite list_lookup_middle by reflexivity.
      rewrite completeRows_app, keptRows_app in *.
      assert (Hc1 : completeRows [r] = if rowComplete r then 1%nat else 0%nat)
        by (unfold completeRows; simpl; destruct (rowComplete r); reflexivity).
      assert (Hk1 : keptRows [r] = if rowComplete r then [] else [r])
        by (unfold keptRows; simpl; destruct (rowComplete r); reflexivity).
      rewrite Hc1, Hk1 in *. clear Hc1 Hk1.
      destruct (rowComplete r) eqn:Hc.
      * rewrite splice1_middle. unfold unshift.
        change (emptyRow :: above' ++ below) with ((emptyRow :: above') ++ below).
        rewrite IH.
        -- unfold completeRows, keptRows. cbn [List.filter].
           rewrite emptyRow_not_complete. cbn [negb].
           fold (completeRows above') (keptRows above').
           f_equal. f_equal; [lia|].
           replace (completeRows above' + 1)%nat with (S (completeRows above')) by lia.
           rewrite replicate_S_end, app_nil_r, <- !app_assoc. reflexivity.
        -- simpl. lia.
        -- unfold completeRows. cbn [List.filter length].
           rewrite emptyRow_not_complete. fold (completeRows above'). simpl. lia.
      * rewrite IH.
        -- f_equal. f_equal; [lia|].
           rewrite Nat.add_0_r, <- !app_assoc. reflexivity.
        -- lia.
        -- lia.
Qed.

Lemma clearLines_spec (grid : Grid) :
  length grid = Z.to_nat GRID_HEIGHT ->
  clearLines grid = Ret (Z.of_nat (completeRows grid), clearedGrid grid).
Proof.
  intros Hlen. unfold clearLines, clearedGrid.
  rewrite <- (app_nil_r grid) at 1.
  rewrite (clearLines_loop_spec (length grid + completeRows grid));
    [|rewrite Hlen; reflexivity|lia].
  rewrite app_nil_r. reflexivity.
Qed.

Lemma length_completedFrom (rows : Grid) (start : nat) :
  length (completedFrom start rows) = completeRows rows.
Proof.
  revert start. induction rows as [|r rest IH]; intros start; [reflexivity|].
  unfold completeRows in *. cbn [completedFrom List.filter].
  destruct (rowComplete r); cbn [length]; rewrite IH; reflexivity.
Qed.

Lemma keptRows_no_complete (grid : Grid) :
  completeRows grid = 0%nat -> keptRows grid = grid.
Proof.
  unfold completeRows, keptRows. induction grid as [|r rest IH]; [reflexivity|].
  cbn [List.filter]. destruct (rowComplete r); cbn [negb length]; [discriminate|].
  intros H. rewrite IH by exact H. reflexivity.
Qed.

(** [completedRows.includes(row)] recognises the complete rows. *)
Lemma includes_completedFrom (rows : Grid) :
  forall (start i : nat),
  includes (completedFrom start rows) (Z.of_nat i) = true <->
  exists r, (start <= i)%nat /\ rows !! (i - start)%nat = Some r /\
            rowComplete r = true.
Proof.
  induction rows as [|r rest IH]; intros start i.
  - cbn. split; [discriminate|]. intros (r & _ & H & _).
    rewrite lookup_nil in H. discriminate.
  - assert (Hrest : includes (completedFrom (S start) rest) (Z.of_nat i) = true <->
      exists r', (start < i)%nat /\ (r :: rest) !! (i - start)%nat = Some r' /\
                 rowComplete r' = true).
    { rewrite IH. split.
      - intros (r' & Hle & Hl & Hc). exists r'. split; [lia|]. split; [|exact Hc].
        replace (i - start)%nat with (S (i - S start)) by lia. exact Hl.
      - intros (r' & Hlt & Hl & Hc). exists r'. split; [lia|]. split; [|exact Hc].
        replace (i - start)%nat with (S (i - S start)) in Hl by lia. exact Hl. }
    cbn [completedFrom]. destruct (rowComplete r) eqn:Hc.
    + unfold includes in *. cbn [existsb]. rewrite orb_true_iff, Hrest, Z.eqb_eq.
      split.
      * intros [Heq | (r' & Hlt & Hl & Hc')].
        -- apply Nat2Z.inj in Heq. subst i. exists r.
           rewrite Nat.sub_diag. auto.
        -- exists r'. split; [lia|]. auto.
      * intros (r' & Hle & Hl & Hc').
        destruct (decide (i = start)) as [->|Hne]; [left; reflexivity|].
        right. exists r'. split; [lia|]. auto.
    + rewrite Hrest. split.
      * intros (r' & Hlt & Hl & Hc'). exists r'. split; [lia|]. auto.
      * intros (r' & Hle & Hl & Hc').
        destruct (decide (i = start)) as [->|Hne].
        -- rewrite Nat.sub_diag in Hl. simpl in Hl. congruence.
        -- exists r'. split; [lia|]. auto.
Qed.

(** First loop of [clearLinesOptimized], run over the indices
    [start, start + n). *)
Lemma detect_loop (grid : Grid) (n : nat) :
  forall (start : nat) (acc : list Z),
  (start + n <= length grid)%nat ->
  forEachM (map Z.of_nat (seq start n))
    (fun row completedRows =>
       match js_get grid row with
       | None => Throw TypeError
       | Some r =>
           Ret (if rowComplete r then completedRows ++ [row] else completedRows)
       end) acc
  = Ret (acc ++ completedFrom start (take n (drop start grid))).
Proof.
  induction n as [|n IH]; intros start acc Hlen.
  - cbn. rewrite app_nil_r. reflexivity.
  - cbn [seq map forEachM]. rewrite js_get_nat.
    destruct (lookup_lt_is_Some_2 grid start) as [r Hr]; [lia|].
    rewrite Hr. cbn [bind]. rewrite IH by lia.
    rewrite (drop_S _ _ _ Hr). cbn [take completedFrom].
    destruct (rowComplete r); [rewrite <- app_assoc|]; reflexivity.
Qed.

(** Second loop of [clearLinesOptimized], run over the indices
    [start, start + n). *)
Lemma extract_loop (grid : Grid) (n : nat) :
  forall (start : nat) (acc : list (list cell)),
  (start + n <= length grid)%nat ->
  forEachM (map Z.of_nat (seq start n))
    (fun row remainingRows =>
       if includes (completedFrom 0 grid) row then Ret remainingRows
       else match js_get grid row with
            | None => Throw TypeError
            | Some r => Ret (remainingRows ++ [r])
            end) acc
  = Ret (acc ++ keptRows (take n (drop start grid))).
Proof.
  induction n as [|n IH]; intros start acc Hlen.
  - cbn. rewrite app_nil_r. reflexivity.
  - cbn [seq map forEachM]. rewrite js_get_nat.
    destruct (lookup_lt_is_Some_2 grid start) as [r Hr]; [lia|].
    rewrite Hr, (drop_S _ _ _ Hr). cbn [take]. unfold keptRows. cbn [List.filter].
    fold (keptRows (take n (drop (S start) grid))).
    pose proof (includes_completedFrom grid 0 start) as Hinc.
    rewrite Nat.sub_0_r in Hinc.
    destruct (includes (completedFrom 0 grid) (Z.of_nat start)) eqn:Ei.
    + destruct Hinc as [Hinc _]. destruct (Hinc eq_refl) as (r' & _ & Hr' & Hc).
      assert (r' = r) by congruence. subst r'. rewrite Hc. cbn [negb bind].
      apply IH. lia.
    + destruct (rowComplete r) eqn:Hc.
      * destruct Hinc as [_ Hinc].
        assert (Habs : false = true) by (apply Hinc; exists r; split; [lia|]; auto).
        discriminate Habs.
      * cbn [negb bind]. rewrite IH by lia. rewrite <- app_assoc. reflexivity.
Qed.

Lemma clearLinesOptimized_spec (grid : Grid) :
  length grid = Z.to_nat GRID_HEIGHT ->
  clearLinesOptimized grid = Ret (Z.of_nat (completeRows grid), clearedGrid grid).
Proof.
  intros Hlen. unfold clearLinesOptimized, detectCompleted, extractRemaining, rowIndices.
  rewrite detect_loop by (rewrite Hlen; reflexivity).
  rewrite drop_0, <- Hlen, firstn_all. cbn [app bind].
  rewrite length_completedFrom. unfold clearedGrid.
  destruct (completeRows grid =? 0)%nat eqn:E.
  - apply Nat.eqb_eq in E. rewrite E, (keptRows_no_complete _ E). reflexivity.
  - rewrite extract_loop by lia.
    rewrite drop_0, firstn_all. reflexivity.
Qed.

(** C3.  On the 10x20 board the bottom-up [clearLines] and the one-pass
    [clearLinesOptimized] agree: both return the number of complete rows of
    the grid they were given, and both leave the grid with those rows
    removed, the other rows in their original order, and that many all-zero
    rows on top. *)
Theorem clearLines_equivalent (grid : Grid) :
  is_board grid ->
  clearLines grid = Ret (Z.of_nat (completeRows grid), clearedGrid grid) /\
  clearLinesOptimized grid = Ret (Z.of_nat (completeRows grid), clearedGrid grid) /\
  clearLines grid = clearLinesOptimized grid.
Proof.
  intros [Hlen _].
  rewrite (clearLines_spec grid Hlen), (clearLinesOptimized_spec grid Hlen).
  repeat split.
Qed.

(** ** lockAndClear.ts: the merge step *)

Lemma js_get_cons {A} (a : A) (rest : list A) (i : Z) :
  js_get (a :: rest) i = if i =? 0 then Some a else js_get rest (i - 1).
Proof.
  unfold js_get. destruct (i =? 0) eqn:E0.
  - apply Z.eqb_eq in E0. subst. reflexivity.
  - apply Z.eqb_neq in E0. destruct (i <? 0) eqn:E1.
    + apply Z.ltb_lt in E1.
      test_true (i - 1 <? 0). reflexivity.
    + apply Z.ltb_ge in E1.
      test_false (i - 1 <? 0).
      replace (Z.to_nat i) with (S (Z.to_nat (i - 1))) by lia. reflexivity.
Qed.

Lemma js_get_negative {A} (a : list A) (i : Z) : i < 0 -> js_get a i = None.
Proof.
  intros H. unfold js_get.
  test_true (i <? 0). reflexivity.
Qed.

(** An assignment inside the board changes the addressed cell and nothing
    else, and keeps the dimensions. *)
Lemma writeCell_board (grid : Grid) (gx gy : Z) (v : cell) :
  is_board grid -> inBounds gx gy ->
  exists grid', writeCell grid gx gy v = Ret grid' /\ is_board grid' /\
    forall x y, inBounds x y ->
      gridCell grid' x y = if (x =? gx) && (y =? gy) then v else gridCell grid x y.
Proof.
  intros Hb [Hx Hy]. destruct (board_row grid gy Hb Hy) as [row [Hrow Hlen]].
  unfold writeCell. rewrite Hrow. eexists. split; [reflexivity|].
  assert (Hset : js_set row (Z.to_nat gx) v = <[Z.to_nat gx := v]> row).
  { unfold js_set. replace (Z.to_nat gx <? length row)%nat with true; [reflexivity|].
    symmetry. apply Nat.ltb_lt. rewrite Hlen. unfold GRID_WIDTH in *. lia. }
  rewrite Hset. destruct Hb as [Hl Hrows]. split.
  - split; [rewrite length_insert; exact Hl|].
    apply Forall_insert; [exact Hrows|]. rewrite length_insert. exact Hlen.
  - intros x y [Hx' Hy']. unfold gridCell, js_get in *.
    replace (gy <? 0) with false in Hrow by (symmetry; apply Z.ltb_ge; lia).
    test_false (y <? 0).
    destruct (y =? gy) eqn:Ey.
    + apply Z.eqb_eq in Ey. subst y.
      rewrite list_lookup_insert_eq by (apply lookup_lt_is_Some_1; eauto).
      rewrite Hrow. unfold js_cell, js_get.
      test_false (x <? 0).
      destruct (x =? gx) eqn:Ex; cbn [andb].
      * apply Z.eqb_eq in Ex. subst x.
        rewrite list_lookup_insert_eq; [reflexivity|].
        rewrite Hlen. unfold GRID_WIDTH in *. lia.
      * apply Z.eqb_neq in Ex. rewrite list_lookup_insert_ne by lia. reflexivity.
    + apply Z.eqb_neq in Ey. rewrite andb_false_r.
      rewrite list_lookup_insert_ne by lia. reflexivity.
Qed.

(** The inner merge loop on a board: it returns a board in which the cells
    of row [offsetY + shapeY] under an occupied cell of the shape hold that
    cell, and every other cell is as before. *)
Lemma mergeRow_board (offsetX offsetY shapeY : Z) (cells : list cell) :
  forall (grid : Grid) (shapeX : Z),
  is_board grid ->
  exists merged,
    mergeRow grid cells offsetX offsetY shapeX shapeY = Ret merged /\
    is_board merged /\
    forall gx gy, inBounds gx gy ->
      gridCell merged gx gy =
        if gy =? offsetY + shapeY then
          match pieceRowCell cells (gx - offsetX - shapeX) with
          | Some c => c
          | None => gridCell grid gx gy
          end
        else gridCell grid gx gy.
Proof.
  induction cells as [|c rest IH]; intros grid shapeX Hb.
  - exists grid. repeat split; try apply Hb. intros gx gy _.
    unfold pieceRowCell, js_get. rewrite lookup_nil.
    destruct (gy =? offsetY + shapeY), (gx - offsetX - shapeX <? 0); reflexivity.
  - cbn [mergeRow].
    assert (Hskip : forall gx, pieceRowCell (c :: rest) (gx - offsetX - shapeX) =
      if gx =? offsetX + shapeX then (if occupied c then Some c else None)
      else pieceRowCell rest (gx - offsetX - (shapeX + 1))).
    { intros gx. unfold pieceRowCell. rewrite js_get_cons.
      destruct (gx =? offsetX + shapeX) eqn:E.
      - apply Z.eqb_eq in E. subst gx.
        test_true (offsetX + shapeX - offsetX - shapeX =? 0). reflexivity.
      - apply Z.eqb_neq in E.
        test_false (gx - offsetX - shapeX =? 0).
        replace (gx - offsetX - shapeX - 1) with (gx - offsetX - (shapeX + 1)) by lia.
        reflexivity. }
    assert (Hlast : pieceRowCell rest (offsetX + shapeX - offsetX - (shapeX + 1)) = None).
    { unfold pieceRowCell. rewrite js_get_negative by lia. reflexivity. }
    destruct (occupied c) eqn:Hocc.
    + destruct ((offsetY + shapeY >=? 0) && (offsetY + shapeY <? GRID_HEIGHT) &&
                (offsetX + shapeX >=? 0) && (offsetX + shapeX <? GRID_WIDTH)) eqn:Hin.
      * rewrite !andb_true_iff, !Z.geb_leb, !Z.leb_le, !Z.ltb_lt in Hin.
        assert (Hib : inBounds (offsetX + shapeX) (offsetY + shapeY))
          by (unfold inBounds; lia).
        destruct (writeCell_board grid _ _ c Hb Hib) as (grid' & Hw & Hb' & Hcell).
        rewrite Hw. cbn [bind].
        destruct (IH grid' (shapeX + 1) Hb') as (merged & Hm & Hbm & Hmc).
        exists merged. repeat split; try apply Hbm; [exact Hm|].
        intros gx gy Hg. rewrite (Hmc gx gy Hg), (Hcell gx gy Hg), Hskip.
        destruct (gy =? offsetY + shapeY) eqn:Ey;
          destruct (gx =? offsetX + shapeX) eqn:Ex; cbn [andb]; try reflexivity.
        apply Z.eqb_eq in Ex. subst gx. rewrite Hlast. reflexivity.
      * destruct (IH grid (shapeX + 1) Hb) as (merged & Hm & Hbm & Hmc).
        exists merged. repeat split; try apply Hbm; [exact Hm|].
        intros gx gy Hg. rewrite (Hmc gx gy Hg), Hskip.
        destruct (gy =? offsetY + shapeY) eqn:Ey; [|reflexivity].
        destruct (gx =? offsetX + shapeX) eqn:Ex; [|reflexivity].
        exfalso. apply Z.eqb_eq in Ex, Ey. subst gx gy.
        destruct Hg as [[? ?] [? ?]].
        rewrite !andb_false_iff, !Z.geb_leb, !Z.leb_gt, !Z.ltb_ge in Hin. lia.
    + destruct (IH grid (shapeX + 1) Hb) as (merged & Hm & Hbm & Hmc).
      exists merged. repeat split; try apply Hbm; [exact Hm|].
      intros gx gy Hg. rewrite (Hmc gx gy Hg), Hskip.
      destruct (gy =? offsetY + shapeY) eqn:Ey; [|reflexivity].
      destruct (gx =? offsetX + shapeX) eqn:Ex; [|reflexivity].
      apply Z.eqb_eq in Ex. subst gx. rewrite Hlast. reflexivity.
Qed.

(** The merge step on a board. *)
Lemma mergeRows_board (offsetX offsetY : Z) (rows : BlockShape) :
  forall (grid : Grid) (shapeY : Z),
  is_board grid ->
  exists merged,
    mergeRows grid rows offsetX offsetY shapeY = Ret merged /\
    is_board merged /\
    forall gx gy, inBounds gx gy ->
      gridCell merged gx gy =
        match pieceCell rows (gx - offsetX) (gy - offsetY - shapeY) with
        | Some c => c
        | None => gridCell grid gx gy
        end.
Proof.
  induction rows as [|row rest IH]; intros grid shapeY Hb.
  - exists grid. repeat split; try apply Hb. intros gx gy _.
    unfold pieceCell, js_get. rewrite lookup_nil.
    destruct (gy - offsetY - shapeY <? 0); reflexivity.
  - cbn [mergeRows].
    destruct (mergeRow_board offsetX offsetY shapeY row grid 0 Hb)
      as (grid' & Hw & Hb' & Hcell).
    rewrite Hw. cbn [bind].
    destruct (IH grid' (shapeY + 1) Hb') as (merged & Hm & Hbm & Hmc).
    exists merged. repeat split; try apply Hbm; [exact Hm|].
    intros gx gy Hg. rewrite (Hmc gx gy Hg), (Hcell gx gy Hg).
    unfold pieceCell. rewrite js_get_cons.
    replace (gx - offsetX - 0) with (gx - offsetX) by lia.
    replace (gy - offsetY - shapeY - 1) with (gy - offsetY - (shapeY + 1)) by lia.
    destruct (gy =? offsetY + shapeY) eqn:Ey.
    + apply Z.eqb_eq in Ey. subst gy.
      test_true (offsetY + shapeY - offsetY - shapeY =? 0).
      rewrite js_get_negative by lia. reflexivity.
    + apply Z.eqb_neq in Ey.
      test_false (gy - offsetY - shapeY =? 0).
      reflexivity.
Qed.

Lemma mergeRow_noop (offsetX offsetY shapeY : Z) (cells : list cell) :
  forall (grid : Grid) (shapeX : Z),
  (forall (k : nat) (c : cell), cells !! k = Some c -> occupied c = true ->
     ~ inBounds (offsetX + (shapeX + Z.of_nat k)) (offsetY + shapeY)) ->
  mergeRow grid cells offsetX offsetY shapeX shapeY = Ret grid.
Proof.
  induction cells as [|c rest IH]; intros grid shapeX Hout; [reflexivity|].
  cbn [mergeRow].
  assert (Hrest : mergeRow grid rest offsetX offsetY (shapeX + 1) shapeY = Ret grid).
  { apply IH. intros k c' Hk Hocc.
    replace (shapeX + 1 + Z.of_nat k) with (shapeX + Z.of_nat (S k)) by lia.
    apply (Hout (S k) c'); assumption. }
  destruct (occupied c) eqn:Hocc; [|exact Hrest].
  destruct ((offsetY + shapeY >=? 0) && (offsetY + shapeY <? GRID_HEIGHT) &&
            (offsetX + shapeX >=? 0) && (offsetX + shapeX <? GRID_WIDTH)) eqn:Hin;
    [|exact Hrest].
  exfalso. rewrite !andb_true_iff, !Z.geb_leb, !Z.leb_le, !Z.ltb_lt in Hin.
  apply (Hout 0%nat c eq_refl Hocc). unfold inBounds. lia.
Qed.

Lemma mergeRows_noop (offsetX offsetY : Z) (rows : BlockShape) :
  forall (grid : Grid) (shapeY : Z),
  (forall sx sy, occupiedAt rows sx sy ->
     ~ inBounds (offsetX + Z.of_nat sx) (offsetY + (shapeY + Z.of_nat sy))) ->
  mergeRows grid rows offsetX offsetY shapeY = Ret grid.
Proof.
  induction rows as [|row rest IH]; intros grid shapeY Hout; [reflexivity|].
  cbn [mergeRows]. rewrite mergeRow_noop.
  - cbn [bind]. apply IH. intros sx sy (r & c & Hr & Hc & Hocc).
    replace (shapeY + 1 + Z.of_nat sy) with (shapeY + Z.of_nat (S sy)) by lia.
    apply Hout. exists r, c. auto.
  - intros k c Hk Hocc.
    replace (0 + Z.of_nat k) with (Z.of_nat k) by lia.
    replace (offsetY + shapeY) with (offsetY + (shapeY + Z.of_nat 0)) by lia.
    apply Hout. exists row, c. auto.
Qed.

Lemma pieceCell_occupied (shape : BlockShape) (sx sy : nat) (row : list cell) (c : cell) :
  shape !! sy = Some row -> row !! sx = Some c -> occupied c = true ->
  pieceCell shape (Z.of_nat sx) (Z.of_nat sy) = Some c.
Proof.
  intros Hr Hc Hocc. unfold pieceCell, pieceRowCell.
  rewrite js_get_nat, Hr, js_get_nat, Hc, Hocc. reflexivity.
Qed.

Lemma pieceCell_inv (shape : BlockShape) (dx dy : Z) (c : cell) :
  pieceCell shape dx dy = Some c ->
  exists sx sy, dx = Z.of_nat sx /\ dy = Z.of_nat sy /\ occupiedAt shape sx sy.
Proof.
  unfold pieceCell, pieceRowCell, js_get. intros H.
  destruct (dy <? 0) eqn:Ey; [discriminate|].
  destruct (shape !! Z.to_nat dy) as [row|] eqn:Hr; [|discriminate].
  destruct (dx <? 0) eqn:Ex; [discriminate|].
  destruct (row !! Z.to_nat dx) as [c'|] eqn:Hc; [|discriminate].
  destruct (occupied c') eqn:Hocc; [|discriminate].
  apply Z.ltb_ge in Ex, Ey.
  exists (Z.to_nat dx), (Z.to_nat dy). repeat split; try lia.
  exists row, c'. auto.
Qed.

Lemma length_filter_split {A} (f : A -> bool) (l : list A) :
  (length (List.filter f l) + length (List.filter (fun a => negb (f a)) l))%nat
  = length l.
Proof.
  induction l as [|a l IH]; [reflexivity|].
  cbn [List.filter]. destruct (f a); cbn [negb length]; lia.
Qed.

(** A line clear keeps the dimensions of the board. *)
Lemma clearedGrid_board (grid : Grid) : is_board grid -> is_board (clearedGrid grid).
Proof.
  intros [Hlen Hrows]. unfold clearedGrid, keptRows, completeRows. split.
  - rewrite length_app, length_replicate, length_filter_split. exact Hlen.
  - apply Forall_app. split.
    + apply Forall_replicate. reflexivity.
    + rewrite Forall_forall in *. intros r Hr. apply Hrows.
      apply list_elem_of_In in Hr. apply List.filter_In in Hr.
      apply list_elem_of_In. tauto.
Qed.

(** A line clear leaves no complete row behind: between two locks the board
    of a game holds none. *)
Lemma clearedGrid_settled (grid : Grid) : completeRows (clearedGrid grid) = 0%nat.
Proof.
  unfold clearedGrid. rewrite completeRows_app.
  assert (H1 : forall k, completeRows (replicate k emptyRow) = 0%nat).
  { induction k as [|k IH]; [reflexivity|].
    unfold completeRows in *. cbn [replicate List.filter].
    rewrite emptyRow_not_complete. exact IH. }
  assert (H2 : completeRows (keptRows grid) = 0%nat).
  { unfold completeRows, keptRows. induction grid as [|r rest IH]; [reflexivity|].
    cbn [List.filter]. destruct (rowComplete r) eqn:Hc; cbn [negb]; [exact IH|].
    cbn [List.filter]. rewrite Hc. exact IH. }
  rewrite H1, H2. reflexivity.
Qed.

Lemma clearedGrid_no_complete (grid : Grid) :
  completeRows grid = 0%nat -> clearedGrid grid = grid.
Proof.
  intros H. unfold clearedGrid. rewrite H, (keptRows_no_complete _ H). reflexivity.
Qed.

(** C4, in the form that holds of the code.  On the 10x20 board [lockPiece]
    returns without error.  Its merge step writes each occupied cell of the
    shape whose absolute coordinates are inside the board, changes no other
    cell and keeps the dimensions (cells outside are dropped), and the call
    reports the line clear of the merged board.  With no occupied cell in
    range the merge changes nothing; if moreover the board had no complete
    row, nothing is cleared and [linesCleared = 0]. *)
Theorem lockPiece_spec (grid : Grid) (shape : BlockShape) (offsetX offsetY : Z) :
  is_board grid ->
  exists merged,
    mergeRows grid shape offsetX offsetY 0 = Ret merged /\
    is_board merged /\
    (forall (sx sy : nat) row c,
       shape !! sy = Some row -> row !! sx = Some c -> occupied c = true ->
       inBounds (offsetX + Z.of_nat sx) (offsetY + Z.of_nat sy) ->
       gridCell merged (offsetX + Z.of_nat sx) (offsetY + Z.of_nat sy) = c) /\
    (forall gx gy, inBounds gx gy ->
       (forall sx sy, occupiedAt shape sx sy ->
          ~ (gx = offsetX + Z.of_nat sx /\ gy = offsetY + Z.of_nat sy)) ->
       gridCell merged gx gy = gridCell grid gx gy) /\
    lockPiece grid shape offsetX offsetY =
      Ret ({| linesCleared := Z.of_nat (completeRows merged) |}, clearedGrid merged) /\
    (nothingInRange shape offsetX offsetY -> merged = grid) /\
    (nothingInRange shape offsetX offsetY -> completeRows grid = 0%nat ->
     lockPiece grid shape offsetX offsetY = Ret ({| linesCleared := 0 |}, grid)).
Proof.
  intros Hb.
  destruct (mergeRows_board offsetX offsetY shape grid 0 Hb) as (merged & Hm & Hbm & Hcell).
  assert (Hlock : lockPiece grid shape offsetX offsetY =
    Ret ({| linesCleared := Z.of_nat (completeRows merged) |}, clearedGrid merged)).
  { unfold lockPiece. rewrite Hm. cbn [bind].
    rewrite (clearLines_spec merged (proj1 Hbm)). reflexivity. }
  assert (Hnoop : nothingInRange shape offsetX offsetY -> merged = grid).
  { intros Hn. rewrite mergeRows_noop in Hm; [congruence|].
    intros sx sy Hocc. replace (0 + Z.of_nat sy) with (Z.of_nat sy) by lia.
    apply Hn. exact Hocc. }
  exists merged. repeat split; try apply Hbm; auto.
  - intros sx sy row c Hr Hc Hocc Hin. rewrite (Hcell _ _ Hin).
    replace (offsetX + Z.of_nat sx - offsetX) with (Z.of_nat sx) by lia.
    replace (offsetY + Z.of_nat sy - offsetY - 0) with (Z.of_nat sy) by lia.
    rewrite (pieceCell_occupied shape sx sy row c Hr Hc Hocc). reflexivity.
  - intros gx gy Hin Hfree. rewrite (Hcell _ _ Hin).
    destruct (pieceCell shape (gx - offsetX) (gy - offsetY - 0)) as [c|] eqn:Hp;
      [|reflexivity].
    exfalso. destruct (pieceCell_inv _ _ _ _ Hp) as (sx & sy & Hx & Hy & Hocc).
    apply (Hfree sx sy Hocc). lia.
  - intros Hn Hz. rewrite Hlock, (Hnoop Hn), Hz, (clearedGrid_no_complete _ Hz).
    reflexivity.
Qed.

(** C10.  [lockPiece], [clearLines] and [clearLinesOptimized] keep the
    dimensions of the board: called on a grid of exactly 20 rows of exactly
    10 cells, each returns and leaves a grid of exactly 20 rows of exactly 10
    cells. *)
Theorem board_dimensions_preserved (grid : Grid) :
  is_board grid ->
  (forall shape offsetX offsetY,
     exists res grid', lockPiece grid shape offsetX offsetY = Ret (res, grid') /\
                       is_board grid') /\
  (exists n grid', clearLines grid = Ret (n, grid') /\ is_board grid') /\
  (exists n grid', clearLinesOptimized grid = Ret (n, grid') /\ is_board grid').
Proof.
  intros Hb. repeat split.
  - intros shape offsetX offsetY.
    destruct (mergeRows_board offsetX offsetY shape grid 0 Hb) as (merged & Hm & Hbm & _).
    unfold lockPiece. rewrite Hm. cbn [bind].
    rewrite (clearLines_spec merged (proj1 Hbm)). cbn [bind fst snd].
    eexists _, _. split; [reflexivity|]. apply clearedGrid_board. exact Hbm.
  - rewrite (clearLines_spec grid (proj1 Hb)).
    eexists _, _. split; [reflexivity|]. apply clearedGrid_board. exact Hb.
  - rewrite (clearLinesOptimized_spec grid (proj1 Hb)).
    eexists _, _. split; [reflexivity|]. apply clearedGrid_board. exact Hb.
Qed.

(** ** The rotation module: rotateShape *)

Lemma shapeCell_lookup (m : BlockShape) (r c : nat) (row : list cell) (v : cell) :
  m !! r = Some row -> row !! c = Some v -> shapeCell m r c = v.
Proof.
  intros Hr Hc. unfold shapeCell. rewrite Hr.
  change (default None (row !! c) = v). rewrite Hc. reflexivity.
Qed.

Lemma dims_row (n : nat) (m : BlockShape) (r : nat) :
  dims n m -> (r < n)%nat -> exists row, m !! r = Some row /\ length row = n.
Proof.
  intros [Hl Hrows] Hr.
  destruct (lookup_lt_is_Some_2 m r) as [row Hrow]; [lia|].
  exists row. split; [exact Hrow|].
  rewrite Forall_lookup in Hrows. exact (Hrows _ _ Hrow).
Qed.

(** Two [n] by [n] matrices with the same cells are equal. *)
Lemma dims_ext (n : nat) (a b : BlockShape) :
  dims n a -> dims n b ->
  (forall r c, (r < n)%nat -> (c < n)%nat -> shapeCell a r c = shapeCell b r c) ->
  a = b.
Proof.
  intros Ha Hb Hcells. apply list_eq. intros r.
  destruct (decide (r < n)%nat) as [Hr|Hr].
  - destruct (dims_row n a r Ha Hr) as (ra & Hra & Hla).
    destruct (dims_row n b r Hb Hr) as (rb & Hrb & Hlb).
    rewrite Hra, Hrb. f_equal. apply list_eq. intros c.
    destruct (decide (c < n)%nat) as [Hc|Hc].
    + destruct (lookup_lt_is_Some_2 ra c) as [x Hx]; [lia|].
      destruct (lookup_lt_is_Some_2 rb c) as [y Hy]; [lia|].
      rewrite Hx, Hy. f_equal.
      rewrite <- (shapeCell_lookup a r c ra x Hra Hx).
      rewrite <- (shapeCell_lookup b r c rb y Hrb Hy).
      apply Hcells; assumption.
    + rewrite !lookup_ge_None_2 by lia. reflexivity.
  - destruct Ha as [Hla _], Hb as [Hlb _].
    rewrite !lookup_ge_None_2 by lia. reflexivity.
Qed.

(** An assignment inside an [n] by [n] matrix. *)
Lemma setCell_dims (n : nat) (rot : BlockShape) (r c : nat) (v : cell) :
  dims n rot -> (r < n)%nat -> (c < n)%nat ->
  dims n (setCell rot r c v) /\
  shapeCell (setCell rot r c v) r c = v /\
  forall r' c', ~ (r' = r /\ c' = c) ->
    shapeCell (setCell rot r c v) r' c' = shapeCell rot r' c'.
Proof.
  intros Hd Hr Hc. destruct (dims_row n rot r Hd Hr) as (row & Hrow & Hlen).
  assert (Hset : js_set row c v = <[c := v]> row).
  { unfold js_set. replace (c <? length row)%nat with true; [reflexivity|].
    symmetry. apply Nat.ltb_lt. lia. }
  destruct Hd as [Hl Hrows]. unfold setCell. repeat split.
  - rewrite length_alter. exact Hl.
  - apply Forall_alter; [exact Hrows|]. intros row' Hrow' _.
    assert (row' = row) by congruence. subst row'.
    rewrite Hset, length_insert. exact Hlen.
  - unfold shapeCell. rewrite list_lookup_alter_eq, Hrow. cbn.
    rewrite Hset, list_lookup_insert_eq by lia. reflexivity.
  - intros r' c' Hne. unfold shapeCell.
    destruct (decide (r' = r)) as [->|Hr'].
    + rewrite list_lookup_alter_eq, Hrow. cbn.
      rewrite Hset, list_lookup_insert_ne by (intros ->; apply Hne; auto).
      reflexivity.
    + rewrite list_lookup_alter_ne by congruence. reflexivity.
Qed.

Section RotateLoops.

Variable n : nat.
Variable shape : BlockShape.
Variable target : nat -> nat -> nat * nat.
Variable final : nat -> nat -> cell.

Hypothesis target_range : forall i j, (i < n)%nat -> (j < n)%nat ->
  (fst (target i j) < n)%nat /\ (snd (target i j) < n)%nat.
Hypothesis target_final : forall i j, (i < n)%nat -> (j < n)%nat ->
  final (fst (target i j)) (snd (target i j)) = shapeCell shape i j.

Lemma agrees_weaken (W W' : nat -> nat -> Prop) (rot : BlockShape) :
  (forall r c, W' r c -> W r c) -> agrees n final W rot -> agrees n final W' rot.
Proof. intros Hsub [Hd Hc]. split; [exact Hd|]. auto. Qed.

(** One assignment [rotated[..][..] = shape[i][j]]. *)
Lemma agrees_step (W : nat -> nat -> Prop) (rot : BlockShape) (i j : nat) :
  (i < n)%nat -> (j < n)%nat -> agrees n final W rot ->
  agrees n final (fun r c => W r c \/ target i j = (r, c))
    (setCell rot (fst (target i j)) (snd (target i j)) (shapeCell shape i j)).
Proof.
  intros Hi Hj [Hd Hc]. destruct (target_range i j Hi Hj) as [Hr Hcl].
  destruct (setCell_dims n rot _ _ (shapeCell shape i j) Hd Hr Hcl)
    as (Hd' & Hget & Hother).
  split; [exact Hd'|]. intros r c HW.
  destruct (decide (r = fst (target i j) /\ c = snd (target i j))) as [[-> ->]|Hne].
  - rewrite Hget. symmetry. apply target_final; assumption.
  - rewrite Hother by exact Hne. destruct HW as [HW|Heq]; [auto|].
    exfalso. apply Hne. rewrite Heq. auto.
Qed.

(** The inner loop over [j], for a fixed [i]. *)
Lemma agrees_inner (i : nat) (js : list nat) :
  (i < n)%nat -> Forall (fun j => (j < n)%nat) js ->
  forall (W : nat -> nat -> Prop) (rot : BlockShape),
  agrees n final W rot ->
  agrees n final (fun r c => W r c \/ exists j, j ∈ js /\ target i j = (r, c))
    (foldl (fun rot' j =>
              setCell rot' (fst (target i j)) (snd (target i j))
                (shapeCell shape i j)) rot js).
Proof.
  intros Hi Hjs. induction Hjs as [|j js Hj _ IH]; intros W rot Ha.
  - cbn. eapply agrees_weaken; [|exact Ha].
    intros r c [HW|(j & Hin & _)]; [exact HW|]. inversion Hin.
  - cbn [foldl]. eapply agrees_weaken; [|apply IH, (agrees_step W rot i j Hi Hj Ha)].
    intros r c [HW|(j' & Hin & Heq)]; [auto|].
    apply elem_of_cons in Hin. destruct Hin as [->|Hin]; [auto|].
    right. exists j'. auto.
Qed.

(** The two loops. *)
Lemma agrees_outer (rowsIdx : list nat) :
  Forall (fun i => (i < n)%nat) rowsIdx ->
  forall (W : nat -> nat -> Prop) (rot : BlockShape),
  agrees n final W rot ->
  agrees n final
    (fun r c => W r c \/ exists i j, i ∈ rowsIdx /\ j ∈ seq 0 n /\ target i j = (r, c))
    (foldl (fun rot i =>
              foldl (fun rot' j =>
                       setCell rot' (fst (target i j)) (snd (target i j))
                         (shapeCell shape i j)) rot (seq 0 n)) rot rowsIdx).
Proof.
  assert (Hseq : Forall (fun j => (j < n)%nat) (seq 0 n)).
  { apply Forall_forall. intros j Hj. apply elem_of_seq in Hj. lia. }
  intros His. induction His as [|i rowsIdx Hi _ IH]; intros W rot Ha.
  - cbn. eapply agrees_weaken; [|exact Ha].
    intros r c [HW|(i & j & Hin & _)]; [exact HW|]. inversion Hin.
  - cbn [foldl].
    eapply agrees_weaken; [|apply IH, (agrees_inner i (seq 0 n) Hi Hseq W rot Ha)].
    intros r c [HW|(i' & j & Hin & Hj & Heq)]; [auto|].
    apply elem_of_cons in Hin. destruct Hin as [->|Hin].
    + left. right. exists j. auto.
    + right. exists i', j. auto.
Qed.

(** After the loops the matrix is [n] by [n] and holds [shape[i][j]] at the
    target of every [(i, j)]. *)
Lemma rotateLoops_cells :
  dims n (rotateLoops n shape target (replicate n (replicate n (Some 0)))) /\
  forall i j, (i < n)%nat -> (j < n)%nat ->
    shapeCell (rotateLoops n shape target (replicate n (replicate n (Some 0))))
      (fst (target i j)) (snd (target i j)) = shapeCell shape i j.
Proof.
  assert (Hseq : Forall (fun j => (j < n)%nat) (seq 0 n)).
  { apply Forall_forall. intros j Hj. apply elem_of_seq in Hj. lia. }
  assert (H0 : agrees n final (fun _ _ => False) (replicate n (replicate n (Some 0)))).
  { split; [|tauto]. split; [apply length_replicate|].
    apply Forall_replicate, length_replicate. }
  destruct (agrees_outer (seq 0 n) Hseq _ _ H0) as [Hd Hc].
  split; [exact Hd|]. intros i j Hi Hj. unfold rotateLoops.
  rewrite Hc; [apply target_final; assumption|].
  right. exists i, j. repeat split; try (apply elem_of_seq; lia).
  destruct (target i j); reflexivity.
Qed.

End RotateLoops.

Lemma rotateShape_length (shape : BlockShape) (direction : Direction) :
  length (rotateShape shape direction) = length shape.
Proof.
  destruct direction; unfold rotateShape.
  - apply (rotateLoops_cells (length shape) shape _
             (fun r c => shapeCell shape (length shape - 1 - c) r)).
    + cbn. intros; lia.
    + cbn. intros i j Hi Hj. f_equal. lia.
  - apply (rotateLoops_cells (length shape) shape _
             (fun r c => shapeCell shape c (length shape - 1 - r))).
    + cbn. intros; lia.
    + cbn. intros i j Hi Hj. f_equal. lia.
Qed.

(** Clockwise: [rotated[j][n - 1 - i] = shape[i][j]]. *)
Lemma rotateShape_clockwise_cells (shape : BlockShape) :
  let n := length shape in
  dims n (rotateShape shape clockwise) /\
  forall i j, (i < n)%nat -> (j < n)%nat ->
    shapeCell (rotateShape shape clockwise) j (n - 1 - i) = shapeCell shape i j.
Proof.
  intros n. unfold rotateShape. fold n.
  apply (rotateLoops_cells n shape (fun i j => (j, n - 1 - i)%nat)
           (fun r c => shapeCell shape (n - 1 - c) r)).
  - cbn. intros; lia.
  - cbn. intros i j Hi Hj. f_equal. lia.
Qed.

(** Counter-clockwise: [rotated[n - 1 - j][i] = shape[i][j]]. *)
Lemma rotateShape_counterClockwise_cells (shape : BlockShape) :
  let n := length shape in
  dims n (rotateShape shape counterClockwise) /\
  forall i j, (i < n)%nat -> (j < n)%nat ->
    shapeCell (rotateShape shape counterClockwise) (n - 1 - j) i = shapeCell shape i j.
Proof.
  intros n. unfold rotateShape. fold n.
  apply (rotateLoops_cells n shape (fun i j => (n - 1 - j, i)%nat)
           (fun r c => shapeCell shape c (n - 1 - r))).
  - cbn. intros; lia.
  - cbn. intros i j Hi Hj. f_equal. lia.
Qed.

(** The same facts, read from the result. *)
Lemma rotateShape_clockwise_at (shape : BlockShape) (r c : nat) :
  (r < length shape)%nat -> (c < length shape)%nat ->
  shapeCell (rotateShape shape clockwise) r c =
    shapeCell shape (length shape - 1 - c) r.
Proof.
  intros Hr Hc.
  destruct (rotateShape_clockwise_cells shape) as [_ H].
  rewrite <- (H (length shape - 1 - c)%nat r) by lia. f_equal. lia.
Qed.

Lemma rotateShape_counterClockwise_at (shape : BlockShape) (r c : nat) :
  (r < length shape)%nat -> (c < length shape)%nat ->
  shapeCell (rotateShape shape counterClockwise) r c =
    shapeCell shape c (length shape - 1 - r).
Proof.
  intros Hr Hc.
  destruct (rotateShape_counterClockwise_cells shape) as [_ H].
  rewrite <- (H c (length shape - 1 - r)%nat) by lia. f_equal. lia.
Qed.

Lemma rotateShape_square (shape : BlockShape) (direction : Direction) :
  isSquare (rotateShape shape direction).
Proof.
  unfold isSquare. rewrite rotateShape_length. destruct direction.
  - apply rotateShape_clockwise_cells.
  - apply rotateShape_counterClockwise_cells.
Qed.

(** Counter-clockwise undoes clockwise, and conversely. *)
Lemma rotateShape_inverse (shape : BlockShape) :
  isSquare shape ->
  rotateShape (rotateShape shape clockwise) counterClockwise = shape /\
  rotateShape (rotateShape shape counterClockwise) clockwise = shape.
Proof.
  intros Hsq. split.
  - apply (dims_ext (length shape)); [| exact Hsq |].
    + pose proof (rotateShape_square (rotateShape shape clockwise) counterClockwise) as H.
      unfold isSquare in H. rewrite !rotateShape_length in H. exact H.
    + intros r c Hr Hc.
      rewrite rotateShape_counterClockwise_at by (rewrite rotateShape_length; lia).
      rewrite rotateShape_length.
      rewrite rotateShape_clockwise_at by lia. f_equal. lia.
  - apply (dims_ext (length shape)); [| exact Hsq |].
    + pose proof (rotateShape_square (rotateShape shape counterClockwise) clockwise) as H.
      unfold isSquare in H. rewrite !rotateShape_length in H. exact H.
    + intros r c Hr Hc.
      rewrite rotateShape_clockwise_at by (rewrite rotateShape_length; lia).
      rewrite rotateShape_length.
      rewrite rotateShape_counterClockwise_at by lia. f_equal. lia.
Qed.

(** Two quarter turns in the same direction are a half turn. *)
Lemma rotateShape_twice_at (shape : BlockShape) (direction : Direction) (r c : nat) :
  (r < length shape)%nat -> (c < length shape)%nat ->
  shapeCell (rotateShape (rotateShape shape direction) direction) r c =
    shapeCell shape (length shape - 1 - r) (length shape - 1 - c).
Proof.
  intros Hr Hc. destruct direction.
  - rewrite rotateShape_clockwise_at by (rewrite rotateShape_length; lia).
    rewrite rotateShape_length.
    rewrite rotateShape_clockwise_at by lia. reflexivity.
  - rewrite rotateShape_counterClockwise_at by (rewrite rotateShape_length; lia).
    rewrite rotateShape_length.
    rewrite rotateShape_counterClockwise_at by lia. reflexivity.
Qed.

Lemma rotateShape_four (shape : BlockShape) (direction : Direction) :
  isSquare shape ->
  Nat.iter 4 (fun s => rotateShape s direction) shape = shape.
Proof.
  intros Hsq. cbn [Nat.iter nat_rect].
  apply (dims_ext (length shape)); [| exact Hsq |].
  - pose proof (rotateShape_square
      (rotateShape (rotateShape (rotateShape shape direction) direction) direction)
      direction) as H.
    unfold isSquare in H. rewrite !rotateShape_length in H. exact H.
  - intros r c Hr Hc.
    rewrite rotateShape_twice_at by (rewrite !rotateShape_length; lia).
    rewrite !rotateShape_length.
    rewrite rotateShape_twice_at by lia. f_equal; lia.
Qed.

(** *** No cell is lost: the cells of the rotated shape are those of the
    shape, in another order. *)

Lemma tabulate_dims {A} (n : nat) (g : nat -> nat -> A) :
  length (tabulate n g) = n /\ Forall (fun row => length row = n) (tabulate n g).
Proof.
  unfold tabulate. split.
  - rewrite length_map, length_seq. reflexivity.
  - apply Forall_forall. intros row Hrow. apply list_elem_of_fmap in Hrow.
    destruct Hrow as (r & -> & _). rewrite length_map, length_seq. reflexivity.
Qed.

Lemma tabulate_lookup {A} (n : nat) (g : nat -> nat -> A) (r c : nat) :
  (r < n)%nat -> (c < n)%nat ->
  exists row, tabulate n g !! r = Some row /\ row !! c = Some (g r c).
Proof.
  intros Hr Hc. unfold tabulate. eexists. split.
  - rewrite list_lookup_fmap, lookup_seq_lt by lia. reflexivity.
  - cbn. rewrite list_lookup_fmap, lookup_seq_lt by lia. reflexivity.
Qed.

Lemma tabulate_shapeCell (m : BlockShape) :
  isSquare m -> m = tabulate (length m) (shapeCell m).
Proof.
  intros Hsq. apply (dims_ext (length m)); [exact Hsq | apply tabulate_dims |].
  intros r c Hr Hc.
  destruct (tabulate_lookup (length m) (shapeCell m) r c Hr Hc) as (row & Hrow & Hcell).
  symmetry. exact (shapeCell_lookup _ _ _ _ _ Hrow Hcell).
Qed.

Lemma concat_tabulate {A} (n : nat) (g : nat -> nat -> A) :
  concat (tabulate n g) = map (fun p => g (fst p) (snd p)) (positions n).
Proof.
  unfold positions, tabulate. rewrite concat_map, !map_map. f_equal.
  apply map_ext. intros r. rewrite map_map. reflexivity.
Qed.

Lemma elem_of_positions (n : nat) (p : nat * nat) :
  p ∈ positions n <-> (fst p < n)%nat /\ (snd p < n)%nat.
Proof.
  unfold positions, tabulate. rewrite list_elem_of_In, in_concat. split.
  - intros (row & Hrow & Hp). apply in_map_iff in Hrow.
    destruct Hrow as (r & <- & Hr). apply in_map_iff in Hp.
    destruct Hp as (c & <- & Hc). apply in_seq in Hr, Hc. cbn. lia.
  - intros [Hr Hc]. exists (map (fun c => (fst p, c)) (seq 0 n)). split.
    + apply in_map_iff. exists (fst p). split; [reflexivity|]. apply in_seq. lia.
    + apply in_map_iff. exists (snd p). split; [destruct p; reflexivity|].
      apply in_seq. lia.
Qed.

Lemma NoDup_pairs (rs cs : list nat) :
  NoDup rs -> NoDup cs ->
  NoDup (concat (map (fun r => map (fun c => (r, c)) cs) rs)).
Proof.
  intros Hrs Hcs. induction Hrs as [|r rs Hr Hrs IH]; [constructor|].
  cbn [map concat]. apply NoDup_app. repeat split.
  - apply NoDup_fmap_2_strong; [|exact Hcs]. intros x y _ _ H. congruence.
  - intros p Hp Hq. apply list_elem_of_fmap in Hp. destruct Hp as (c & -> & _).
    apply list_elem_of_In, in_concat in Hq. destruct Hq as (row & Hrow & Hin).
    apply in_map_iff in Hrow. destruct Hrow as (r' & <- & Hr').
    apply in_map_iff in Hin. destruct Hin as (c' & Heq & _).
    injection Heq as -> _. apply Hr. apply list_elem_of_In. exact Hr'.
  - exact IH.
Qed.

Lemma NoDup_positions (n : nat) : NoDup (positions n).
Proof. apply NoDup_pairs; apply NoDup_seq. Qed.

(** A bijection of the positions permutes them. *)
Lemma positions_permuted (n : nat) (f g : nat * nat -> nat * nat) :
  (forall p, p ∈ positions n -> f p ∈ positions n) ->
  (forall p, p ∈ positions n -> g p ∈ positions n) ->
  (forall p, p ∈ positions n -> g (f p) = p) ->
  (forall p, p ∈ positions n -> f (g p) = p) ->
  map f (positions n) ≡ₚ positions n.
Proof.
  intros Hf Hg Hgf Hfg. apply NoDup_Permutation.
  - apply NoDup_fmap_2_strong; [|apply NoDup_positions].
    intros p q Hp Hq Heq. rewrite <- (Hgf p Hp), <- (Hgf q Hq), Heq. reflexivity.
  - apply NoDup_positions.
  - intros q. split.
    + intros Hq. apply list_elem_of_fmap in Hq. destruct Hq as (p & -> & Hp). auto.
    + intros Hq. apply list_elem_of_fmap. exists (g q). split; [symmetry|]; auto.
Qed.

Lemma rotateShape_cells_permuted (shape : BlockShape) (direction : Direction) :
  isSquare shape ->
  concat (rotateShape shape direction) ≡ₚ concat shape.
Proof.
  intros Hsq. set (n := length shape).
  rewrite (tabulate_shapeCell shape Hsq) at 2.
  rewrite (tabulate_shapeCell _ (rotateShape_square shape direction)).
  rewrite rotateShape_length. fold n. rewrite !concat_tabulate.
  destruct direction.
  - rewrite <- (positions_permuted n
      (fun p => (n - 1 - snd p, fst p)%nat) (fun p => (snd p, n - 1 - fst p)%nat)) at 2.
    + rewrite map_map. apply Permutation_refl'. apply map_ext_in.
      intros p Hp. apply list_elem_of_In, elem_of_positions in Hp. cbn.
      apply rotateShape_clockwise_at; fold n; lia.
    + intros p Hp. apply elem_of_positions in Hp. apply elem_of_positions. cbn. lia.
    + intros p Hp. apply elem_of_positions in Hp. apply elem_of_positions. cbn. lia.
    + intros [r c] Hp. apply elem_of_positions in Hp. cbn in *. f_equal; lia.
    + intros [r c] Hp. apply elem_of_positions in Hp. cbn in *. f_equal; lia.
  - rewrite <- (positions_permuted n
      (fun p => (snd p, n - 1 - fst p)%nat) (fun p => (n - 1 - snd p, fst p)%nat)) at 2.
    + rewrite map_map. apply Permutation_refl'. apply map_ext_in.
      intros p Hp. apply list_elem_of_In, elem_of_positions in Hp. cbn.
      apply rotateShape_counterClockwise_at; fold n; lia.
    + intros p Hp. apply elem_of_positions in Hp. apply elem_of_positions. cbn. lia.
    + intros p Hp. apply elem_of_positions in Hp. apply elem_of_positions. cbn. lia.
    + intros [r c] Hp. apply elem_of_positions in Hp. cbn in *. f_equal; lia.
    + intros [r c] Hp. apply elem_of_positions in Hp. cbn in *. f_equal; lia.
Qed.

(** C7.  For a square shape of side [n]: four rotations in the same
    direction give the shape back; the clockwise rotation puts the cell at
    row [i], column [j] at the position of indices [j], [n - 1 - i] of the
    result (its row is the old column [j], its column comes from the old row
    as [n - 1 - i]); the counter-clockwise rotation puts it at row
    [n - 1 - j], column [i], and is the inverse of the clockwise one; the
    cells of the result are the cells of the shape in another order, so no
    occupied cell is lost.  [rotateTetromino] is the clockwise rotation. *)
Theorem rotateShape_spec (shape : BlockShape) :
  isSquare shape ->
  let n := length shape in
  Nat.iter 4 (fun s => rotateShape s clockwise) shape = shape /\
  Nat.iter 4 (fun s => rotateShape s counterClockwise) shape = shape /\
  (forall i j, (i < n)%nat -> (j < n)%nat ->
     shapeCell (rotateShape shape clockwise) j (n - 1 - i) = shapeCell shape i j) /\
  (forall i j, (i < n)%nat -> (j < n)%nat ->
     shapeCell (rotateShape shape counterClockwise) (n - 1 - j) i = shapeCell shape i j) /\
  rotateShape (rotateShape shape clockwise) counterClockwise = shape /\
  rotateShape (rotateShape shape counterClockwise) clockwise = shape /\
  (forall direction,
     isSquare (rotateShape shape direction) /\
     length (rotateShape shape direction) = n /\
     concat (rotateShape shape direction) ≡ₚ concat shape /\
     length (List.filter occupied (concat (rotateShape shape direction))) =
       length (List.filter occupied (concat shape))) /\
  rotateTetromino shape = rotateShape shape clockwise.
Proof.
  intros Hsq n.
  assert (Hperm : forall direction,
            concat (rotateShape shape direction) ≡ₚ concat shape)
    by (intros direction; apply rotateShape_cells_permuted; exact Hsq).
  split; [apply rotateShape_four; exact Hsq|].
  split; [apply rotateShape_four; exact Hsq|].
  split; [apply rotateShape_clockwise_cells|].
  split; [apply rotateShape_counterClockwise_cells|].
  split; [apply rotateShape_inverse; exact Hsq|].
  split; [apply rotateShape_inverse; exact Hsq|].
  split; [|reflexivity].
  intros direction.
  split; [apply rotateShape_square|].
  split; [apply rotateShape_length|].
  split; [apply Hperm|].
  apply Permutation_length. specialize (Hperm direction).
  induction Hperm as [|x l l' _ IH|x y l|l l' l'' _ IH1 _ IH2].
  - constructor.
  - cbn [List.filter]. destruct (occupied x); [constructor|]; exact IH.
  - cbn [List.filter]. destruct (occupied x), (occupied y);
      try reflexivity. constructor.
  - etransitivity; eassumption.
Qed.

(** ** scoreAndLevel.ts *)

Lemma clearLines_invariant (cfg : Score.ScoreConfig) (m : Score.ScoreManager) (count : Z) :
  scoreInvariant cfg m -> 0 <= count -> scoreInvariant cfg (Score.clearLines m count).
Proof.
  intros (Hcfg & Htot & Hlvl) Hc. unfold scoreInvariant, Score.clearLines. cbn.
  rewrite Hcfg. repeat split; lia.
Qed.

Lemma clearAll_invariant (cfg : Score.ScoreConfig) (counts : list Z) :
  forall m, scoreInvariant cfg m -> Forall (fun c => 0 <= c) counts ->
  scoreInvariant cfg (Score.clearAll m counts).
Proof.
  unfold Score.clearAll. induction counts as [|c counts IH]; intros m Hm Hall.
  - exact Hm.
  - cbn [foldl]. inversion Hall; subst. apply IH; [|assumption].
    apply clearLines_invariant; assumption.
Qed.

Lemma newScoreManager_invariant (cfg : Score.ScoreConfig) :
  scoreInvariant cfg (Score.newScoreManager cfg).
Proof.
  unfold scoreInvariant, Score.newScoreManager. cbn.
  rewrite Zdiv_0_l, Z.add_0_r. repeat split; lia.
Qed.

(** C6, in the form that holds of the code.  For a manager whose score
    table has no negative entry and whose [linesPerLevel] is positive, after
    any sequence of [clearLines] calls with non-negative counts a further
    such call does not decrease [score], [totalLinesCleared] or [level], and
    leaves [level = initialLevel + floor(totalLinesCleared / linesPerLevel)]. *)
Theorem clearLines_monotone (cfg : Score.ScoreConfig) (counts : list Z) (count : Z) :
  tableNonNegative cfg ->
  0 < Score.linesPerLevel cfg ->
  Forall (fun c => 0 <= c) counts ->
  0 <= count ->
  let m := Score.clearAll (Score.newScoreManager cfg) counts in
  let m' := Score.clearLines m count in
  Score.score m <= Score.score m' /\
  Score.totalLinesCleared m <= Score.totalLinesCleared m' /\
  Score.level m <= Score.level m' /\
  Score.level m' =
    Score.initialLevel cfg + Score.totalLinesCleared m' / Score.linesPerLevel cfg.
Proof.
  intros Htab Hlpl Hall Hc m m'.
  destruct (clearAll_invariant cfg counts _ (newScoreManager_invariant cfg) Hall)
    as (Hcfg & Htot & Hlvl).
  fold m in Hcfg, Htot, Hlvl. subst m'. unfold Score.clearLines. cbn.
  rewrite Hcfg, Hlvl. repeat split.
  - destruct (Score.scoreTable cfg !! count) as [points|] eqn:Hp; [|lia].
    specialize (Htab _ _ Hp). cbn in Htab. lia.
  - lia.
  - apply Z.add_le_mono_l, Z.div_le_mono; lia.
Qed.








(** Scores and levels are not monotone for a manager with a penalty in its
    score table, nor for one with a negative [linesPerLevel]. *)
Lemma clearLines_can_decrease :
  Score.score (Score.clearLines (Score.newScoreManager cfgPenalty) 1)
    < Score.score (Score.newScoreManager cfgPenalty) /\
  Score.level (Score.clearLines (Score.newScoreManager cfgBackwards) 1)
    < Score.level (Score.newScoreManager cfgBackwards).
Proof. split; vm_compute; reflexivity. Qed.

(** ** The piece catalog *)

Import Catalog.

(** Reading shapes only depends on the objects that are read. *)
Lemma readRows_stable (a b : store) (rows : list loc) (contents : list (list cell)) :
  (forall l o, a !! l = Some o -> b !! l = Some o) ->
  readRows a rows = Some contents -> readRows b rows = Some contents.
Proof.
  intros Hab. revert contents. induction rows as [|row rest IH]; intros contents; [auto|].
  cbn [readRows]. destruct (a !! row) as [[cells|?]|] eqn:Ha; try discriminate.
  rewrite (Hab _ _ Ha).
  destruct (readRows a rest) as [others|]; [|discriminate].
  rewrite (IH others eq_refl). auto.
Qed.

Lemma readShape_stable (a b : store) (shape : loc) (contents : BlockShape) :
  (forall l o, a !! l = Some o -> b !! l = Some o) ->
  readShape a shape = Some contents -> readShape b shape = Some contents.
Proof.
  intros Hab. unfold readShape.
  destruct (a !! shape) as [[?|rows]|] eqn:Ha; try discriminate.
  rewrite (Hab _ _ Ha). apply readRows_stable. exact Hab.
Qed.

Lemma readCatalog_stable (a b : store) (contents : list BlockShape) :
  (forall l o, a !! l = Some o -> b !! l = Some o) ->
  readCatalog a = Some contents -> readCatalog b = Some contents.
Proof.
  intros Hab. unfold readCatalog.
  destruct (a !! TETROMINOS) as [[?|pieces]|] eqn:Ha; try discriminate.
  rewrite (Hab _ _ Ha). clear Ha. revert contents.
  induction pieces as [|piece rest IH]; intros contents; [auto|].
  cbn [readShapes].
  destruct (readShape a piece) as [shape|] eqn:Hs; [|discriminate].
  rewrite (readShape_stable a b piece shape Hab Hs).
  destruct (readShapes a rest) as [others|]; [|discriminate].
  rewrite (IH others eq_refl). auto.
Qed.

(** The module as initialised holds the seven canonical shapes. *)
Lemma initStore_catalog :
  exists pieces,
    initStore !! TETROMINOS = Some (ArrRef pieces) /\
    length pieces = 7%nat /\
    forall (k : nat) (shape : BlockShape),
      canonicalShapes !! k = Some shape ->
      exists piece rows,
        pieces !! k = Some piece /\
        initStore !! piece = Some (ArrRef rows) /\
        readRows initStore rows = Some shape.
Proof.
  eexists. split; [vm_compute; reflexivity|]. split; [reflexivity|].
  intros k shape Hk.
  do 7 (destruct k as [|k];
        [cbn in Hk; injection Hk as <-; eexists _, _;
         repeat split; vm_compute; reflexivity|]).
  cbn in Hk. discriminate.
Qed.

Lemma catalogIntact_readCatalog (st : store) :
  catalogIntact st -> readCatalog st = Some canonicalShapes.
Proof.
  intros Hst. apply (readCatalog_stable initStore st _ Hst).
  vm_compute. reflexivity.
Qed.

Lemma catalogIntact_length (st : store) :
  catalogIntact st -> (length initStore <= length st)%nat.
Proof.
  intros Hst.
  destruct (decide (length initStore <= length st)%nat) as [H|H]; [exact H|].
  exfalso.
  destruct (lookup_lt_is_Some_2 initStore (length st)) as [o Ho]; [lia|].
  apply Hst in Ho. apply lookup_lt_Some in Ho. lia.
Qed.

(** The copy of the rows: fresh arrays with the same cells, appended to the
    store in order. *)
Lemma copyRows_spec (rows : list loc) :
  forall (st : store) (contents : list (list cell)),
  readRows st rows = Some contents ->
  copyRows rows st =
    Ret (seq (length st) (length rows), st ++ map ArrNum contents) /\
  length contents = length rows.
Proof.
  induction rows as [|row rest IH]; intros st contents Hread.
  - cbn in *. injection Hread as <-. rewrite app_nil_r. auto.
  - cbn [readRows copyRows] in *.
    destruct (st !! row) as [[cells|?]|] eqn:Hrow; try discriminate.
    destruct (readRows st rest) as [others|] eqn:Hrest; [|discriminate].
    injection Hread as <-. unfold alloc.
    destruct (IH (st ++ [ArrNum cells]) others) as [Hcopy Hlen].
    { apply (readRows_stable st); [|exact Hrest].
      intros l o Hl. apply lookup_app_l_Some. exact Hl. }
    rewrite Hcopy. cbn [bind fst snd length map seq].
    rewrite length_app, <- app_assoc. cbn [length app].
    replace (length st + 1)%nat with (S (length st)) by lia.
    split; [reflexivity|]. lia.
Qed.

(** The rows just appended to a store read back as they were written. *)
Lemma readRows_appended (contents : list (list cell)) :
  forall (st rest : store),
  readRows (st ++ map ArrNum contents ++ rest)
           (seq (length st) (length contents)) = Some contents.
Proof.
  induction contents as [|cells others IH]; intros st rest; [reflexivity|].
  cbn [map length seq readRows app].
  rewrite list_lookup_middle by reflexivity.
  specialize (IH (st ++ [ArrNum cells]) rest).
  rewrite length_app, <- app_assoc in IH. cbn [length app] in IH.
  replace (length st + 1)%nat with (S (length st)) in IH by lia.
  rewrite IH. reflexivity.
Qed.

(** C9.  In a store that holds the catalog as initialised,
    [getTetrominoByIndex] throws exactly when the index is outside 0..6, and
    what it throws is the invalid-index error carrying the index.  For an
    index in range it returns a fresh shape that reads as the canonical shape
    of that kind and leaves every existing object as it was; a later
    assignment to a cell of the returned shape leaves the catalog intact. *)
Theorem getTetrominoByIndex_spec (st : list obj) (index : Z) :
  catalogIntact st ->
  ((exists e, getTetrominoByIndex index st = Throw e) <-> (index < 0 \/ 7 <= index)) /\
  ((index < 0 \/ 7 <= index) ->
     getTetrominoByIndex index st = Throw (InvalidIndex index 6)) /\
  (0 <= index < 7 ->
     exists shape st' contents,
       getTetrominoByIndex index st = Ret (shape, st') /\
       js_get canonicalShapes index = Some contents /\
       readShape st' shape = Some contents /\
       st !! shape = None /\
       (forall rows row, st' !! shape = Some (ArrRef rows) -> row ∈ rows ->
          st !! row = None) /\
       (forall l o, st !! l = Some o -> st' !! l = Some o) /\
       catalogIntact st' /\
       forall r c v st'', writeShapeCell st' shape r c v = Ret st'' ->
         catalogIntact st'' /\ readCatalog st'' = Some canonicalShapes).
Proof.
  intros Hst.
  destruct initStore_catalog as (pieces & Hpieces & Hlen & Hshapes).
  pose proof (Hst _ _ Hpieces) as Htet.
  assert (Hout : (index < 0 \/ 7 <= index) ->
            getTetrominoByIndex index st = Throw (InvalidIndex index 6)).
  { intros Hrange. unfold getTetrominoByIndex. rewrite Htet, Hlen.
    replace ((index <? 0) || (index >=? Z.of_nat 7)) with true; [reflexivity|].
    symmetry. apply orb_true_iff. rewrite Z.ltb_lt, Z.geb_leb, Z.leb_le. lia. }
  assert (Hin : 0 <= index < 7 ->
     exists shape st' contents,
       getTetrominoByIndex index st = Ret (shape, st') /\
       js_get canonicalShapes index = Some contents /\
       readShape st' shape = Some contents /\
       st !! shape = None /\
       (forall rows row, st' !! shape = Some (ArrRef rows) -> row ∈ rows ->
          st !! row = None) /\
       (forall l o, st !! l = Some o -> st' !! l = Some o) /\
       catalogIntact st' /\
       forall r c v st'', writeShapeCell st' shape r c v = Ret st'' ->
         catalogIntact st'' /\ readCatalog st'' = Some canonicalShapes).
  { intros Hrange.
    destruct (lookup_lt_is_Some_2 canonicalShapes (Z.to_nat index)) as [contents Hc];
      [cbn; lia|].
    destruct (Hshapes _ _ Hc) as (piece & rows & Hpiece & Hrows & Hread).
    pose proof (readRows_stable initStore st rows contents Hst Hread) as Hread'.
    destruct (copyRows_spec rows st contents Hread') as [Hcopy Hlenc].
    set (locs := seq (length st) (length rows)).
    set (st2 := st ++ map ArrNum contents).
    assert (Hext : forall l o, st !! l = Some o ->
                     (st2 ++ [ArrRef locs]) !! l = Some o).
    { intros l o Hl. apply lookup_app_l_Some, lookup_app_l_Some. exact Hl. }
    exists (length st2), (st2 ++ [ArrRef locs]), contents.
    assert (Hshape : (st2 ++ [ArrRef locs]) !! length st2 = Some (ArrRef locs))
      by (apply list_lookup_middle; reflexivity).
    split; [|split; [|split; [|split; [|split; [|split; [|split]]]]]].
    - unfold getTetrominoByIndex. rewrite Htet, Hlen.
      replace ((index <? 0) || (index >=? Z.of_nat 7)) with false.
      + unfold js_get at 1.
        test_false (index <? 0).
        rewrite Hpiece, (Hst _ _ Hrows), Hcopy. reflexivity.
      + symmetry. apply orb_false_iff. rewrite Z.ltb_ge, Z.geb_leb, Z.leb_gt. lia.
    - unfold js_get. test_false (index <? 0).
      exact Hc.
    - unfold readShape. rewrite Hshape. unfold st2, locs.
      rewrite <- app_assoc, <- Hlenc. apply readRows_appended.
    - apply lookup_ge_None_2. unfold st2. rewrite length_app. lia.
    - intros rows' row Hrows' Hrow. rewrite Hshape in Hrows'.
      injection Hrows' as <-. unfold locs in Hrow. apply elem_of_seq in Hrow.
      apply lookup_ge_None_2. lia.
    - exact Hext.
    - intros l o Hl. apply Hext, Hst, Hl.
    - intros r c v st'' Hw. unfold writeShapeCell in Hw. rewrite Hshape in Hw.
      destruct (locs !! r) as [row|] eqn:Hrow; [|discriminate].
      destruct ((st2 ++ [ArrRef locs]) !! row) as [[cells|?]|]; try discriminate.
      injection Hw as <-.
      assert (Hfresh : (length st <= row)%nat).
      { unfold locs in Hrow. apply lookup_seq in Hrow. lia. }
      assert (Hint : catalogIntact (<[row := ArrNum (js_set cells c v)]> (st2 ++ [ArrRef locs]))).
      { intros l o Hl. pose proof (catalogIntact_length st Hst) as Hle.
        pose proof (lookup_lt_Some _ _ _ Hl) as Hlt.
        rewrite list_lookup_insert_ne by lia. apply Hext, Hst, Hl. }
      split; [exact Hint|]. apply catalogIntact_readCatalog. exact Hint. }
  split; [|split; [exact Hout|exact Hin]].
  split.
  - intros [e He].
    destruct (Z_lt_dec index 0) as [?|?]; [left; assumption|].
    destruct (Z_le_dec 7 index) as [?|?]; [right; assumption|].
    destruct Hin as (shape & st' & contents & Hret & _); [lia|]. congruence.
  - intros Hrange. eexists. apply Hout. exact Hrange.
Qed.

(** ** Instances *)

Lemma dotShape_cell (sx sy : nat) : occupiedAt dotShape sx sy -> sx = 0%nat /\ sy = 0%nat.
Proof.
  intros (row & c & Hr & Hc & _). destruct sy as [|sy]; [|destruct sy; discriminate].
  injection Hr as <-. destruct sx as [|sx]; [auto|destruct sx; discriminate].
Qed.

(** The position check on a board with a complete bottom row: a block
    outside the columns, a block on the bottom row, a block on a free cell. *)
Lemma isPositionValid_spec_witness :
  is_board gridBottomFull /\
  isPositionValid gridBottomFull dotShape 10 0 = Ret false /\
  isPositionValid gridBottomFull dotShape 4 19 = Ret false /\
  isPositionValid gridBottomFull dotShape 4 18 = Ret true.
Proof.
  assert (Hb : is_board gridBottomFull)
    by (split; [reflexivity|repeat (constructor; try reflexivity)]).
  assert (Hocc : occupiedAt dotShape 0 0) by (exists [Some 1], (Some 1); auto).
  split; [exact Hb|]. split; [|split].
  - apply (proj1 (proj2 (proj2 (isPositionValid_spec gridBottomFull dotShape 10 0)) Hb)).
    exists 0%nat, 0%nat. split; [exact Hocc|].
    unfold inBounds, GRID_WIDTH. simpl. lia.
  - apply (proj1 (proj2 (proj2 (proj2
             (isPositionValid_spec gridBottomFull dotShape 4 19)) Hb))).
    exists 0%nat, 0%nat. split; [exact Hocc|].
    split; [unfold inBounds, GRID_WIDTH, GRID_HEIGHT; simpl; lia|reflexivity].
  - apply (proj2 (proj2 (proj2 (proj2
             (isPositionValid_spec gridBottomFull dotShape 4 18)) Hb))).
    + intros (sx & sy & Hcell & Hout). apply dotShape_cell in Hcell as [-> ->].
      apply Hout. unfold inBounds, GRID_WIDTH, GRID_HEIGHT. simpl. lia.
    + intros (sx & sy & Hcell & _ & Hblk). apply dotShape_cell in Hcell as [-> ->].
      vm_compute in Hblk. discriminate.
Defined.

(** The simple rotation of the T piece on the empty board: in place at
    column 3, kicked by +1 at column -1; and on a full board, where every
    candidate is rejected. *)
Lemma attemptRotation_spec_witness :
  attemptRotation emptyGrid T_PIECE 3 0 clockwise =
    Ret {| rotated := rotateShape T_PIECE clockwise; x := 3; y := 0;
           valid := true |} /\
  attemptRotation emptyGrid T_PIECE (-2) 0 clockwise =
    Ret {| rotated := rotateShape T_PIECE clockwise; x := -2 + 1; y := 0;
           valid := true |} /\
  attemptRotation gridAllFull T_PIECE 3 3 clockwise =
    Ret {| rotated := T_PIECE; x := 3; y := 3; valid := false |} /\
  is_board emptyGrid.
Proof.
  split; [|split; [|split]].
  - apply (proj1 (attemptRotation_spec emptyGrid T_PIECE 3 0 clockwise)).
    vm_compute. reflexivity.
  - apply (proj1 (proj2 (attemptRotation_spec emptyGrid T_PIECE (-2) 0 clockwise))
             eq_refl [] 1 [-1; 2; -2]).
    + reflexivity.
    + constructor.
    + vm_compute. reflexivity.
  - apply (proj1 (proj2 (proj2
             (attemptRotation_spec gridAllFull T_PIECE 3 3 clockwise)))).
    + vm_compute. reflexivity.
    + repeat constructor; vm_compute; reflexivity.
  - split; [reflexivity|repeat (constructor; try reflexivity)].
Defined.

(** Both line clears on a board with three complete rows around an
    incomplete one. *)
Lemma clearLines_equivalent_witness :
  is_board gridThreeFull /\
  clearLines gridThreeFull =
    Ret (3, replicate 19 emptyRow ++ [<[3%nat := Some 5]> emptyRow]) /\
  clearLinesOptimized gridThreeFull =
    Ret (3, replicate 19 emptyRow ++ [<[3%nat := Some 5]> emptyRow]).
Proof.
  assert (Hb : is_board gridThreeFull)
    by (split; [reflexivity|repeat (constructor; try reflexivity)]).
  split; [exact Hb|].
  destruct (clearLines_equivalent gridThreeFull Hb) as (H1 & H2 & _).
  split; [rewrite H1|rewrite H2]; reflexivity.
Defined.

(** A lock on the empty board, with the I piece right of the board. *)
Lemma lockPiece_spec_witness :
  is_board emptyGrid /\
  nothingInRange I_PIECE 20 0 /\
  completeRows emptyGrid = 0%nat /\
  lockPiece emptyGrid I_PIECE 20 0 = Ret ({| linesCleared := 0 |}, emptyGrid).
Proof.
  assert (Hb : is_board emptyGrid)
    by (split; [reflexivity|repeat (constructor; try reflexivity)]).
  assert (Hn : nothingInRange I_PIECE 20 0).
  { intros sx sy _ [Hx _]. unfold GRID_WIDTH in Hx. lia. }
  split; [exact Hb|]. split; [exact Hn|]. split; [reflexivity|].
  destruct (lockPiece_spec emptyGrid I_PIECE 20 0 Hb)
    as (merged & _ & _ & _ & _ & _ & _ & Hzero).
  apply Hzero; [exact Hn|reflexivity].
Defined.

(** A lock with no occupied cell in range does clear lines on a board that
    already holds a complete row: the I piece locked at column 20 writes
    nothing, and the call still removes the bottom row and reports one
    cleared line. *)
Lemma lockPiece_clears_standing_rows :
  is_board gridBottomFull /\
  nothingInRange I_PIECE 20 0 /\
  lockPiece gridBottomFull I_PIECE 20 0 = Ret ({| linesCleared := 1 |}, emptyGrid) /\
  lockPiece gridBottomFull I_PIECE 20 0 <> Ret ({| linesCleared := 0 |}, gridBottomFull).
Proof.
  split; [split; [reflexivity|repeat (constructor; try reflexivity)]|].
  split; [intros sx sy _ [Hx _]; unfold GRID_WIDTH in Hx; lia|].
  split; [vm_compute; reflexivity|vm_compute; discriminate].
Qed.


(** The usual configuration, after the calls 4, 4, 1 and then 4. *)
Lemma clearLines_monotone_witness :
  tableNonNegative cfgStandard /\
  0 < Score.linesPerLevel cfgStandard /\
  Forall (fun c => 0 <= c) [4; 4; 1] /\
  0 <= 4 /\
  Score.score (Score.clearAll (Score.newScoreManager cfgStandard) [4; 4; 1])
    <= Score.score (Score.clearAll (Score.newScoreManager cfgStandard) [4; 4; 1; 4]) /\
  Score.level (Score.clearAll (Score.newScoreManager cfgStandard) [4; 4; 1; 4]) = 2.
Proof.
  assert (Ht : tableNonNegative cfgStandard).
  { unfold tableNonNegative. apply (bool_decide_unpack _). vm_compute. exact I. }
  assert (Hall : Forall (fun c => 0 <= c) [4; 4; 1]) by (repeat constructor; lia).
  split; [exact Ht|]. split; [reflexivity|]. split; [exact Hall|]. split; [lia|].
  destruct (clearLines_monotone cfgStandard [4; 4; 1] 4 Ht eq_refl Hall ltac:(lia))
    as (Hs & _ & _ & Hl).
  split; [exact Hs|]. refine (eq_trans Hl _). reflexivity.
Defined.

(** The rotations of the T piece. *)
Lemma rotateShape_spec_witness :
  isSquare T_PIECE /\
  Nat.iter 4 (fun s => rotateShape s clockwise) T_PIECE = T_PIECE /\
  shapeCell (rotateShape T_PIECE clockwise) 1 (4 - 1 - 2) = shapeCell T_PIECE 2 1.
Proof.
  assert (Hsq : isSquare T_PIECE) by (split; [reflexivity|repeat constructor]).
  split; [exact Hsq|].
  destruct (rotateShape_spec T_PIECE Hsq) as (H4 & _ & Hcw & _).
  split; [exact H4|]. apply Hcw; cbn; lia.
Defined.

(** The SRS rotation on a full board, and the candidates for a
    rotation-state index outside 0..3. *)
Lemma attemptRotationSRS_failure_witness :
  attemptRotationSRS gridAllFull T_PIECE 3 3 clockwise 0 false =
    Ret {| rotatedSRS := T_PIECE; xSRS := 3; ySRS := 3; validSRS := false;
           newRotation := 0 |} /\
  kickData true !! transitionKey counterClockwise 4 = None /\
  kickOffsets true counterClockwise 4 = [(0, 0)].
Proof.
  split; [|split].
  - apply (proj1 (attemptRotationSRS_failure gridAllFull T_PIECE 3 3 clockwise 0 false)).
    repeat constructor; vm_compute; reflexivity.
  - vm_compute. reflexivity.
  - apply (proj2 (attemptRotationSRS_failure emptyGrid T_PIECE 3 3
                    counterClockwise 4 true)).
    vm_compute. reflexivity.
Defined.

(** The catalog in the store of the module as initialised. *)
Lemma getTetrominoByIndex_spec_witness :
  catalogIntact initStore /\
  getTetrominoByIndex 7 initStore = Throw (InvalidIndex 7 6) /\
  exists shape st',
    getTetrominoByIndex 2 initStore = Ret (shape, st') /\
    readShape st' shape = Some T_PIECE.
Proof.
  assert (Hi : catalogIntact initStore) by (intros l o H; exact H).
  split; [exact Hi|]. split.
  - apply (getTetrominoByIndex_spec initStore 7 Hi). lia.
  - destruct (getTetrominoByIndex_spec initStore 2 Hi) as (_ & _ & Hin).
    destruct Hin as (shape & st' & contents & Hret & Hc & Hread & _); [lia|].
    exists shape, st'. split; [exact Hret|].
    rewrite Hread. rewrite <- Hc. reflexivity.
Defined.

(** The dimensions of a board with three complete rows, after each of the
    three operations. *)
Lemma board_dimensions_preserved_witness :
  is_board gridThreeFull /\
  (exists res grid', lockPiece gridThreeFull O_PIECE 3 0 = Ret (res, grid') /\
                     is_board grid') /\
  (exists n grid', clearLines gridThreeFull = Ret (n, grid') /\ is_board grid') /\
  (exists n grid', clearLinesOptimized gridThreeFull = Ret (n, grid') /\
                   is_board grid').
Proof.
  assert (Hb : is_board gridThreeFull)
    by (split; [reflexivity|repeat (constructor; try reflexivity)]).
  split; [exact Hb|].
  destruct (board_dimensions_preserved gridThreeFull Hb) as (Hl & Hc & Ho).
  split; [apply Hl|]. split; assumption.
Defined.

(** ** The tests of the repository and the scenarios of the specification,
    evaluated on the embedding *)

Example test_valid_on_empty_grid :
  isPositionValid emptyGrid squareShape 0 0 = Ret true /\
  isPositionValid emptyGrid squareShape 5 10 = Ret true /\
  isPositionValid emptyGrid squareShape 8 18 = Ret true.
Proof. repeat split. Qed.

Example test_outside_is_invalid :
  isPositionValid emptyGrid squareShape (-1) 0 = Ret false /\
  isPositionValid emptyGrid squareShape 9 0 = Ret false /\
  isPositionValid emptyGrid squareShape 0 (-1) = Ret false /\
  isPositionValid emptyGrid squareShape 0 19 = Ret false.
Proof. repeat split. Qed.

Example test_collision_detected :
  isPositionValid gridOneBlock squareShape 4 4 = Ret false /\
  isPositionValid gridOneBlock squareShape 5 5 = Ret false /\
  isPositionValid gridOneBlock squareShape 0 0 = Ret true /\
  isPositionValid gridOneBlock squareShape 7 7 = Ret true /\
  isPositionValid gridOneBlock [[Some 0; Some 1]; [Some 1; Some 1]] 5 4 = Ret false.
Proof. repeat split. Qed.

(** Outside the boards: on a grid with a missing row the check ends in a
    TypeError, and so do the functions built on it. *)
Example short_grid_throws :
  isPositionValid (replicate 19 emptyRow) dotShape 0 19 = Throw TypeError /\
  lockPiece (replicate 19 emptyRow) dotShape 0 19 = Throw TypeError /\
  clearLines (replicate 19 emptyRow) = Throw TypeError /\
  clearLinesOptimized (replicate 19 emptyRow) = Throw TypeError.
Proof. repeat split; vm_compute; reflexivity. Qed.

Example test_invalid_index :
  getTetrominoByIndex (-1) initStore = Throw (InvalidIndex (-1) 6) /\
  getTetrominoByIndex 7 initStore = Throw (InvalidIndex 7 6) /\
  getTetrominoByIndex 100 initStore = Throw (InvalidIndex 100 6).
Proof. repeat split. Qed.

(** Two squares locked side by side on the bottom rows fill columns 4 to 7
    of row 19: no line is cleared. *)
Example scenario_two_squares :
  (let* first := lockPiece emptyGrid squareShape 4 18 in
   lockPiece (snd first) squareShape 6 18) =
  Ret ({| linesCleared := 0 |},
       replicate 18 emptyRow ++
       replicate 2 (replicate 4 (Some 0) ++ replicate 4 (Some 1) ++
                    replicate 2 (Some 0))).
Proof. vm_compute. reflexivity. Qed.

(** Four complete bottom rows are cleared at once, by either procedure. *)
Example scenario_four_rows :
  clearLines gridFourFull = Ret (4, emptyGrid) /\
  clearLinesOptimized gridFourFull = Ret (4, emptyGrid) /\
  lockPiece gridFourFull [] 0 0 = Ret ({| linesCleared := 4 |}, emptyGrid).
Proof. repeat split; vm_compute; reflexivity. Qed.

(** The I piece set upright in the gap of a bottom row completes it: one
    line is cleared and the rest of the piece moves down by one row. *)
Example scenario_fill_gap :
  lockPiece (replicate 19 emptyRow ++ [<[5%nat := Some 0]> fullRow])
            [[Some 1]; [Some 1]; [Some 1]; [Some 1]] 5 16 =
  Ret ({| linesCleared := 1 |},
       replicate 17 emptyRow ++ replicate 3 (<[5%nat := Some 1]> emptyRow)).
Proof. vm_compute. reflexivity. Qed.

(** * Further properties: the other functions of the modules *)
Import Placement Queries.

(** ** Row queries of collision.ts and lockAndClear.ts *)

Lemma forEachM_ext {A S} (xs : list A) (f g : A -> S -> outcome S) :
  (forall x, x ∈ xs -> forall s, f x s = g x s) ->
  forall s, forEachM xs f s = forEachM xs g s.
Proof.
  induction xs as [|x rest IH]; intros H s; [reflexivity|].
  cbn [forEachM]. rewrite (H x) by (apply elem_of_cons; left; reflexivity).
  destruct (g x s); cbn [bind]; [|reflexivity].
  apply IH. intros y Hy. apply H. apply elem_of_cons. right. exact Hy.
Qed.

Lemma elem_of_rowIndices (row : Z) :
  row ∈ rowIndices <-> 0 <= row < GRID_HEIGHT.
Proof.
  unfold rowIndices, GRID_HEIGHT. rewrite list_elem_of_In, in_map_iff. split.
  - intros (k & <- & Hk). apply in_seq in Hk. lia.
  - intros H. exists (Z.to_nat row). split; [lia|]. apply in_seq. lia.
Qed.

Lemma elem_of_rowsBetween (first last k : Z) :
  k ∈ rowsBetween first last <-> first <= k <= last.
Proof.
  unfold rowsBetween. rewrite list_elem_of_In, in_map_iff. split.
  - intros (i & <- & Hi). apply in_seq in Hi. lia.
  - intros H. exists (Z.to_nat (k - first)). split; [lia|]. apply in_seq. lia.
Qed.

(** The detection loop stops with a TypeError at the first index past the
    end of the grid. *)
Lemma detect_short (grid : Grid) (n : nat) :
  forall (start : nat) (acc : list Z),
  (start <= length grid < start + n)%nat ->
  forEachM (map Z.of_nat (seq start n))
    (fun row completedRows =>
       match js_get grid row with
       | None => Throw TypeError
       | Some r =>
           Ret (if rowComplete r then completedRows ++ [row] else completedRows)
       end) acc
  = Throw TypeError.
Proof.
  induction n as [|n IH]; intros start acc H; [lia|].
  cbn [seq map forEachM]. rewrite js_get_nat.
  destruct (grid !! start) as [r|] eqn:Hr; cbn [bind]; [|reflexivity].
  apply IH. apply lookup_lt_Some in Hr. lia.
Qed.

Lemma elem_of_completedFrom (rows : Grid) :
  forall (start : nat) (k : Z),
  k ∈ completedFrom start rows <->
  exists (i : nat) r, k = Z.of_nat (start + i) /\ rows !! i = Some r /\
                      rowComplete r = true.
Proof.
  induction rows as [|r rest IH]; intros start k; cbn [completedFrom].
  - split; [intros H; apply elem_of_nil in H; destruct H|].
    intros (i & r & _ & H & _). rewrite lookup_nil in H. discriminate.
  - assert (Hrest : k ∈ completedFrom (S start) rest <->
      exists (i : nat) r', k = Z.of_nat (start + S i) /\ rest !! i = Some r' /\
                           rowComplete r' = true).
    { rewrite IH. split; intros (i & r' & -> & H1 & H2); exists i, r';
        repeat split; auto; lia. }
    destruct (rowComplete r) eqn:Hc.
    + rewrite elem_of_cons, Hrest. split.
      * intros [-> | (i & r' & -> & H1 & H2)].
        -- exists 0%nat, r. repeat split; auto; lia.
        -- exists (S i), r'. repeat split; auto.
      * intros ([|i] & r' & -> & H1 & H2).
        -- left. lia.
        -- right. exists i, r'. repeat split; auto.
    + rewrite Hrest. split.
      * intros (i & r' & -> & H1 & H2). exists (S i), r'. repeat split; auto.
      * intros ([|i] & r' & -> & H1 & H2).
        -- cbn in H1. injection H1 as <-. congruence.
        -- exists i, r'. repeat split; auto.
Qed.

Lemma completedFrom_ascending (rows : Grid) :
  forall start : nat, ascending (completedFrom start rows).
Proof.
  induction rows as [|r rest IH]; intros start; cbn [completedFrom].
  - intros i j a b H. rewrite lookup_nil in H. discriminate.
  - destruct (rowComplete r); [|apply IH].
    intros [|i] [|j] a b Ha Hb Hij; try lia.
    + cbn in Ha, Hb. injection Ha as <-.
      apply list_elem_of_lookup_2 in Hb. apply elem_of_completedFrom in Hb.
      destruct Hb as (k & _ & -> & _). lia.
    + cbn in Ha, Hb. apply (IH (S start) i j); auto. lia.
Qed.

Lemma completedFrom_none (rows : Grid) (start : nat) :
  completeRows rows = 0%nat -> completedFrom start rows = [].
Proof.
  intros H. apply length_zero_iff_nil.
  rewrite length_completedFrom. exact H.
Qed.

Lemma findCompletedRows_take (grid : Grid) :
  (Z.to_nat GRID_HEIGHT <= length grid)%nat ->
  findCompletedRows grid =
    Ret (completedFrom 0 (take (Z.to_nat GRID_HEIGHT) grid)).
Proof.
  intros H. unfold findCompletedRows, rowIndices.
  rewrite (detect_loop grid (Z.to_nat GRID_HEIGHT) 0 []) by lia.
  rewrite drop_0. reflexivity.
Qed.

Lemma getCompletedRows_find (grid : Grid) :
  getCompletedRows grid = findCompletedRows grid.
Proof.
  unfold getCompletedRows, findCompletedRows.
  apply forEachM_ext. intros row Hrow completedRows.
  apply elem_of_rowIndices in Hrow. unfold isRowComplete.
  test_false (row <? 0). test_false (row >=? GRID_HEIGHT). cbn [orb].
  destruct (js_get grid row); reflexivity.
Qed.

Lemma findCompletedRows_short (grid : Grid) :
  (length grid < 20)%nat -> findCompletedRows grid = Throw TypeError.
Proof.
  intros H. unfold findCompletedRows, rowIndices.
  apply detect_short. change (Z.to_nat GRID_HEIGHT) with 20%nat. lia.
Qed.

Lemma findCompletedRows_rows (grid : Grid) :
  (20 <= length grid)%nat ->
  exists rows, findCompletedRows grid = Ret rows /\
    (forall k, k ∈ rows <-> 0 <= k < GRID_HEIGHT /\ completeAt grid k) /\
    ascending rows.
Proof.
  intros H. exists (completedFrom 0 (take (Z.to_nat GRID_HEIGHT) grid)).
  split; [apply findCompletedRows_take; exact H|].
  split; [|apply completedFrom_ascending].
  intros k. rewrite elem_of_completedFrom. unfold completeAt, GRID_HEIGHT.
  change (Z.to_nat 20) with 20%nat. split.
  - intros (i & r & -> & Hr & Hc). apply lookup_take_Some in Hr.
    destruct Hr as [Hr Hi]. split; [lia|]. exists r.
    rewrite Nat.add_0_l, js_get_nat. auto.
  - intros [Hk (r & Hr & Hc)]. exists (Z.to_nat k), r.
    split; [lia|]. split; [|exact Hc]. apply lookup_take_Some.
    split; [|lia]. rewrite <- js_get_nat.
    replace (Z.of_nat (Z.to_nat k)) with k by lia. exact Hr.
Qed.

(** X1.  [findCompletedRows]: on a grid of fewer than 20 rows the call is a
    TypeError; on any other grid it returns the indices in 0..19 of the
    complete rows, each once, in increasing order. *)
Theorem findCompletedRows_spec (grid : Grid) :
  ((length grid < 20)%nat -> findCompletedRows grid = Throw TypeError) /\
  ((20 <= length grid)%nat ->
   exists rows, findCompletedRows grid = Ret rows /\
     (forall k, k ∈ rows <-> 0 <= k < GRID_HEIGHT /\ completeAt grid k) /\
     ascending rows).
Proof.
  split; [apply findCompletedRows_short|apply findCompletedRows_rows].
Qed.

(** X2.  The two detection functions, [getCompletedRows] of lockAndClear.ts and
    [findCompletedRows] of collision.ts, agree on every grid: the same list,
    or a TypeError from both; an index is in the list exactly when
    [isRowComplete] holds of it. *)
Theorem getCompletedRows_agrees (grid : Grid) :
  getCompletedRows grid = findCompletedRows grid /\
  (forall rows, getCompletedRows grid = Ret rows ->
     forall k, k ∈ rows <-> isRowComplete grid k = Ret true).
Proof.
  split; [apply getCompletedRows_find|].
  intros rows Hret k. rewrite getCompletedRows_find in Hret.
  destruct (Nat.lt_ge_cases (length grid) 20) as [Hs|Hl].
  - rewrite (findCompletedRows_short grid Hs) in Hret. discriminate.
  - destruct (findCompletedRows_rows grid Hl) as (rows' & Hr & Hmem & _).
    rewrite Hr in Hret. injection Hret as <-. rewrite Hmem.
    unfold isRowComplete, completeAt, GRID_HEIGHT. split.
    + intros [Hk (r & Hg & Hc)].
      test_false (k <? 0). test_false (k >=? 20). cbn [orb].
      rewrite Hg, Hc. reflexivity.
    + destruct (k <? 0) eqn:E1; [discriminate|].
      destruct (k >=? 20) eqn:E2; [discriminate|]. cbn [orb]. tests.
      destruct (js_get grid k) as [r|] eqn:Hg; [|discriminate].
      intros [= Hc]. split; [lia|]. exists r. auto.
Qed.

Lemma isRowComplete_total (grid : Grid) (k : Z) :
  (20 <= length grid)%nat ->
  exists c, isRowComplete grid k = Ret c /\
    (c = true <-> 0 <= k < GRID_HEIGHT /\ completeAt grid k).
Proof.
  intros Hlen. unfold isRowComplete, completeAt, GRID_HEIGHT.
  destruct (k <? 0) eqn:E1; cbn [orb]; tests.
  { exists false. split; [reflexivity|]. split; [discriminate|lia]. }
  destruct (k >=? 20) eqn:E2; tests.
  { exists false. split; [reflexivity|]. split; [discriminate|lia]. }
  unfold js_get. test_false (k <? 0).
  destruct (lookup_lt_is_Some_2 grid (Z.to_nat k)) as [r Hr]; [lia|].
  rewrite Hr. exists (rowComplete r). split; [reflexivity|]. split.
  - intros Hc. split; [lia|]. exists r. auto.
  - intros [_ (r' & [= <-] & Hc)]. exact Hc.
Qed.

Lemma anyComplete_spec (grid : Grid) (rows : list Z) :
  (20 <= length grid)%nat ->
  exists b, anyComplete grid rows = Ret b /\
    (b = true <->
     exists k, k ∈ rows /\ 0 <= k < GRID_HEIGHT /\ completeAt grid k).
Proof.
  intros Hlen. induction rows as [|row rest IH]; cbn [anyComplete].
  - exists false. split; [reflexivity|]. split; [discriminate|].
    intros (k & Hk & _). apply elem_of_nil in Hk. destruct Hk.
  - destruct (isRowComplete_total grid row Hlen) as (c & Hc & Hiff).
    rewrite Hc. cbn [bind]. destruct c.
    + exists true. split; [reflexivity|]. split; [|reflexivity].
      intros _. exists row. split; [apply elem_of_cons; left; reflexivity|].
      apply Hiff. reflexivity.
    + destruct IH as (b & Hb & Hbiff). exists b. split; [exact Hb|].
      rewrite Hbiff. split.
      * intros (k & Hk & H). exists k. split; [|exact H].
        apply elem_of_cons. right. exact Hk.
      * intros (k & Hk & H). apply elem_of_cons in Hk.
        destruct Hk as [-> | Hk]; [|exists k; auto].
        apply Hiff in H. discriminate.
Qed.

(** X3.  [hasCompletedRowsInRange]: on a grid of at least 20 rows the call
    returns for every pair of bounds, negative or past the end as they may
    be, and returns [true] exactly when a row whose index lies between the
    two bounds and in 0..19 is complete. *)
Theorem hasCompletedRowsInRange_spec (grid : Grid) (startRow endRow : Z) :
  (20 <= length grid)%nat ->
  exists b, hasCompletedRowsInRange grid startRow endRow = Ret b /\
    (b = true <->
     exists k, startRow <= k <= endRow /\ 0 <= k < GRID_HEIGHT /\
               completeAt grid k).
Proof.
  intros Hlen. unfold hasCompletedRowsInRange.
  destruct (anyComplete_spec grid
              (rowsBetween (Z.max 0 startRow) (Z.min (GRID_HEIGHT - 1) endRow))
              Hlen) as (b & Hb & Hiff).
  exists b. split; [exact Hb|]. rewrite Hiff. unfold GRID_HEIGHT.
  split; intros (k & Hk & Hr & Hc); exists k.
  - apply elem_of_rowsBetween in Hk. repeat split; auto; lia.
  - rewrite elem_of_rowsBetween. repeat split; auto; lia.
Qed.

Lemma clearedGrid_length (grid : Grid) :
  length (clearedGrid grid) = length grid.
Proof.
  unfold clearedGrid, keptRows, completeRows.
  rewrite length_app, length_replicate. apply length_filter_split.
Qed.

Lemma complete_row_counts (grid : Grid) (i : nat) (r : list cell) :
  grid !! i = Some r -> rowComplete r = true -> (0 < completeRows grid)%nat.
Proof.
  intros Hr Hc. rewrite <- (take_drop_middle grid i r Hr).
  rewrite completeRows_app. unfold completeRows at 2.
  cbn [List.filter]. rewrite Hc. cbn [length]. lia.
Qed.

(** A grid of 20 rows without a complete row: the queries find nothing. *)
Lemma settled_queries (grid : Grid) :
  length grid = 20%nat -> completeRows grid = 0%nat ->
  getCompletedRows grid = Ret [] /\
  forall startRow endRow, hasCompletedRowsInRange grid startRow endRow = Ret false.
Proof.
  intros Hlen Hnone. split.
  - rewrite getCompletedRows_find, findCompletedRows_take
      by (change (Z.to_nat GRID_HEIGHT) with 20%nat; lia).
    rewrite completedFrom_none; [reflexivity|].
    rewrite take_ge by (change (Z.to_nat GRID_HEIGHT) with 20%nat; lia).
    exact Hnone.
  - intros startRow endRow.
    destruct (hasCompletedRowsInRange grid startRow endRow) as [b|e] eqn:Hq.
    + destruct b; [|reflexivity]. exfalso.
      unfold hasCompletedRowsInRange in Hq.
      destruct (anyComplete_spec grid
        (rowsBetween (Z.max 0 startRow) (Z.min (GRID_HEIGHT - 1) endRow)))
        as (b & Hb & Hiff); [lia|].
      rewrite Hb in Hq. injection Hq as ->.
      destruct (proj1 Hiff eq_refl) as (k & _ & Hk & (r & Hr & Hc)).
      rewrite <- (Z2Nat.id k) in Hr by lia. rewrite js_get_nat in Hr.
      pose proof (complete_row_counts grid _ r Hr Hc). lia.
    + exfalso. unfold hasCompletedRowsInRange in Hq.
      destruct (anyComplete_spec grid
        (rowsBetween (Z.max 0 startRow) (Z.min (GRID_HEIGHT - 1) endRow)))
        as (b & Hb & _); [lia|].
      rewrite Hb in Hq. discriminate.
Qed.

(** X4.  Line clearing and the queries.  On a board, [clearLines] returns the
    number of rows that [getCompletedRows] lists before the call; after
    [clearLines], [clearLinesOptimized] or [lockPiece], [getCompletedRows]
    returns the empty list and [hasCompletedRowsInRange] is [false] for
    every range. *)
Theorem cleared_grid_has_no_complete_row (grid : Grid) :
  is_board grid ->
  (exists rows n grid',
     getCompletedRows grid = Ret rows /\ clearLines grid = Ret (n, grid') /\
     n = Z.of_nat (length rows)) /\
  (forall n grid',
     clearLines grid = Ret (n, grid') \/ clearLinesOptimized grid = Ret (n, grid') ->
     getCompletedRows grid' = Ret [] /\
     forall startRow endRow,
       hasCompletedRowsInRange grid' startRow endRow = Ret false) /\
  (forall shape offsetX offsetY res grid',
     lockPiece grid shape offsetX offsetY = Ret (res, grid') ->
     getCompletedRows grid' = Ret [] /\
     forall startRow endRow,
       hasCompletedRowsInRange grid' startRow endRow = Ret false).
Proof.
  intros Hb. pose proof Hb as [Hlen _].
  change (Z.to_nat GRID_HEIGHT) with 20%nat in Hlen.
  assert (Hsettled : forall g : Grid, length g = 20%nat ->
    getCompletedRows (clearedGrid g) = Ret [] /\
    forall startRow endRow,
      hasCompletedRowsInRange (clearedGrid g) startRow endRow = Ret false).
  { intros g Hg. apply settled_queries.
    - rewrite clearedGrid_length. exact Hg.
    - apply clearedGrid_settled. }
  split; [|split].
  - exists (completedFrom 0 grid), (Z.of_nat (completeRows grid)), (clearedGrid grid).
    split; [|split].
    + rewrite getCompletedRows_find, findCompletedRows_take
        by (change (Z.to_nat GRID_HEIGHT) with 20%nat; lia).
      rewrite take_ge by (change (Z.to_nat GRID_HEIGHT) with 20%nat; lia).
      reflexivity.
    + apply clearLines_spec. exact Hlen.
    + rewrite length_completedFrom. reflexivity.
  - intros n grid' [H|H].
    + rewrite clearLines_spec in H by exact Hlen. injection H as _ <-.
      apply Hsettled. exact Hlen.
    + rewrite clearLinesOptimized_spec in H by exact Hlen. injection H as _ <-.
      apply Hsettled. exact Hlen.
  - intros shape offsetX offsetY res grid' H. unfold lockPiece in H.
    destruct (mergeRows_board offsetX offsetY shape grid 0 Hb)
      as (merged & Hm & [Hmlen _] & _).
    rewrite Hm in H. cbn [bind] in H.
    rewrite clearLines_spec in H by exact Hmlen. cbn [bind] in H.
    injection H as _ <-. apply Hsettled. exact Hmlen.
Qed.

(** ** Emptiness tests of collision.ts *)

Lemma allZero_true (row : list cell) :
  allZero row = true <-> Forall (fun c : cell => c = Some 0) row.
Proof.
  unfold allZero. rewrite forallb_forall, Forall_forall.
  split; intros H c Hc.
  - apply list_elem_of_In in Hc. specialize (H c Hc).
    destruct c as [[| |]|]; try discriminate. reflexivity.
  - apply list_elem_of_In in Hc. rewrite (H c Hc). reflexivity.
Qed.

Lemma rangeLoop_spec (grid : Grid) (rows : list Z) :
  Forall (fun k => 0 <= k < Z.of_nat (length grid)) rows ->
  exists b, rangeLoop grid rows = Ret b /\
    (b = true <-> forall k, k ∈ rows -> blankAt grid k).
Proof.
  induction 1 as [|row rest Hrow _ IH]; cbn [rangeLoop].
  - exists true. split; [reflexivity|]. split; [|reflexivity].
    intros _ k Hk. apply elem_of_nil in Hk. destruct Hk.
  - unfold js_get. test_false (row <? 0).
    destruct (lookup_lt_is_Some_2 grid (Z.to_nat row)) as [r Hr]; [lia|].
    rewrite Hr. destruct (allZero r) eqn:Hz; cbn [negb].
    + destruct IH as (b & Hb & Hiff). exists b. split; [exact Hb|].
      rewrite Hiff. split.
      * intros Hall k Hk. apply elem_of_cons in Hk.
        destruct Hk as [-> | Hk]; [|auto].
        exists r. unfold js_get. test_false (row <? 0).
        split; [exact Hr|]. apply allZero_true. exact Hz.
      * intros Hall k Hk. apply Hall. apply elem_of_cons. right. exact Hk.
    + exists false. split; [reflexivity|]. split; [discriminate|].
      intros Hall. destruct (Hall row) as (r' & Hr' & Hz').
      { apply elem_of_cons. left. reflexivity. }
      unfold js_get in Hr'. replace (row <? 0) with false in Hr'
        by (symmetry; apply Z.ltb_ge; lia).
      rewrite Hr in Hr'. injection Hr' as <-.
      apply allZero_true in Hz'. congruence.
Qed.

(** X5.  [isRangeEmpty]: a range that is empty, or that starts at row 20 or
    below it, is reported empty on any grid; a range that starts at a
    negative row and is not empty is a TypeError on any grid, the upper
    bound alone being clamped to the board; on a grid of at least 20 rows of
    numbers, a range that starts at a row that is not negative is reported
    empty exactly when every cell of every row of the range, up to row 19,
    is 0. *)
Theorem isRangeEmpty_spec (grid : Grid) (startRow endRow : Z) :
  (endRow < startRow \/ GRID_HEIGHT <= startRow ->
     isRangeEmpty grid startRow endRow = Ret true) /\
  (startRow < 0 -> startRow <= endRow ->
     isRangeEmpty grid startRow endRow = Throw TypeError) /\
  ((20 <= length grid)%nat -> numeric grid -> 0 <= startRow ->
     exists b, isRangeEmpty grid startRow endRow = Ret b /\
       (b = true <->
        forall k, startRow <= k <= endRow -> k < GRID_HEIGHT -> blankAt grid k)).
Proof.
  unfold isRangeEmpty, GRID_HEIGHT. split; [|split].
  - intros H. unfold rowsBetween.
    replace (Z.to_nat (Z.min endRow (20 - 1) - startRow + 1)) with 0%nat by lia.
    reflexivity.
  - intros Hneg Hle. unfold rowsBetween.
    destruct (Z.to_nat (Z.min endRow (20 - 1) - startRow + 1)) as [|n] eqn:En;
      [lia|].
    cbn [seq map rangeLoop].
    rewrite js_get_negative by lia. reflexivity.
  - intros Hlen _ Hs.
    destruct (rangeLoop_spec grid (rowsBetween startRow (Z.min endRow (20 - 1))))
      as (b & Hb & Hiff).
    { apply Forall_forall. intros k Hk. apply elem_of_rowsBetween in Hk. lia. }
    exists b. split; [exact Hb|]. rewrite Hiff. split.
    + intros H k Hk Hlt. apply H. apply elem_of_rowsBetween. lia.
    + intros H k Hk. apply elem_of_rowsBetween in Hk. apply H; lia.
Qed.

Lemma rangeLoop_all (grid : Grid) (n : nat) :
  forall start : nat, (start + n)%nat = length grid ->
  rangeLoop grid (map (fun k => 0 + Z.of_nat k) (seq start n)) =
    Ret (forallb allZero (drop start grid)).
Proof.
  induction n as [|n IH]; intros start H.
  - rewrite drop_ge by lia. reflexivity.
  - cbn [seq map rangeLoop]. rewrite Z.add_0_l, js_get_nat.
    destruct (lookup_lt_is_Some_2 grid start) as [r Hr]; [lia|].
    rewrite Hr, (drop_S grid r start Hr). cbn [forallb].
    destruct (allZero r); cbn [negb andb]; [|reflexivity].
    apply IH. lia.
Qed.

Lemma blank_row_not_complete (row : list cell) :
  length row = Z.to_nat GRID_WIDTH -> allZero row = true -> rowComplete row = false.
Proof.
  intros Hlen Hz. destruct row as [|c rest]; [discriminate|].
  apply allZero_true in Hz. inversion Hz as [|? ? Hc _]; subst. reflexivity.
Qed.

Lemma blank_rows_not_complete (grid : Grid) :
  Forall (fun row => length row = Z.to_nat GRID_WIDTH) grid ->
  Forall (fun row => allZero row = true) grid ->
  completeRows grid = 0%nat.
Proof.
  unfold completeRows. induction 1 as [|r rest Hl _ IH]; [reflexivity|].
  intros He. inversion He as [|? ? Hr Hrest]; subst.
  cbn [List.filter]. rewrite (blank_row_not_complete r Hl Hr). auto.
Qed.

Lemma isGridEmpty_rows (grid : Grid) :
  isGridEmpty grid = true <-> Forall (fun row => allZero row = true) grid.
Proof.
  unfold isGridEmpty. rewrite forallb_forall, Forall_forall.
  split; intros H r Hr; apply H; apply list_elem_of_In; exact Hr.
Qed.

Lemma empty_grid_cell (grid : Grid) (gx gy : Z) :
  is_board grid -> isGridEmpty grid = true -> inBounds gx gy ->
  gridCell grid gx gy = Some 0.
Proof.
  intros Hb He [Hx Hy]. destruct (board_row grid gy Hb Hy) as (row & Hrow & Hlen).
  unfold gridCell. rewrite Hrow.
  apply isGridEmpty_rows in He. rewrite Forall_forall in He.
  assert (Hz : allZero row = true).
  { apply He. unfold js_get in Hrow. destruct (gy <? 0); [discriminate|].
    eapply list_elem_of_lookup_2. exact Hrow. }
  apply allZero_true in Hz. unfold js_cell, js_get.
  unfold GRID_WIDTH in *. test_false (gx <? 0).
  destruct (lookup_lt_is_Some_2 row (Z.to_nat gx)) as [c Hc]; [lia|].
  rewrite Hc. rewrite Forall_forall in Hz. apply Hz.
  eapply list_elem_of_lookup_2. exact Hc.
Qed.

(** X6.  What [isGridEmpty] tells about a board of numbers.  It is the answer
    of [isRangeEmpty] for the rows 0 to 19 (or any later end).  When it is
    [true]: every range that starts at a row that is not negative is empty,
    no row is complete, and a shape fits at a position exactly when none of
    its occupied cells leaves the board. *)
Theorem isGridEmpty_spec (grid : Grid) :
  is_board grid -> numeric grid ->
  (forall endRow, 19 <= endRow ->
     isRangeEmpty grid 0 endRow = Ret (isGridEmpty grid)) /\
  (isGridEmpty grid = true ->
     (forall startRow endRow, 0 <= startRow ->
        isRangeEmpty grid startRow endRow = Ret true) /\
     findCompletedRows grid = Ret [] /\
     (forall shape offsetX offsetY,
        isPositionValid grid shape offsetX offsetY = Ret true <->
        ~ leavesBoard shape offsetX offsetY)).
Proof.
  intros Hb _. pose proof Hb as [Hlen Hrows].
  change (Z.to_nat GRID_HEIGHT) with 20%nat in Hlen.
  split.
  - intros endRow He. unfold isRangeEmpty, rowsBetween, GRID_HEIGHT.
    replace (Z.to_nat (Z.min endRow (20 - 1) - 0 + 1)) with 20%nat by lia.
    rewrite (rangeLoop_all grid 20 0) by lia. rewrite drop_0. reflexivity.
  - intros He. split; [|split].
    + intros startRow endRow Hs. unfold isRangeEmpty.
      destruct (rangeLoop_spec grid
                  (rowsBetween startRow (Z.min endRow (GRID_HEIGHT - 1))))
        as (b & Hret & Hiff).
      { apply Forall_forall. intros k Hk. apply elem_of_rowsBetween in Hk.
        unfold GRID_HEIGHT in Hk. lia. }
      rewrite Hret. f_equal. apply Hiff. intros k Hk.
      apply elem_of_rowsBetween in Hk. unfold GRID_HEIGHT in Hk.
      destruct (board_row grid k Hb) as (row & Hrow & _);
        [unfold GRID_HEIGHT; lia|].
      exists row. split; [exact Hrow|]. apply allZero_true.
      apply isGridEmpty_rows in He. rewrite Forall_forall in He. apply He.
      unfold js_get in Hrow. destruct (k <? 0); [discriminate|].
      eapply list_elem_of_lookup_2. exact Hrow.
    + rewrite findCompletedRows_take
        by (change (Z.to_nat GRID_HEIGHT) with 20%nat; lia).
      rewrite take_ge by (change (Z.to_nat GRID_HEIGHT) with 20%nat; lia).
      rewrite completedFrom_none; [reflexivity|].
      apply blank_rows_not_complete; [exact Hrows|].
      apply isGridEmpty_rows. exact He.
    + intros shape offsetX offsetY.
      destruct (isPositionValid_total grid shape offsetX offsetY Hb) as [b Hret].
      pose proof (isPositionValid_verdict _ _ _ _ _ Hret) as Hiff.
      rewrite Hret. split.
      * intros [= ->]. apply Hiff. reflexivity.
      * intros Hin. f_equal. apply Hiff. split; [exact Hin|].
        intros (sx & sy & _ & Hi & Hocc).
        rewrite (empty_grid_cell grid _ _ Hb He Hi) in Hocc. discriminate.
Qed.

(** ** placeTetromino *)

Lemma assignCell_writeCell (grid : Grid) (gx gy : Z) (v : cell) :
  0 <= gx -> assignCell grid gx gy v = writeCell grid gx gy v.
Proof.
  intros H. unfold assignCell, writeCell. test_false (gx <? 0). reflexivity.
Qed.

(** While every occupied cell lands inside the board, the unguarded loops of
    [placeTetromino] do what the guarded loops of [lockPiece] do. *)
Lemma placeRow_merge (offsetX offsetY shapeY : Z) (cells : list cell) :
  forall (grid : Grid) (shapeX : Z),
  (forall (k : nat) (c : cell), cells !! k = Some c -> occupied c = true ->
     inBounds (offsetX + (shapeX + Z.of_nat k)) (offsetY + shapeY)) ->
  placeRow grid cells offsetX offsetY shapeX shapeY =
    mergeRow grid cells offsetX offsetY shapeX shapeY.
Proof.
  induction cells as [|c rest IH]; intros grid shapeX Hin; [reflexivity|].
  cbn [placeRow mergeRow].
  assert (Hrest : forall (k : nat) (c' : cell), rest !! k = Some c' ->
            occupied c' = true ->
            inBounds (offsetX + (shapeX + 1 + Z.of_nat k)) (offsetY + shapeY)).
  { intros k c' Hk Hocc.
    replace (shapeX + 1 + Z.of_nat k) with (shapeX + Z.of_nat (S k)) by lia.
    apply (Hin (S k) c'); auto. }
  destruct (occupied c) eqn:Hocc; [|apply IH; exact Hrest].
  destruct (Hin 0%nat c eq_refl Hocc) as [Hx Hy].
  unfold GRID_WIDTH, GRID_HEIGHT in *.
  test_true (offsetY + shapeY >=? 0). test_true (offsetY + shapeY <? 20).
  test_true (offsetX + shapeX >=? 0). test_true (offsetX + shapeX <? 10).
  cbn [andb]. rewrite assignCell_writeCell by lia.
  destruct (writeCell grid (offsetX + shapeX) (offsetY + shapeY) c);
    cbn [bind]; [|reflexivity].
  apply IH. exact Hrest.
Qed.

Lemma placeRows_merge (offsetX offsetY : Z) (rows : BlockShape) :
  forall (grid : Grid) (shapeY : Z),
  (forall sx sy, occupiedAt rows sx sy ->
     inBounds (offsetX + Z.of_nat sx) (offsetY + (shapeY + Z.of_nat sy))) ->
  placeRows grid rows offsetX offsetY shapeY =
    mergeRows grid rows offsetX offsetY shapeY.
Proof.
  induction rows as [|row rest IH]; intros grid shapeY Hin; [reflexivity|].
  cbn [placeRows mergeRows].
  rewrite placeRow_merge.
  - destruct (mergeRow grid row offsetX offsetY 0 shapeY); cbn [bind];
      [|reflexivity].
    apply IH. intros sx sy (r & c & Hr & Hc & Hocc).
    replace (shapeY + 1 + Z.of_nat sy) with (shapeY + Z.of_nat (S sy)) by lia.
    apply Hin. exists r, c. auto.
  - intros k c Hk Hocc.
    replace (offsetY + shapeY) with (offsetY + (shapeY + Z.of_nat 0)) by lia.
    replace (0 + Z.of_nat k) with (Z.of_nat k) by lia.
    apply Hin. exists row, c. auto.
Qed.

Lemma valid_inBounds (grid : Grid) (shape : BlockShape) (offsetX offsetY : Z) :
  isPositionValid grid shape offsetX offsetY = Ret true ->
  forall sx sy, occupiedAt shape sx sy ->
    inBounds (offsetX + Z.of_nat sx) (offsetY + Z.of_nat sy).
Proof.
  intros Hv sx sy Hocc.
  destruct (proj1 (isPositionValid_verdict _ _ _ _ _ Hv) eq_refl) as [Hin _].
  assert (Hdec : inBounds (offsetX + Z.of_nat sx) (offsetY + Z.of_nat sy) \/
                 ~ inBounds (offsetX + Z.of_nat sx) (offsetY + Z.of_nat sy)).
  { unfold inBounds, GRID_WIDTH, GRID_HEIGHT. lia. }
  destruct Hdec as [H|H]; [exact H|].
  exfalso. apply Hin. exists sx, sy. auto.
Qed.

(** The grid left by a successful placement. *)
Lemma placeTetromino_valid (grid : Grid) (shape : BlockShape) (offsetX offsetY : Z) :
  is_board grid ->
  isPositionValid grid shape offsetX offsetY = Ret true ->
  exists placed,
    placeTetromino grid shape offsetX offsetY = Ret (true, placed) /\
    is_board placed /\
    forall gx gy, inBounds gx gy ->
      gridCell placed gx gy =
        match pieceCell shape (gx - offsetX) (gy - offsetY) with
        | Some c => c
        | None => gridCell grid gx gy
        end.
Proof.
  intros Hb Hv. unfold placeTetromino. rewrite Hv. cbn [bind negb].
  rewrite placeRows_merge.
  - destruct (mergeRows_board offsetX offsetY shape grid 0 Hb)
      as (merged & Hm & Hmb & Hcells).
    rewrite Hm. cbn [bind]. exists merged. split; [reflexivity|].
    split; [exact Hmb|]. intros gx gy Hi. rewrite (Hcells gx gy Hi).
    replace (gy - offsetY - 0) with (gy - offsetY) by lia. reflexivity.
  - intros sx sy Hocc. replace (0 + Z.of_nat sy) with (Z.of_nat sy) by lia.
    apply (valid_inBounds grid shape offsetX offsetY Hv). exact Hocc.
Qed.

(** X7.  [placeTetromino] on a board returns the verdict of
    [isPositionValid].  When the verdict is [false] the grid is left as it
    was.  When it is [true] the grid is still a board, every occupied cell
    of the shape has been written at its place, and every other cell is what
    it was. *)
Theorem placeTetromino_spec (grid : Grid) (shape : BlockShape) (offsetX offsetY : Z) :
  is_board grid ->
  exists ok placed,
    placeTetromino grid shape offsetX offsetY = Ret (ok, placed) /\
    isPositionValid grid shape offsetX offsetY = Ret ok /\
    is_board placed /\
    (ok = false -> placed = grid) /\
    (ok = true ->
     (forall (sx sy : nat) row c,
        shape !! sy = Some row -> row !! sx = Some c -> occupied c = true ->
        gridCell placed (offsetX + Z.of_nat sx) (offsetY + Z.of_nat sy) = c) /\
     (forall gx gy, inBounds gx gy ->
        (forall sx sy, occupiedAt shape sx sy ->
           ~ (gx = offsetX + Z.of_nat sx /\ gy = offsetY + Z.of_nat sy)) ->
        gridCell placed gx gy = gridCell grid gx gy)).
Proof.
  intros Hb.
  destruct (isPositionValid_total grid shape offsetX offsetY Hb) as [[|] Hv].
  - destruct (placeTetromino_valid grid shape offsetX offsetY Hb Hv)
      as (placed & Hp & Hpb & Hcells).
    exists true, placed. split; [exact Hp|]. split; [exact Hv|].
    split; [exact Hpb|]. split; [discriminate|]. intros _. split.
    + intros sx sy row c Hrow Hc Hocc.
      rewrite Hcells.
      * replace (offsetX + Z.of_nat sx - offsetX) with (Z.of_nat sx) by lia.
        replace (offsetY + Z.of_nat sy - offsetY) with (Z.of_nat sy) by lia.
        rewrite (pieceCell_occupied shape sx sy row c Hrow Hc Hocc). reflexivity.
      * apply (valid_inBounds grid shape offsetX offsetY Hv).
        exists row, c. auto.
    + intros gx gy Hi Hfree. rewrite (Hcells gx gy Hi).
      destruct (pieceCell shape (gx - offsetX) (gy - offsetY)) as [c|] eqn:Hpc;
        [|reflexivity].
      exfalso. destruct (pieceCell_inv _ _ _ _ Hpc) as (sx & sy & Hx & Hy & Hocc).
      apply (Hfree sx sy Hocc). lia.
  - exists false, grid. unfold placeTetromino. rewrite Hv. cbn [bind negb].
    split; [reflexivity|]. split; [reflexivity|]. split; [exact Hb|].
    split; [reflexivity|discriminate].
Qed.

(** X8.  A piece that has been placed is in the way of itself: after a
    successful [placeTetromino] of a shape with an occupied cell,
    [isPositionValid] rejects the same shape at the same position, and a
    second [placeTetromino] there returns [false] and leaves the grid as the
    first one left it. *)
Theorem placeTetromino_twice (grid placed : Grid) (shape : BlockShape)
    (offsetX offsetY : Z) :
  is_board grid -> hasOccupied shape ->
  placeTetromino grid shape offsetX offsetY = Ret (true, placed) ->
  isPositionValid placed shape offsetX offsetY = Ret false /\
  placeTetromino placed shape offsetX offsetY = Ret (false, placed).
Proof.
  intros Hb (sx & sy & Hocc) Hp.
  assert (Hv : isPositionValid grid shape offsetX offsetY = Ret true).
  { unfold placeTetromino in Hp.
    destruct (isPositionValid grid shape offsetX offsetY) as [[|]|e];
      [reflexivity|discriminate|discriminate]. }
  destruct (placeTetromino_valid grid shape offsetX offsetY Hb Hv)
    as (placed' & Hp' & Hpb & Hcells).
  rewrite Hp in Hp'. injection Hp' as <-.
  assert (Hinv : isPositionValid placed shape offsetX offsetY = Ret false).
  { destruct (isPositionValid_total placed shape offsetX offsetY Hpb) as [[|] Hv2];
      [|exact Hv2].
    exfalso.
    destruct (proj1 (isPositionValid_verdict _ _ _ _ _ Hv2) eq_refl) as [_ Hov].
    apply Hov. exists sx, sy. split; [exact Hocc|].
    pose proof (valid_inBounds grid shape offsetX offsetY Hv sx sy Hocc) as Hi.
    split; [exact Hi|]. rewrite (Hcells _ _ Hi).
    destruct Hocc as (row & c & Hrow & Hc & Ho).
    replace (offsetX + Z.of_nat sx - offsetX) with (Z.of_nat sx) by lia.
    replace (offsetY + Z.of_nat sy - offsetY) with (Z.of_nat sy) by lia.
    rewrite (pieceCell_occupied shape sx sy row c Hrow Hc Ho). exact Ho. }
  split; [exact Hinv|].
  unfold placeTetromino. rewrite Hinv. reflexivity.
Qed.

(** X9.  At a valid position [lockPiece] is [placeTetromino] followed by
    [clearLines]: on a board, when [isPositionValid] accepts the position,
    the grid that [lockPiece] leaves and the number of lines it reports are
    those of [clearLines] run on the grid that [placeTetromino] leaves. *)
Theorem lockPiece_places_then_clears (grid : Grid) (shape : BlockShape)
    (offsetX offsetY : Z) :
  is_board grid ->
  isPositionValid grid shape offsetX offsetY = Ret true ->
  exists placed n cleared,
    placeTetromino grid shape offsetX offsetY = Ret (true, placed) /\
    LockAndClear.clearLines placed = Ret (n, cleared) /\
    lockPiece grid shape offsetX offsetY =
      Ret ({| linesCleared := n |}, cleared).
Proof.
  intros Hb Hv.
  destruct (mergeRows_board offsetX offsetY shape grid 0 Hb)
    as (merged & Hm & [Hlen _] & _).
  exists merged, (Z.of_nat (completeRows merged)), (clearedGrid merged).
  split; [|split].
  - unfold placeTetromino. rewrite Hv. cbn [bind negb].
    rewrite placeRows_merge, Hm; [reflexivity|].
    intros sx sy Hocc. replace (0 + Z.of_nat sy) with (Z.of_nat sy) by lia.
    apply (valid_inBounds grid shape offsetX offsetY Hv). exact Hocc.
  - apply clearLines_spec. exact Hlen.
  - unfold lockPiece. rewrite Hm. cbn [bind].
    rewrite clearLines_spec by exact Hlen. reflexivity.
Qed.

(** ** removeRows *)

(** The shift loop entered at [row] copies each of the rows 0 .. [row - 1]
    one place down; row 0 stays where it is, to be blanked next. *)
Lemma shiftDown_spec (row : nat) :
  forall grid : Grid, (row <= length grid)%nat ->
  shiftDown row grid = Ret (take 1 grid ++ take row grid ++ drop (S row) grid).
Proof.
  induction row as [|above IH]; intros grid Hlen.
  - cbn [shiftDown]. rewrite take_0, app_nil_l, take_drop. reflexivity.
  - cbn [shiftDown].
    destruct (lookup_lt_is_Some_2 grid above) as [r Hr]; [lia|].
    rewrite Hr.
    assert (Hgrid2 :
      (if (S above <? length grid)%nat then <[S above := r]> grid
       else grid ++ [r]) =
      (take above grid ++ [r]) ++ r :: drop (S (S above)) grid).
    { rewrite <- (take_S_r grid above r Hr).
      destruct (S above <? length grid)%nat eqn:E.
      - apply Nat.ltb_lt in E. apply insert_take_drop. exact E.
      - apply Nat.ltb_ge in E. rewrite take_ge, drop_ge by lia. reflexivity. }
    rewrite Hgrid2. clear Hgrid2.
    assert (Hta : length (take above grid) = above) by (rewrite length_take; lia).
    rewrite IH by (rewrite !length_app, Hta; cbn; lia).
    f_equal. rewrite (take_S_r grid above r Hr).
    assert (H1 : take 1 ((take above grid ++ [r]) ++ r :: drop (S (S above)) grid)
                 = take 1 grid).
    { destruct above as [|above'].
      - rewrite take_0. cbn. destruct grid as [|g0 rest]; [discriminate|].
        cbn in Hr. injection Hr as ->. reflexivity.
      - rewrite <- !app_assoc. rewrite take_app_le by (rewrite Hta; lia).
        rewrite take_take. f_equal. }
    rewrite H1. f_equal.
    rewrite <- !app_assoc. rewrite take_app_length' by (symmetry; exact Hta).
    f_equal. cbn [app].
    change (r :: r :: drop (S (S above)) grid)
      with ([r] ++ r :: drop (S (S above)) grid).
    rewrite app_assoc.
    rewrite drop_app_length' by (rewrite length_app, Hta; cbn; lia).
    reflexivity.
Qed.

(** Removal of one row: an empty row on top of what [splice] leaves. *)
Lemma removeRow_spec (rowIndex : Z) (grid : Grid) :
  (Z.to_nat rowIndex <= length grid)%nat ->
  removeRow rowIndex grid = Ret (emptyRow :: splice1 grid (Z.to_nat rowIndex)).
Proof.
  intros H. unfold removeRow. rewrite shiftDown_spec by exact H.
  cbn [bind]. unfold splice1. destruct grid as [|g0 rest].
  - cbn in H. replace (Z.to_nat rowIndex) with 0%nat by lia. reflexivity.
  - reflexivity.
Qed.

Lemma removeRow_throws (rowIndex : Z) (grid : Grid) :
  (length grid < Z.to_nat rowIndex)%nat ->
  removeRow rowIndex grid = Throw TypeError.
Proof.
  intros H. unfold removeRow.
  destruct (Z.to_nat rowIndex) as [|above] eqn:E; [lia|].
  cbn [shiftDown]. rewrite lookup_ge_None_2 by lia. reflexivity.
Qed.

Lemma removeRow_board (rowIndex : Z) (grid : Grid) :
  is_board grid -> rowIndex < GRID_HEIGHT ->
  exists grid', removeRow rowIndex grid = Ret grid' /\ is_board grid'.
Proof.
  intros [Hlen Hrows] Hk. unfold GRID_HEIGHT in *.
  change (Z.to_nat 20) with 20%nat in Hlen.
  rewrite removeRow_spec by lia. eexists. split; [reflexivity|].
  unfold splice1. split.
  - cbn [length]. rewrite length_app, length_take, length_drop.
    change (Z.to_nat GRID_HEIGHT) with 20%nat. lia.
  - constructor; [reflexivity|]. apply Forall_app. split.
    + apply Forall_take. exact Hrows.
    + apply Forall_drop. exact Hrows.
Qed.

Lemma Forall_insertDesc (P : Z -> Prop) (a : Z) (sorted : list Z) :
  P a -> Forall P sorted -> Forall P (insertDesc a sorted).
Proof.
  intros Ha. induction 1 as [|b rest Hb Hrest IH]; cbn [insertDesc].
  - constructor; [exact Ha|constructor].
  - destruct (b <? a); repeat constructor; auto.
Qed.

Lemma Forall_sortDesc (P : Z -> Prop) (l : list Z) :
  Forall P l -> Forall P (sortDesc l).
Proof.
  unfold sortDesc. induction 1 as [|a rest Ha _ IH]; cbn [foldr].
  - constructor.
  - apply Forall_insertDesc; assumption.
Qed.

Lemma length_insertDesc (a : Z) (sorted : list Z) :
  length (insertDesc a sorted) = S (length sorted).
Proof.
  induction sorted as [|b rest IH]; cbn [insertDesc]; [reflexivity|].
  destruct (b <? a); cbn [length]; [reflexivity|]. rewrite IH. reflexivity.
Qed.

Lemma removeAll_board (indices : list Z) :
  Forall (fun k => k < GRID_HEIGHT) indices ->
  forall grid, is_board grid ->
  exists grid', forEachM indices removeRow grid = Ret grid' /\ is_board grid'.
Proof.
  induction 1 as [|k rest Hk _ IH]; intros grid Hb; cbn [forEachM].
  - exists grid. auto.
  - destruct (removeRow_board k grid Hb Hk) as (g1 & H1 & Hb1).
    rewrite H1. cbn [bind]. apply IH. exact Hb1.
Qed.

(** X10.  [removeRows] with one index inside the grid: the row at the index is
    removed, the rows above it move one place down, an empty row comes on
    top, the rows below stay, and 1 is returned. *)
Theorem removeRows_single (grid : Grid) (rowIndex : Z) :
  0 <= rowIndex < Z.of_nat (length grid) ->
  removeRows grid [rowIndex] =
    Ret (1, emptyRow :: take (Z.to_nat rowIndex) grid ++
                         drop (S (Z.to_nat rowIndex)) grid).
Proof.
  intros H. unfold removeRows. cbn [sortDesc foldr insertDesc forEachM].
  rewrite removeRow_spec by lia. reflexivity.
Qed.

(** X11.  [removeRows] with one index outside the grid.  A negative index
    blanks the top row and moves nothing.  The index [grid.length] makes the
    grid one row longer: an empty row on top of all the rows.  A larger
    index is a TypeError. *)
Theorem removeRows_outside (grid : Grid) (rowIndex : Z) :
  (rowIndex < 0 -> removeRows grid [rowIndex] = Ret (1, emptyRow :: drop 1 grid)) /\
  (rowIndex = Z.of_nat (length grid) ->
     removeRows grid [rowIndex] = Ret (1, emptyRow :: grid)) /\
  (Z.of_nat (length grid) < rowIndex ->
     removeRows grid [rowIndex] = Throw TypeError).
Proof.
  unfold removeRows. cbn [sortDesc foldr insertDesc forEachM].
  split; [|split]; intros H.
  - rewrite removeRow_spec by lia.
    replace (Z.to_nat rowIndex) with 0%nat by lia. reflexivity.
  - rewrite removeRow_spec by lia. unfold splice1.
    rewrite take_ge, drop_ge by lia. rewrite app_nil_r. reflexivity.
  - rewrite removeRow_throws by lia. reflexivity.
Qed.

Lemma sortDesc_pair (a b : Z) :
  a <= b -> sortDesc [a; b] = [b; a] /\ sortDesc [b; a] = [b; a].
Proof.
  intros H. unfold sortDesc. cbn [foldr insertDesc]. split.
  - test_false (b <? a). reflexivity.
  - destruct (a <? b) eqn:E; [reflexivity|]. tests.
    replace a with b by lia. reflexivity.
Qed.

(** X12.  [removeRows] with two indices [i <= j] inside the grid, given in
    either order.  The indices are processed from the larger to the smaller,
    and the removal at [j] has moved the rows above it one place down before
    the removal at [i] takes place: the rows removed are those that were at
    [j] and at [i - 1].  The row that was at [i] stays in the grid, one
    place lower. *)
Theorem removeRows_pair (grid : Grid) (i j : nat) :
  (0 < i <= j)%nat -> (j < length grid)%nat ->
  let left := emptyRow :: emptyRow :: take (i - 1) grid ++
                drop i (take j grid) ++ drop (S j) grid in
  removeRows grid [Z.of_nat i; Z.of_nat j] = Ret (2, left) /\
  removeRows grid [Z.of_nat j; Z.of_nat i] = Ret (2, left) /\
  length left = length grid /\
  ((i < j)%nat -> left !! S i = grid !! i).
Proof.
  intros Hij Hj left.
  assert (Hrun : forEachM [Z.of_nat j; Z.of_nat i] removeRow grid = Ret left).
  { cbn [forEachM]. rewrite removeRow_spec by lia. cbn [bind].
    rewrite removeRow_spec.
    2:{ cbn [length]. unfold splice1.
        rewrite length_app, length_take, length_drop. lia. }
    cbn [bind]. rewrite !Nat2Z.id. unfold left, splice1. f_equal.
    destruct i as [|i']; [lia|].
    replace (S i' - 1)%nat with i' by lia.
    cbn [take drop app]. f_equal.
    rewrite take_app_le by (rewrite length_take; lia).
    rewrite take_take, drop_app_le by (rewrite length_take; lia).
    replace (i' `min` j)%nat with i' by lia. reflexivity. }
  destruct (sortDesc_pair (Z.of_nat i) (Z.of_nat j)) as [Hs1 Hs2]; [lia|].
  split; [|split; [|split]].
  - unfold removeRows. rewrite Hs1, Hrun. reflexivity.
  - unfold removeRows. rewrite Hs2, Hrun. reflexivity.
  - unfold left. cbn [length].
    rewrite !length_app, !length_take, !length_drop, length_take. lia.
  - intros Hlt. unfold left.
    change (emptyRow :: emptyRow :: ?l) with ([emptyRow; emptyRow] ++ l).
    rewrite lookup_app_r by (cbn; lia).
    rewrite lookup_app_r by (rewrite length_take; cbn; lia).
    rewrite length_take. cbn [length].
    replace (S i - 2 - (i - 1) `min` length grid)%nat with 0%nat by lia.
    rewrite lookup_app_l by (rewrite length_drop, length_take; lia).
    rewrite lookup_drop, Nat.add_0_r. apply lookup_take_lt. exact Hlt.
Qed.

(** X13.  On a board, [removeRows] with indices below 20, whatever their
    order, their sign and their repetitions, returns the length of the list
    it was given and leaves a board. *)
Theorem removeRows_board (grid : Grid) (rowIndices : list Z) :
  is_board grid ->
  Forall (fun k => k < GRID_HEIGHT) rowIndices ->
  exists grid',
    removeRows grid rowIndices = Ret (Z.of_nat (length rowIndices), grid') /\
    is_board grid'.
Proof.
  intros Hb Hall. unfold removeRows.
  destruct (removeAll_board (sortDesc rowIndices)
              (Forall_sortDesc _ _ Hall) grid Hb) as (grid' & Hrun & Hb').
  rewrite Hrun. exists grid'. split; [reflexivity|exact Hb'].
Qed.

Lemma completedFrom_single (rows : Grid) :
  forall start : nat, completeRows rows = 1%nat ->
  exists (k : nat) r,
    rows !! k = Some r /\ rowComplete r = true /\
    completedFrom start rows = [Z.of_nat (start + k)] /\
    keptRows rows = take k rows ++ drop (S k) rows.
Proof.
  induction rows as [|r rest IH]; intros start H; [discriminate|].
  unfold completeRows in H. cbn [List.filter] in H.
  cbn [completedFrom]. unfold keptRows. cbn [List.filter].
  destruct (rowComplete r) eqn:Hc; cbn [negb].
  - cbn [length] in H. assert (Hrest : completeRows rest = 0%nat)
      by (unfold completeRows; lia).
    exists 0%nat, r. repeat split; auto.
    + rewrite (completedFrom_none rest (S start) Hrest). f_equal. lia.
    + cbn [take drop app]. apply keptRows_no_complete. exact Hrest.
  - destruct (IH (S start) H) as (k & r' & Hk & Hc' & Hcf & Hkept).
    exists (S k), r'. repeat split; auto.
    + rewrite Hcf. f_equal. lia.
    + cbn [take drop app]. f_equal. exact Hkept.
Qed.

(** X14.  Detection and removal against [clearLines].  On a grid of 20 rows
    with at most one complete row, [removeRows] applied to the list that
    [findCompletedRows] returns gives the count and the grid that
    [clearLines] gives. *)
Theorem removeRows_clears_one (grid : Grid) :
  length grid = 20%nat -> (completeRows grid <= 1)%nat ->
  exists rows n grid',
    findCompletedRows grid = Ret rows /\
    removeRows grid rows = Ret (n, grid') /\
    LockAndClear.clearLines grid = Ret (n, grid').
Proof.
  intros Hlen Hone.
  assert (Hfind : findCompletedRows grid = Ret (completedFrom 0 grid)).
  { rewrite findCompletedRows_take
      by (change (Z.to_nat GRID_HEIGHT) with 20%nat; lia).
    rewrite take_ge by (change (Z.to_nat GRID_HEIGHT) with 20%nat; lia).
    reflexivity. }
  rewrite clearLines_spec by exact Hlen.
  destruct (completeRows grid) as [|[|n]] eqn:Hc; [| |lia].
  - exists [], 0, grid. split; [|split].
    + rewrite Hfind, completedFrom_none by exact Hc. reflexivity.
    + reflexivity.
    + rewrite <- Hc. rewrite clearedGrid_no_complete by exact Hc.
      rewrite Hc. reflexivity.
  - destruct (completedFrom_single grid 0 Hc) as (k & r & Hk & Hr & Hcf & Hkept).
    exists [Z.of_nat k], 1, (emptyRow :: take k grid ++ drop (S k) grid).
    split; [|split].
    + rewrite Hfind, Hcf. reflexivity.
    + unfold removeRows. cbn [sortDesc foldr insertDesc forEachM].
      apply lookup_lt_Some in Hk.
      rewrite removeRow_spec by lia. rewrite Nat2Z.id. reflexivity.
    + unfold clearedGrid. rewrite Hc, Hkept. reflexivity.
Qed.

(** ** The drop module *)

(** A shape with an occupied cell does not fit at or below row 20. *)
Lemma below_floor_invalid (grid : Grid) (shape : BlockShape) (offsetX y : Z) :
  is_board grid -> hasOccupied shape -> GRID_HEIGHT <= y ->
  isPositionValid grid shape offsetX y = Ret false.
Proof.
  intros Hb (sx & sy & Hocc) Hy.
  destruct (isPositionValid_total grid shape offsetX y Hb) as [[|] Hv];
    [|exact Hv].
  exfalso. pose proof (valid_inBounds grid shape offsetX y Hv sx sy Hocc) as [_ Hi].
  lia.
Qed.

(** The loop of [calculateGhostPosition] ends, at the first row below which
    the shape does not fit. *)
Lemma ghostLoop_spec (grid : Grid) (shape : BlockShape) (offsetX : Z) :
  is_board grid -> hasOccupied shape ->
  forall (n : nat) (y : Z), (Z.to_nat (GRID_HEIGHT - y) <= n)%nat ->
  exists ghostY,
    y <= ghostY /\
    (forall fuel, (n < fuel)%nat ->
       Drop.ghostLoop fuel grid shape offsetX y = Some (Ret ghostY)) /\
    isPositionValid grid shape offsetX (ghostY + 1) = Ret false /\
    (forall y', y < y' <= ghostY ->
       isPositionValid grid shape offsetX y' = Ret true).
Proof.
  intros Hb Hocc. induction n as [|n IH]; intros y Hn.
  - assert (Hinv : isPositionValid grid shape offsetX (y + 1) = Ret false)
      by (apply below_floor_invalid; auto; lia).
    exists y. split; [lia|]. split; [|split; [exact Hinv|intros; lia]].
    intros [|fuel] Hf; [lia|]. cbn [Drop.ghostLoop]. rewrite Hinv. reflexivity.
  - destruct (isPositionValid_total grid shape offsetX (y + 1) Hb) as [[|] Hv].
    + destruct (IH (y + 1)) as (g & Hg & Hrun & Hstop & Hway); [lia|].
      exists g. split; [lia|]. split; [|split; [exact Hstop|]].
      * intros [|fuel] Hf; [lia|]. cbn [Drop.ghostLoop]. rewrite Hv.
        apply Hrun. lia.
      * intros y' Hy'. destruct (Z.eq_dec y' (y + 1)) as [->|Hne];
          [exact Hv|apply Hway; lia].
    + exists y. split; [lia|]. split; [|split; [exact Hv|intros; lia]].
      intros [|fuel] Hf; [lia|]. cbn [Drop.ghostLoop]. rewrite Hv. reflexivity.
Qed.

(** X15.  [calculateGhostPosition] on a board, for a shape with an occupied
    cell: the loop ends (every number of turns above [20 - offsetY] is
    enough) and returns a row [ghostY], not above [offsetY], such that the
    shape fits at every row after [offsetY] up to [ghostY] and does not fit
    one row further down.  The piece has not moved exactly when [canMoveDown]
    is [false]; if it fits where it starts, it fits where it lands. *)
Theorem calculateGhostPosition_spec (grid : Grid) (shape : BlockShape)
    (offsetX offsetY : Z) :
  is_board grid -> hasOccupied shape ->
  exists ghostY,
    (forall fuel, (Z.to_nat (GRID_HEIGHT - offsetY) < fuel)%nat ->
       Drop.calculateGhostPosition fuel grid shape offsetX offsetY =
         Some (Ret ghostY)) /\
    offsetY <= ghostY /\
    isPositionValid grid shape offsetX (ghostY + 1) = Ret false /\
    (forall y, offsetY < y <= ghostY ->
       isPositionValid grid shape offsetX y = Ret true) /\
    (ghostY = offsetY <-> canMoveDown grid shape offsetX offsetY = Ret false) /\
    (isPositionValid grid shape offsetX offsetY = Ret true ->
     isPositionValid grid shape offsetX ghostY = Ret true).
Proof.
  intros Hb Hocc.
  destruct (ghostLoop_spec grid shape offsetX Hb Hocc
              (Z.to_nat (GRID_HEIGHT - offsetY)) offsetY (Nat.le_refl _))
    as (g & Hg & Hrun & Hstop & Hway).
  exists g. split; [exact Hrun|]. split; [exact Hg|].
  split; [exact Hstop|]. split; [exact Hway|]. split.
  - unfold canMoveDown. split.
    + intros ->. exact Hstop.
    + intros Hdown. destruct (Z.eq_dec g offsetY) as [|Hne]; [assumption|].
      rewrite (Hway (offsetY + 1)) in Hdown by lia. discriminate.
  - intros Hstart. destruct (Z.eq_dec g offsetY) as [->|Hne]; [exact Hstart|].
    apply Hway. lia.
Qed.

(** X16.  [calculateGhostPosition] with a shape that has no occupied cell
    never returns: on a board the test of its loop holds at every row, so
    that no number of turns ends the loop. *)
Theorem calculateGhostPosition_diverges (grid : Grid) (shape : BlockShape)
    (offsetX offsetY : Z) :
  is_board grid -> ~ hasOccupied shape ->
  forall fuel, Drop.calculateGhostPosition fuel grid shape offsetX offsetY = None.
Proof.
  intros Hb Hnone fuel. unfold Drop.calculateGhostPosition.
  revert offsetY. induction fuel as [|fuel IH]; intros offsetY; [reflexivity|].
  cbn [Drop.ghostLoop].
  destruct (isPositionValid_total grid shape offsetX (offsetY + 1) Hb) as [b Hv].
  assert (b = true) as ->.
  { apply (isPositionValid_verdict _ _ _ _ _ Hv). split.
    - intros (sx & sy & Hocc & _). apply Hnone. exists sx, sy. exact Hocc.
    - intros (sx & sy & Hocc & _). apply Hnone. exists sx, sy. exact Hocc. }
  rewrite Hv. apply IH.
Qed.

(** The loop of [hardDrop] is the loop of [calculateGhostPosition], with
    the distance counted and the row kept in the configuration. *)
Lemma hardDropLoop_ghost (fuel : nat) :
  forall (config : Drop.DropConfig) (dropDistance : Z),
  Drop.hardDropLoop fuel config dropDistance =
    match Drop.ghostLoop fuel (Drop.grid config) (Drop.shape config)
            (Drop.offsetX config) (Drop.offsetY config) with
    | None => None
    | Some (Throw e) => Some (Throw e)
    | Some (Ret ghostY) =>
        Some (Ret (dropDistance + (ghostY - Drop.offsetY config),
                   {| Drop.grid := Drop.grid config;
                      Drop.shape := Drop.shape config;
                      Drop.offsetX := Drop.offsetX config;
                      Drop.offsetY := ghostY;
                      Drop.dropInterval := Drop.dropInterval config |}))
    end.
Proof.
  induction fuel as [|fuel IH]; intros config dropDistance; [reflexivity|].
  cbn [Drop.hardDropLoop Drop.ghostLoop].
  destruct (isPositionValid (Drop.grid config) (Drop.shape config)
              (Drop.offsetX config) (Drop.offsetY config + 1)) as [[|]|e].
  - rewrite IH. cbn [Drop.stepDown Drop.grid Drop.shape Drop.offsetX Drop.offsetY
                     Drop.dropInterval].
    destruct (Drop.ghostLoop fuel (Drop.grid config) (Drop.shape config)
                (Drop.offsetX config) (Drop.offsetY config + 1)) as [[g|e]|];
      [|reflexivity|reflexivity].
    repeat (f_equal; try lia).
  - destruct config. cbn. repeat (f_equal; try lia).
  - reflexivity.
Qed.

(** X17.  [hardDrop] on a board, for a shape with an occupied cell, with
    enough turns for its loop: the piece is left at the row that
    [calculateGhostPosition] computes, the distance returned is the number
    of rows between the two, which is not negative, and the grid is the one
    that [placeTetromino] leaves at that row.  When the piece fits where it
    starts, it is written into the grid where it lands. *)
Theorem hardDrop_spec (config : Drop.DropConfig) (fuel : nat) :
  is_board (Drop.grid config) -> hasOccupied (Drop.shape config) ->
  (Z.to_nat (GRID_HEIGHT - Drop.offsetY config) < fuel)%nat ->
  exists ghostY ok placed,
    Drop.calculateGhostPosition fuel (Drop.grid config) (Drop.shape config)
      (Drop.offsetX config) (Drop.offsetY config) = Some (Ret ghostY) /\
    placeTetromino (Drop.grid config) (Drop.shape config)
      (Drop.offsetX config) ghostY = Ret (ok, placed) /\
    Drop.hardDrop fuel config =
      Some (Ret (ghostY - Drop.offsetY config,
                 {| Drop.grid := placed;
                    Drop.shape := Drop.shape config;
                    Drop.offsetX := Drop.offsetX config;
                    Drop.offsetY := ghostY;
                    Drop.dropInterval := Drop.dropInterval config |})) /\
    0 <= ghostY - Drop.offsetY config /\
    (isPositionValid (Drop.grid config) (Drop.shape config)
       (Drop.offsetX config) (Drop.offsetY config) = Ret true -> ok = true).
Proof.
  intros Hb Hocc Hfuel.
  destruct (ghostLoop_spec (Drop.grid config) (Drop.shape config)
              (Drop.offsetX config) Hb Hocc
              (Z.to_nat (GRID_HEIGHT - Drop.offsetY config))
              (Drop.offsetY config) (Nat.le_refl _))
    as (g & Hg & Hrun & Hstop & Hway).
  specialize (Hrun fuel Hfuel).
  destruct (isPositionValid_total (Drop.grid config) (Drop.shape config)
              (Drop.offsetX config) g Hb) as [ok Hv].
  assert (Hplace : exists placed,
    placeTetromino (Drop.grid config) (Drop.shape config)
      (Drop.offsetX config) g = Ret (ok, placed)).
  { destruct ok.
    - destruct (placeTetromino_valid _ _ _ _ Hb Hv) as (placed & Hp & _).
      exists placed. exact Hp.
    - exists (Drop.grid config). unfold placeTetromino. rewrite Hv. reflexivity. }
  destruct Hplace as (placed & Hp).
  exists g, ok, placed. split; [exact Hrun|]. split; [exact Hp|].
  split; [|split; [lia|]].
  - unfold Drop.hardDrop. rewrite hardDropLoop_ghost, Hrun.
    cbn [Drop.grid Drop.shape Drop.offsetX Drop.offsetY Drop.dropInterval].
    rewrite Hp. cbn [bind snd Drop.withGrid Drop.grid Drop.shape Drop.offsetX
                     Drop.offsetY Drop.dropInterval].
    repeat (f_equal; try lia).
  - intros Hstart. destruct (Z.eq_dec g (Drop.offsetY config)) as [Heq|Hne].
    + rewrite Heq in Hv. congruence.
    + rewrite (Hway g) in Hv by lia. congruence.
Qed.

(** ** The rotation module: rotate180, getRotationPreview, canRotateAtAll *)

Import RotationOps.

Lemma rotateShape_dims (shape : BlockShape) (direction : Direction) :
  dims (length shape) (rotateShape shape direction).
Proof.
  pose proof (rotateShape_square shape direction) as H. unfold isSquare in H.
  rewrite rotateShape_length in H. exact H.
Qed.

(** Three turns one way are one turn the other way, for every shape. *)
Lemma rotateShape_three (shape : BlockShape) (direction : Direction) :
  rotateShape (rotateShape (rotateShape shape direction) direction) direction =
    rotateShape shape (opposite direction).
Proof.
  apply (dims_ext (length shape)).
  - pose proof (rotateShape_dims
      (rotateShape (rotateShape shape direction) direction) direction) as H.
    rewrite !rotateShape_length in H. exact H.
  - apply rotateShape_dims.
  - intros r c Hr Hc. destruct direction; cbn [opposite].
    + rewrite rotateShape_clockwise_at by (rewrite !rotateShape_length; lia).
      rewrite !rotateShape_length.
      rewrite rotateShape_twice_at by lia.
      rewrite rotateShape_counterClockwise_at by lia.
      f_equal. lia.
    + rewrite rotateShape_counterClockwise_at by (rewrite !rotateShape_length; lia).
      rewrite !rotateShape_length.
      rewrite rotateShape_twice_at by lia.
      rewrite rotateShape_clockwise_at by lia.
      f_equal. lia.
Qed.

(** Two turns are the same in both directions. *)
Lemma rotateShape_two (shape : BlockShape) (direction : Direction) :
  rotateShape (rotateShape shape direction) direction = rotate180 shape.
Proof.
  unfold rotate180. apply (dims_ext (length shape)).
  - pose proof (rotateShape_dims (rotateShape shape direction) direction) as H.
    rewrite rotateShape_length in H. exact H.
  - pose proof (rotateShape_dims (rotateShape shape clockwise) clockwise) as H.
    rewrite rotateShape_length in H. exact H.
  - intros r c Hr Hc. rewrite !rotateShape_twice_at by lia. reflexivity.
Qed.

(** X18.  [rotate180]: the result is square, of the size of the shape, and
    holds at row [r], column [c] what the shape holds at row [n - 1 - r],
    column [n - 1 - c]; two counter-clockwise turns give the same result;
    on a square shape, [rotate180] applied twice gives the shape back. *)
Theorem rotate180_spec (shape : BlockShape) :
  let n := length shape in
  dims n (rotate180 shape) /\
  (forall r c, (r < n)%nat -> (c < n)%nat ->
     shapeCell (rotate180 shape) r c = shapeCell shape (n - 1 - r) (n - 1 - c)) /\
  rotate180 shape =
    rotateShape (rotateShape shape counterClockwise) counterClockwise /\
  (isSquare shape -> rotate180 (rotate180 shape) = shape).
Proof.
  intros n. split; [|split; [|split]].
  - unfold rotate180.
    pose proof (rotateShape_dims (rotateShape shape clockwise) clockwise) as H.
    rewrite rotateShape_length in H. exact H.
  - intros r c Hr Hc. unfold rotate180. apply rotateShape_twice_at; assumption.
  - symmetry. apply rotateShape_two.
  - intros Hsq. unfold rotate180.
    exact (rotateShape_four shape clockwise Hsq).
Qed.

Lemma iter_turns_square (shape : BlockShape) (direction : Direction) (t : nat) :
  isSquare shape ->
  isSquare (Nat.iter t (fun s => rotateShape s direction) shape).
Proof.
  intros Hsq. destruct t as [|t]; [exact Hsq|].
  cbn [Nat.iter nat_rect]. apply rotateShape_square.
Qed.

Lemma iter_turns_succ (shape : BlockShape) (direction : Direction) (t : nat) :
  Nat.iter (S t) (fun s => rotateShape s direction) shape =
    Nat.iter t (fun s => rotateShape s direction) (rotateShape shape direction).
Proof.
  induction t as [|t IH]; [reflexivity|].
  change (Nat.iter (S (S t)) (fun s => rotateShape s direction) shape)
    with (rotateShape (Nat.iter (S t) (fun s => rotateShape s direction) shape)
            direction).
  rewrite IH. reflexivity.
Qed.

(** X19.  [getRotationPreview], turn by turn: without its third argument it
    makes one turn; with a number of turns that is not positive it returns
    the shape it was given; the turns of two calls add up; two turns are
    [rotate180], in either direction; three turns are one turn in the other
    direction. *)
Theorem getRotationPreview_turns (shape : BlockShape) (direction : Direction) :
  getRotationPreview shape direction None = rotateShape shape direction /\
  (forall times, times <= 0 ->
     getRotationPreview shape direction (Some times) = shape) /\
  (forall a b, 0 <= a -> 0 <= b ->
     getRotationPreview shape direction (Some (a + b)) =
       getRotationPreview (getRotationPreview shape direction (Some a))
         direction (Some b)) /\
  getRotationPreview shape direction (Some 2) = rotate180 shape /\
  getRotationPreview shape direction (Some 3) =
    rotateShape shape (opposite direction).
Proof.
  unfold getRotationPreview, default. cbn [from_option id].
  split; [reflexivity|]. split; [|split; [|split]].
  - intros times H. replace (Z.to_nat times) with 0%nat by lia. reflexivity.
  - intros a b Ha Hb. rewrite Z2Nat.inj_add by lia.
    rewrite Nat.add_comm. apply Nat.iter_add.
  - apply rotateShape_two.
  - apply rotateShape_three.
Qed.

(** X20.  [getRotationPreview] goes round in four turns: four more turns
    change nothing, from the first turn on for every shape and from no turn
    at all for a square one; on a square shape, as many turns in the other
    direction give the shape back. *)
Theorem getRotationPreview_cycle (shape : BlockShape) (direction : Direction) :
  (forall times, 1 <= times ->
     getRotationPreview shape direction (Some (times + 4)) =
       getRotationPreview shape direction (Some times)) /\
  (isSquare shape ->
   (forall times, 0 <= times ->
      getRotationPreview shape direction (Some (times + 4)) =
        getRotationPreview shape direction (Some times)) /\
   (forall times,
      getRotationPreview (getRotationPreview shape direction (Some times))
        (opposite direction) (Some times) = shape)).
Proof.
  unfold getRotationPreview, default. cbn [from_option id].
  assert (Hperiod : forall (s : BlockShape) (t : nat), isSquare s ->
    Nat.iter (t + 4) (fun s => rotateShape s direction) s =
      Nat.iter t (fun s => rotateShape s direction) s).
  { intros s t Hsq. rewrite Nat.iter_add.
    rewrite (rotateShape_four s direction Hsq). reflexivity. }
  split; [|intros Hsq; split].
  - intros times H.
    replace (Z.to_nat (times + 4)) with (S (Z.to_nat (times - 1) + 4)) by lia.
    replace (Z.to_nat times) with (S (Z.to_nat (times - 1))) by lia.
    rewrite !iter_turns_succ. apply Hperiod. apply rotateShape_square.
  - intros times H. rewrite Z2Nat.inj_add by lia. apply Hperiod. exact Hsq.
  - intros times. generalize (Z.to_nat times) as t. clear times.
    induction t as [|t IH]; [reflexivity|].
    rewrite iter_turns_succ.
    change (Nat.iter (S t) (fun s => rotateShape s direction) shape)
      with (rotateShape (Nat.iter t (fun s => rotateShape s direction) shape)
              direction).
    pose proof (iter_turns_square shape direction t Hsq) as Ht.
    destruct (rotateShape_inverse _ Ht) as [Hcw Hccw].
    destruct direction; cbn [opposite] in *.
    + rewrite Hcw. exact IH.
    + rewrite Hccw. exact IH.
Qed.

(** On a board [attemptRotation] returns, and reports [valid] exactly when
    the rotated shape fits at one of the five columns it tests. *)
Lemma attemptRotation_valid (grid : Grid) (shape : BlockShape)
    (offsetX offsetY : Z) (direction : Direction) :
  is_board grid ->
  exists res,
    attemptRotation grid shape offsetX offsetY direction = Ret res /\
    (valid res = true <->
     exists kick, kick ∈ kickCandidates /\
       isPositionValid grid (rotateShape shape direction) (offsetX + kick) offsetY
         = Ret true).
Proof.
  intros Hb. unfold attemptRotation, kickCandidates.
  set (rot := rotateShape shape direction).
  destruct (isPositionValid_total grid rot offsetX offsetY Hb) as [[|] H0];
    rewrite H0; cbn [bind].
  - eexists. split; [reflexivity|]. cbn [valid]. split; [|reflexivity].
    intros _. exists 0. split; [apply elem_of_cons; left; reflexivity|].
    rewrite Z.add_0_r. exact H0.
  - destruct (kicks_board grid rot offsetX offsetY Hb wallKickOffsets)
      as [(pre & kick & post & Heq & Hpre & Hkick) | Hall].
    + rewrite Heq, (tryWallKicks_first grid rot offsetX offsetY pre kick post Hpre Hkick).
      cbn [bind]. eexists. split; [reflexivity|]. cbn [valid].
      split; [|reflexivity]. intros _. exists kick. split; [|exact Hkick].
      apply elem_of_cons. right.
      apply elem_of_app. right. apply elem_of_cons. left. reflexivity.
    + rewrite (tryWallKicks_none grid rot offsetX offsetY wallKickOffsets Hall).
      cbn [bind]. eexists. split; [reflexivity|]. cbn [valid].
      split; [discriminate|]. intros (kick & Hk & Hv).
      apply elem_of_cons in Hk. destruct Hk as [-> | Hk].
      * rewrite Z.add_0_r in Hv. congruence.
      * rewrite Forall_forall in Hall. rewrite (Hall kick Hk) in Hv. discriminate.
Qed.

(** X21.  [canRotateAtAll] on a board returns, and returns [true] exactly
    when [canRotate] accepts the shape, turned one way or the other, at the
    unchanged column or at one of the wall kicks +1, -1, +2, -2, row
    unchanged. *)
Theorem canRotateAtAll_spec (grid : Grid) (shape : BlockShape)
    (offsetX offsetY : Z) :
  is_board grid ->
  exists b,
    canRotateAtAll grid shape offsetX offsetY = Ret b /\
    (b = true <->
     exists direction kick, kick ∈ [0; 1; -1; 2; -2] /\
       canRotate grid (rotateShape shape direction) (offsetX + kick) offsetY
         = Ret true).
Proof.
  intros Hb. unfold canRotateAtAll, canRotate.
  destruct (attemptRotation_valid grid shape offsetX offsetY clockwise Hb)
    as (r1 & H1 & Hiff1).
  destruct (attemptRotation_valid grid shape offsetX offsetY counterClockwise Hb)
    as (r2 & H2 & Hiff2).
  change kickCandidates with [0; 1; -1; 2; -2] in *.
  rewrite H1. cbn [bind]. destruct (valid r1) eqn:Hv1.
  - exists true. split; [reflexivity|]. split; [|reflexivity]. intros _.
    destruct (proj1 Hiff1 eq_refl) as (kick & Hk & Hv).
    exists clockwise, kick. auto.
  - rewrite H2. cbn [bind]. exists (valid r2). split; [reflexivity|].
    rewrite Hiff2. split.
    + intros (kick & Hk & Hv). exists counterClockwise, kick. auto.
    + intros ([|] & kick & Hk & Hv).
      * assert (false = true) by (apply Hiff1; exists kick; auto). discriminate.
      * exists kick. auto.
Qed.

(** ** The rotation module: the SRS kicks *)

Lemma tryKicksSRS_found (grid : Grid) (rot : BlockShape)
    (offsetX offsetY newRot : Z) (offsets : list (Z * Z)) :
  forall res,
  tryKicksSRS grid rot offsetX offsetY newRot offsets = Ret (Some res) ->
  exists pre kick post,
    offsets = pre ++ kick :: post /\
    Forall (fun k => isPositionValid grid rot (offsetX + fst k) (offsetY + snd k)
                     = Ret false) pre /\
    isPositionValid grid rot (offsetX + fst kick) (offsetY + snd kick) = Ret true /\
    res = {| rotatedSRS := rot; xSRS := offsetX + fst kick;
             ySRS := offsetY + snd kick; validSRS := true;
             newRotation := newRot |}.
Proof.
  induction offsets as [|[kx ky] rest IH]; intros res H; [discriminate|].
  cbn [tryKicksSRS] in H.
  destruct (isPositionValid grid rot (offsetX + kx) (offsetY + ky))
    as [[|]|e] eqn:Hv; cbn [bind] in H; [| |discriminate].
  - injection H as <-. exists [], (kx, ky), rest. repeat split; auto.
  - destruct (IH res H) as (pre & kick & post & -> & Hpre & Hk & ->).
    exists ((kx, ky) :: pre), kick, post. repeat split; auto.
Qed.

Lemma tryKicksSRS_total (grid : Grid) (rot : BlockShape)
    (offsetX offsetY newRot : Z) (offsets : list (Z * Z)) :
  is_board grid ->
  exists r, tryKicksSRS grid rot offsetX offsetY newRot offsets = Ret r.
Proof.
  intros Hb. induction offsets as [|[kx ky] rest IH]; [cbn; eauto|].
  cbn [tryKicksSRS].
  destruct (isPositionValid_total grid rot (offsetX + kx) (offsetY + ky) Hb)
    as [[|] Hv]; rewrite Hv; cbn [bind]; eauto.
Qed.

(** Every list of kicks starts with no kick at all. *)
Lemma kickOffsets_head (isIPiece : bool) (direction : Direction)
    (currentRotation : Z) :
  exists rest, kickOffsets isIPiece direction currentRotation = (0, 0) :: rest.
Proof.
  unfold kickOffsets.
  destruct (kickData isIPiece !! transitionKey direction currentRotation)
    as [offsets|] eqn:E; [|eexists; reflexivity].
  destruct isIPiece; cbn [kickData] in E.
  - unfold SRS_I in E. apply elem_of_list_to_map_2 in E.
    repeat (apply elem_of_cons in E;
            destruct E as [E|E]; [injection E as _ ->; eexists; reflexivity|]).
    apply elem_of_nil in E. destruct E.
  - unfold SRS_standard in E. apply elem_of_list_to_map_2 in E.
    repeat (apply elem_of_cons in E;
            destruct E as [E|E]; [injection E as _ ->; eexists; reflexivity|]).
    apply elem_of_nil in E. destruct E.
Qed.

(** X22.  A success of [attemptRotationSRS] is sound.  When the call reports
    [valid], the shape it returns is the rotated shape, the rotation state
    is the next one, the position is the first candidate of the kick list at
    which the rotated shape fits, and [isPositionValid] accepts what is
    returned.  On a board the call always returns. *)
Theorem attemptRotationSRS_success (grid : Grid) (shape : BlockShape)
    (offsetX offsetY : Z) (direction : Direction) (currentRotation : Z)
    (isIPiece : bool) :
  (forall res,
     attemptRotationSRS grid shape offsetX offsetY direction currentRotation
       isIPiece = Ret res ->
     validSRS res = true ->
     rotatedSRS res = rotateShape shape direction /\
     newRotation res = nextRotation direction currentRotation /\
     isPositionValid grid (rotatedSRS res) (xSRS res) (ySRS res) = Ret true /\
     exists pre kick post,
       kickOffsets isIPiece direction currentRotation = pre ++ kick :: post /\
       Forall (fun k => isPositionValid grid (rotateShape shape direction)
                          (offsetX + fst k) (offsetY + snd k) = Ret false) pre /\
       xSRS res = offsetX + fst kick /\ ySRS res = offsetY + snd kick) /\
  (is_board grid ->
   exists res,
     attemptRotationSRS grid shape offsetX offsetY direction currentRotation
       isIPiece = Ret res).
Proof.
  unfold attemptRotationSRS. set (rot := rotateShape shape direction).
  split.
  - intros res Hret Hvalid.
    destruct (tryKicksSRS grid rot offsetX offsetY
                (nextRotation direction currentRotation)
                (kickOffsets isIPiece direction currentRotation))
      as [[found|]|e] eqn:Hk; cbn [bind] in Hret; [| |discriminate].
    + injection Hret as <-.
      destruct (tryKicksSRS_found _ _ _ _ _ _ _ Hk)
        as (pre & kick & post & Heq & Hpre & Hfit & ->).
      cbn [rotatedSRS newRotation xSRS ySRS].
      split; [reflexivity|]. split; [reflexivity|]. split; [exact Hfit|].
      exists pre, kick, post. auto.
    + injection Hret as <-. cbn [validSRS] in Hvalid. discriminate.
  - intros Hb.
    destruct (tryKicksSRS_total grid rot offsetX offsetY
                (nextRotation direction currentRotation)
                (kickOffsets isIPiece direction currentRotation) Hb)
      as [[found|] Hk]; rewrite Hk; cbn [bind]; eauto.
Qed.

(** X23.  [attemptRotationSRS] kicks only when it has to: when the rotated
    shape fits at the unchanged offsets, it is returned there, with the next
    rotation state, whatever the rotation state given (an index outside 0..3
    included) and for both kick tables. *)
Theorem attemptRotationSRS_in_place (grid : Grid) (shape : BlockShape)
    (offsetX offsetY : Z) (direction : Direction) (currentRotation : Z)
    (isIPiece : bool) :
  isPositionValid grid (rotateShape shape direction) offsetX offsetY = Ret true ->
  attemptRotationSRS grid shape offsetX offsetY direction currentRotation isIPiece =
    Ret {| rotatedSRS := rotateShape shape direction;
           xSRS := offsetX; ySRS := offsetY; validSRS := true;
           newRotation := nextRotation direction currentRotation |}.
Proof.
  intros Hv. unfold attemptRotationSRS.
  destruct (kickOffsets_head isIPiece direction currentRotation) as [rest ->].
  cbn [tryKicksSRS]. rewrite !Z.add_0_r, Hv. reflexivity.
Qed.

(** X24.  The rotation states and the kick tables of [attemptRotationSRS] are
    reversible.  From a state in 0..3 the next state is in 0..3, the
    opposite rotation leads back from it, and the kicks listed for the way
    back are, one by one, the kicks of the way there taken backwards. *)
Theorem srs_kicks_reversible (isIPiece : bool) (direction : Direction)
    (currentRotation : Z) :
  0 <= currentRotation < 4 ->
  let next := nextRotation direction currentRotation in
  0 <= next < 4 /\
  nextRotation (opposite direction) next = currentRotation /\
  kickOffsets isIPiece (opposite direction) next =
    map mirrored (kickOffsets isIPiece direction currentRotation).
Proof.
  intros H.
  assert (Hc : currentRotation = 0 \/ currentRotation = 1 \/
               currentRotation = 2 \/ currentRotation = 3) by lia.
  destruct Hc as [-> | [-> | [-> | ->]]]; destruct isIPiece, direction;
    vm_compute; repeat split; congruence.
Qed.

(** ** The piece catalog: bounds and names *)

Import Pieces.

Lemma boundsRow_fold (cells : list cell) :
  forall (row col : Z) (b : Bounds),
  boundsRow cells row col b = foldl extend b (occupiedInRow cells row col).
Proof.
  induction cells as [|c rest IH]; intros row col b; [reflexivity|].
  cbn [boundsRow occupiedInRow]. rewrite IH. unfold boundsCell.
  destruct (occupied c); reflexivity.
Qed.

Lemma boundsRows_fold (rows : BlockShape) :
  forall (row : Z) (b : Bounds),
  boundsRows rows row b = foldl extend b (occupiedCells rows row).
Proof.
  induction rows as [|cells rest IH]; intros row b; [reflexivity|].
  cbn [boundsRows occupiedCells]. rewrite IH, boundsRow_fold, foldl_app.
  reflexivity.
Qed.

Lemma elem_of_occupiedInRow (cells : list cell) :
  forall (row col : Z) (p : Z * Z),
  p ∈ occupiedInRow cells row col <->
  exists (k : nat) c, p = (row, col + Z.of_nat k) /\ cells !! k = Some c /\
                      occupied c = true.
Proof.
  induction cells as [|c rest IH]; intros row col p; cbn [occupiedInRow].
  - split; [intros H; apply elem_of_nil in H; destruct H|].
    intros (k & c & _ & H & _). rewrite lookup_nil in H. discriminate.
  - assert (Hrest : p ∈ occupiedInRow rest row (col + 1) <->
      exists (k : nat) c', p = (row, col + Z.of_nat (S k)) /\
                           rest !! k = Some c' /\ occupied c' = true).
    { rewrite IH. split; intros (k & c' & -> & H1 & H2); exists k, c';
        repeat split; auto; f_equal; lia. }
    destruct (occupied c) eqn:Hc.
    + rewrite elem_of_cons, Hrest. split.
      * intros [-> | (k & c' & -> & H1 & H2)].
        -- exists 0%nat, c. repeat split; auto. f_equal. lia.
        -- exists (S k), c'. repeat split; auto.
      * intros ([|k] & c' & -> & H1 & H2).
        -- left. f_equal. lia.
        -- right. exists k, c'. repeat split; auto.
    + rewrite Hrest. split.
      * intros (k & c' & -> & H1 & H2). exists (S k), c'. repeat split; auto.
      * intros ([|k] & c' & -> & H1 & H2).
        -- cbn in H1. injection H1 as <-. congruence.
        -- exists k, c'. repeat split; auto.
Qed.

Lemma elem_of_occupiedCells (rows : BlockShape) :
  forall (row : Z) (p : Z * Z),
  p ∈ occupiedCells rows row <->
  exists sx sy, p = (row + Z.of_nat sy, Z.of_nat sx) /\ occupiedAt rows sx sy.
Proof.
  induction rows as [|cells rest IH]; intros row p; cbn [occupiedCells].
  - split; [intros H; apply elem_of_nil in H; destruct H|].
    intros (sx & sy & _ & (r & c & H & _)). rewrite lookup_nil in H. discriminate.
  - rewrite elem_of_app, elem_of_occupiedInRow, IH. split.
    + intros [(k & c & -> & Hk & Hc) | (sx & sy & -> & (r & c & Hr & Hc & Ho))].
      * exists k, 0%nat. split; [f_equal; lia|]. exists cells, c. auto.
      * exists sx, (S sy). split; [f_equal; lia|]. exists r, c. auto.
    + intros (sx & [|sy] & -> & (r & c & Hr & Hc & Ho)).
      * left. cbn in Hr. injection Hr as <-. exists sx, c.
        split; [f_equal; lia|auto].
      * right. exists sx, sy. split; [f_equal; lia|]. exists r, c. auto.
Qed.

(** Widening bounds over a list of positions: each bound moves outwards
    only, takes in every position, and ends at its old value or at a
    position of the list. *)
Lemma foldl_extend (ps : list (Z * Z)) :
  forall b : Bounds,
  let b' := foldl extend b ps in
  (minRow b' <= minRow b /\ maxRow b <= maxRow b' /\
   minCol b' <= minCol b /\ maxCol b <= maxCol b') /\
  (forall p, p ∈ ps ->
     minRow b' <= fst p <= maxRow b' /\ minCol b' <= snd p <= maxCol b') /\
  (minRow b' = minRow b \/ exists p, p ∈ ps /\ fst p = minRow b') /\
  (maxRow b' = maxRow b \/ exists p, p ∈ ps /\ fst p = maxRow b') /\
  (minCol b' = minCol b \/ exists p, p ∈ ps /\ snd p = minCol b') /\
  (maxCol b' = maxCol b \/ exists p, p ∈ ps /\ snd p = maxCol b').
Proof.
  induction ps as [|q rest IH]; intros b; cbn zeta; cbn [foldl].
  - split; [lia|]. split; [|auto].
    intros p Hp. apply elem_of_nil in Hp. destruct Hp.
  - destruct (IH (extend b q))
      as ((M1 & M2 & M3 & M4) & Hcover & A1 & A2 & A3 & A4).
    cbn [extend minRow maxRow minCol maxCol] in *.
    assert (Hq : q ∈ q :: rest) by (apply elem_of_cons; left; reflexivity).
    assert (Hlift : forall P : Z * Z -> Prop,
              (exists p, p ∈ rest /\ P p) -> exists p, p ∈ q :: rest /\ P p).
    { intros P (p & Hp & HP). exists p. split; [|exact HP].
      apply elem_of_cons. right. exact Hp. }
    split; [lia|]. split; [|split; [|split; [|split]]].
    + intros p Hp. apply elem_of_cons in Hp. destruct Hp as [-> | Hp];
        [lia|apply Hcover; exact Hp].
    + destruct A1 as [A1|A1]; [|right; apply Hlift; exact A1].
      destruct (Z.min_spec (minRow b) (fst q)) as [[_ E]|[_ E]];
        [left; lia|right; exists q; split; [exact Hq|lia]].
    + destruct A2 as [A2|A2]; [|right; apply Hlift; exact A2].
      destruct (Z.max_spec (maxRow b) (fst q)) as [[_ E]|[_ E]];
        [right; exists q; split; [exact Hq|lia]|left; lia].
    + destruct A3 as [A3|A3]; [|right; apply Hlift; exact A3].
      destruct (Z.min_spec (minCol b) (snd q)) as [[_ E]|[_ E]];
        [left; lia|right; exists q; split; [exact Hq|lia]].
    + destruct A4 as [A4|A4]; [|right; apply Hlift; exact A4].
      destruct (Z.max_spec (maxCol b) (snd q)) as [[_ E]|[_ E]];
        [right; exists q; split; [exact Hq|lia]|left; lia].
Qed.

(** X25.  [getTetrominoBounds].  The bounds take in every occupied cell of
    the shape.  When the shape has an occupied cell, the first row, the last
    row and the last column of the bounds each hold an occupied cell, and so
    does the first column when no row is longer than the first one (as in a
    rectangular shape).  When the shape has no occupied cell the bounds are
    the initial ones: [maxRow] and [maxCol] are -1, [minRow] is the number
    of rows and [minCol] the length of the first row. *)
Theorem getTetrominoBounds_spec (shape : BlockShape) :
  let b := getTetrominoBounds shape in
  (forall sx sy, occupiedAt shape sx sy ->
     minRow b <= Z.of_nat sy <= maxRow b /\
     minCol b <= Z.of_nat sx <= maxCol b) /\
  (hasOccupied shape ->
     (exists sx sy, occupiedAt shape sx sy /\ Z.of_nat sy = minRow b) /\
     (exists sx sy, occupiedAt shape sx sy /\ Z.of_nat sy = maxRow b) /\
     (exists sx sy, occupiedAt shape sx sy /\ Z.of_nat sx = maxCol b) /\
     (forall w, rectangular w shape ->
        exists sx sy, occupiedAt shape sx sy /\ Z.of_nat sx = minCol b)) /\
  (~ hasOccupied shape -> b = initialBounds shape).
Proof.
  intros b. unfold getTetrominoBounds in b.
  pose proof (foldl_extend (occupiedCells shape 0) (initialBounds shape)) as H.
  rewrite <- boundsRows_fold in H. fold b in H. cbn zeta in H.
  destruct H as (_ & Hcover & A1 & A2 & A3 & A4).
  assert (Hmem : forall p, p ∈ occupiedCells shape 0 ->
            exists sx sy, p = (Z.of_nat sy, Z.of_nat sx) /\ occupiedAt shape sx sy).
  { intros p Hp. apply elem_of_occupiedCells in Hp.
    destruct Hp as (sx & sy & -> & Hocc). exists sx, sy. split; [|exact Hocc].
    f_equal; lia. }
  assert (Hin : forall sx sy, occupiedAt shape sx sy ->
            (Z.of_nat sy, Z.of_nat sx) ∈ occupiedCells shape 0).
  { intros sx sy Hocc. apply elem_of_occupiedCells. exists sx, sy.
    split; [f_equal; lia|exact Hocc]. }
  split; [|split].
  - intros sx sy Hocc. apply (Hcover _ (Hin sx sy Hocc)).
  - intros (sx0 & sy0 & Hocc0).
    pose proof (Hcover _ (Hin sx0 sy0 Hocc0)) as [Hr Hc]. cbn [fst snd] in Hr, Hc.
    assert (Hsy : (sy0 < length shape)%nat).
    { destruct Hocc0 as (r & c & Hrow & _). apply lookup_lt_Some in Hrow. exact Hrow. }
    cbn [initialBounds minRow maxRow minCol maxCol] in A1, A2, A3, A4.
    split; [|split; [|split]].
    + destruct A1 as [A1 | (p & Hp & E)]; [lia|].
      destruct (Hmem p Hp) as (sx & sy & -> & Hocc). exists sx, sy. auto.
    + destruct A2 as [A2 | (p & Hp & E)]; [lia|].
      destruct (Hmem p Hp) as (sx & sy & -> & Hocc). exists sx, sy. auto.
    + destruct A4 as [A4 | (p & Hp & E)]; [lia|].
      destruct (Hmem p Hp) as (sx & sy & -> & Hocc). exists sx, sy. auto.
    + intros w Hrect. destruct A3 as [A3 | (p & Hp & E)].
      * exfalso. destruct Hocc0 as (r & c & Hrow & Hcell & _).
        apply lookup_lt_Some in Hcell.
        unfold rectangular in Hrect. rewrite Forall_lookup in Hrect.
        rewrite (Hrect _ _ Hrow) in Hcell.
        destruct shape as [|first rest]; [cbn in Hsy; lia|].
        rewrite (Hrect 0%nat first eq_refl) in A3. lia.
      * destruct (Hmem p Hp) as (sx & sy & -> & Hocc). exists sx, sy. auto.
  - intros Hnone. unfold b. rewrite boundsRows_fold.
    destruct (occupiedCells shape 0) as [|p rest] eqn:E; [reflexivity|].
    exfalso. apply Hnone. destruct (Hmem p) as (sx & sy & _ & Hocc).
    { apply elem_of_cons. left. reflexivity. }
    exists sx, sy. exact Hocc.
Qed.

(** X26.  [getTetrominoName] answers ["Unknown"] exactly for the numbers
    outside 0..6, and gives the seven types seven different names. *)
Theorem getTetrominoName_spec (type : Z) :
  (getTetrominoName type = "Unknown"%string <-> type < 0 \/ 7 <= type) /\
  (forall other, 0 <= type < 7 ->
     getTetrominoName other = getTetrominoName type -> other = type).
Proof.
  assert (Hout : forall t, t < 0 \/ 7 <= t ->
            getTetrominoName t = "Unknown"%string).
  { intros t Ht. unfold getTetrominoName, js_get.
    destruct (t <? 0) eqn:E; [reflexivity|]. tests.
    rewrite lookup_ge_None_2; [reflexivity|]. cbn. lia. }
  assert (Hcases : forall t, 0 <= t < 7 ->
            t = 0 \/ t = 1 \/ t = 2 \/ t = 3 \/ t = 4 \/ t = 5 \/ t = 6) by lia.
  split.
  - split; [|apply Hout].
    intros Hname.
    destruct (Z.lt_ge_cases type 0) as [|H0]; [lia|].
    destruct (Z.lt_ge_cases type 7) as [H7|]; [|lia].
    exfalso. destruct (Hcases type) as [-> | [-> | [-> | [-> | [-> | [-> | ->]]]]]];
      [lia|..]; vm_compute in Hname; discriminate.
  - intros other Ht Heq.
    destruct (Z.lt_ge_cases other 0) as [Ho|Ho0].
    { rewrite (Hout other) in Heq by lia. exfalso.
      destruct (Hcases type Ht) as [-> | [-> | [-> | [-> | [-> | [-> | ->]]]]]];
        vm_compute in Heq; discriminate. }
    destruct (Z.lt_ge_cases other 7) as [Ho7|Ho7].
    2:{ rewrite (Hout other) in Heq by lia. exfalso.
        destruct (Hcases type Ht) as [-> | [-> | [-> | [-> | [-> | [-> | ->]]]]]];
          vm_compute in Heq; discriminate. }
    destruct (Hcases type Ht) as [-> | [-> | [-> | [-> | [-> | [-> | ->]]]]]];
      destruct (Hcases other) as [-> | [-> | [-> | [-> | [-> | [-> | ->]]]]]];
      try lia; try reflexivity; vm_compute in Heq; discriminate.
Qed.

(** ** scoreAndLevel.ts: a series of clears *)




(** ** lockAndClear.ts: the bonus *)

(** X28.  [getLineClearBonus]: the bonus is 0 exactly for the counts outside
    1..4; within 1..4 it grows with the count, and lines cleared together
    pay more than the same lines cleared in two goes. *)
Theorem getLineClearBonus_spec (a b : Z) :
  (getLineClearBonus a = 0 <-> a < 1 \/ 4 < a) /\
  (1 <= a < b -> b <= 4 -> getLineClearBonus a < getLineClearBonus b) /\
  (1 <= a -> 1 <= b -> a + b <= 4 ->
     getLineClearBonus a + getLineClearBonus b < getLineClearBonus (a + b)).
Proof.
  assert (Hval : forall n,
    (n = 1 /\ getLineClearBonus n = 1) \/ (n = 2 /\ getLineClearBonus n = 3) \/
    (n = 3 /\ getLineClearBonus n = 5) \/ (n = 4 /\ getLineClearBonus n = 8) \/
    ((n < 1 \/ 4 < n) /\ getLineClearBonus n = 0)).
  { intros n. unfold getLineClearBonus.
    destruct (n =? 1) eqn:E1; tests; [auto|].
    destruct (n =? 2) eqn:E2; tests; [auto|].
    destruct (n =? 3) eqn:E3; tests; [auto 6|].
    destruct (n =? 4) eqn:E4; tests; [auto 6|].
    right. right. right. right. split; [lia|reflexivity]. }
  pose proof (Hval a) as Ha. pose proof (Hval b) as Hb.
  pose proof (Hval (a + b)) as Hab. lia.
Qed.

(** ** collision.ts: the moves *)

(** X29.  The walls stop the moves.  For a shape with an occupied cell at
    column [sx] of row [sy]: [canMoveLeft] allows a move only if the cell
    stays at column 0 or to the right of it, [canMoveRight] only if it stays
    at column 9 or to the left of it, [canMoveDown] only if it stays at row
    19 or above it, on every grid.  On a board the three functions return,
    and refuse the move when the cell would cross the wall. *)
Theorem moves_stop_at_walls (grid : Grid) (shape : BlockShape)
    (offsetX offsetY : Z) (sx sy : nat) :
  occupiedAt shape sx sy ->
  (canMoveLeft grid shape offsetX offsetY = Ret true ->
     1 <= offsetX + Z.of_nat sx) /\
  (canMoveRight grid shape offsetX offsetY = Ret true ->
     offsetX + Z.of_nat sx <= 8) /\
  (canMoveDown grid shape offsetX offsetY = Ret true ->
     offsetY + Z.of_nat sy <= 18) /\
  (is_board grid ->
     (offsetX + Z.of_nat sx <= 0 ->
        canMoveLeft grid shape offsetX offsetY = Ret false) /\
     (9 <= offsetX + Z.of_nat sx ->
        canMoveRight grid shape offsetX offsetY = Ret false) /\
     (19 <= offsetY + Z.of_nat sy ->
        canMoveDown grid shape offsetX offsetY = Ret false)).
Proof.
  intros Hocc. unfold canMoveLeft, canMoveRight, canMoveDown.
  assert (Hin : forall x y, isPositionValid grid shape x y = Ret true ->
            0 <= x + Z.of_nat sx < 10 /\ 0 <= y + Z.of_nat sy < 20).
  { intros x y Hv. exact (valid_inBounds grid shape x y Hv sx sy Hocc). }
  split; [|split; [|split]].
  - intros Hv. apply Hin in Hv. lia.
  - intros Hv. apply Hin in Hv. lia.
  - intros Hv. apply Hin in Hv. lia.
  - intros Hb.
    assert (Hout : forall x y,
              ~ (0 <= x + Z.of_nat sx < 10 /\ 0 <= y + Z.of_nat sy < 20) ->
              isPositionValid grid shape x y = Ret false).
    { intros x y Hno.
      destruct (isPositionValid_total grid shape x y Hb) as [[|] Hv]; [|exact Hv].
      exfalso. apply Hno. apply Hin. exact Hv. }
    split; [|split]; intros H; apply Hout; lia.
Qed.

(** ** Instances of the properties above *)

Lemma emptyGrid_board : is_board emptyGrid.
Proof. split; [reflexivity|repeat (constructor; try reflexivity)]. Defined.

Lemma gridThreeFull_board : is_board gridThreeFull.
Proof. split; [reflexivity|repeat (constructor; try reflexivity)]. Defined.

Lemma gridBottomFull_board : is_board gridBottomFull.
Proof. split; [reflexivity|repeat (constructor; try reflexivity)]. Defined.

Lemma emptyGrid_numeric : numeric emptyGrid.
Proof. repeat (constructor; try (eexists; reflexivity)). Defined.

Lemma gridOneBlock_numeric : numeric gridOneBlock.
Proof. repeat (constructor; try (eexists; reflexivity)). Defined.

Lemma dotShape_occupied : hasOccupied dotShape.
Proof. exists 0%nat, 0%nat, [Some 1], (Some 1). auto. Defined.

Lemma squareShape_occupied : hasOccupied squareShape.
Proof. exists 0%nat, 0%nat, [Some 1; Some 1], (Some 1). auto. Defined.

Lemma T_PIECE_square : isSquare T_PIECE.
Proof. split; [reflexivity|repeat constructor]. Defined.

(** A one-cell shape whose cell is empty has no occupied cell. *)
Lemma blank_shape_unoccupied : ~ hasOccupied [[Some 0]].
Proof.
  intros (sx & sy & r & c & Hr & Hc & Ho).
  destruct sy as [|sy]; [|rewrite lookup_cons, lookup_nil in Hr; discriminate].
  cbn in Hr. injection Hr as <-.
  destruct sx as [|sx]; [|rewrite lookup_cons, lookup_nil in Hc; discriminate].
  cbn in Hc. injection Hc as <-. discriminate.
Defined.

Lemma findCompletedRows_spec_witness :
  findCompletedRows [] = Throw TypeError /\
  exists rows, findCompletedRows gridThreeFull = Ret rows /\ ascending rows.
Proof.
  split.
  - apply (proj1 (findCompletedRows_spec [])). cbn. lia.
  - destruct (proj2 (findCompletedRows_spec gridThreeFull))
      as (rows & Hret & _ & Hasc); [vm_compute; lia|].
    exists rows. auto.
Defined.

Lemma getCompletedRows_agrees_witness :
  getCompletedRows gridThreeFull = Ret [16; 18; 19] /\
  (18 ∈ [16; 18; 19] <-> isRowComplete gridThreeFull 18 = Ret true).
Proof.
  assert (Hrows : getCompletedRows gridThreeFull = Ret [16; 18; 19])
    by (vm_compute; reflexivity).
  split; [exact Hrows|].
  exact (proj2 (getCompletedRows_agrees gridThreeFull) _ Hrows 18).
Defined.

Lemma hasCompletedRowsInRange_spec_witness :
  exists b, hasCompletedRowsInRange gridThreeFull (-5) 17 = Ret b /\
    (b = true <->
     exists k, -5 <= k <= 17 /\ 0 <= k < GRID_HEIGHT /\
               completeAt gridThreeFull k).
Proof.
  apply (hasCompletedRowsInRange_spec gridThreeFull (-5) 17).
  vm_compute. lia.
Defined.

Lemma cleared_grid_has_no_complete_row_witness :
  is_board gridThreeFull /\
  getCompletedRows
    (replicate 19 emptyRow ++ [<[3%nat := Some 5]> emptyRow]) = Ret [].
Proof.
  split; [exact gridThreeFull_board|].
  destruct (cleared_grid_has_no_complete_row gridThreeFull gridThreeFull_board)
    as (_ & Hclear & _).
  apply (Hclear 3 (replicate 19 emptyRow ++ [<[3%nat := Some 5]> emptyRow])).
  right. vm_compute. reflexivity.
Defined.

Lemma isRangeEmpty_spec_witness :
  isRangeEmpty emptyGrid 5 3 = Ret true /\
  isRangeEmpty emptyGrid (-1) 3 = Throw TypeError /\
  exists b, isRangeEmpty gridOneBlock 0 25 = Ret b /\
    (b = true <->
     forall k, 0 <= k <= 25 -> k < GRID_HEIGHT -> blankAt gridOneBlock k).
Proof.
  split; [|split].
  - apply (proj1 (isRangeEmpty_spec emptyGrid 5 3)). left. lia.
  - apply (proj1 (proj2 (isRangeEmpty_spec emptyGrid (-1) 3))); lia.
  - apply (proj2 (proj2 (isRangeEmpty_spec gridOneBlock 0 25))).
    + vm_compute. lia.
    + exact gridOneBlock_numeric.
    + lia.
Defined.

Lemma isGridEmpty_spec_witness :
  is_board emptyGrid /\ numeric emptyGrid /\
  isRangeEmpty emptyGrid 0 19 = Ret (isGridEmpty emptyGrid) /\
  findCompletedRows emptyGrid = Ret [].
Proof.
  split; [exact emptyGrid_board|]. split; [exact emptyGrid_numeric|].
  destruct (isGridEmpty_spec emptyGrid emptyGrid_board emptyGrid_numeric)
    as (Hrange & Hempty).
  split; [apply Hrange; lia|].
  destruct (Hempty eq_refl) as (_ & Hfind & _). exact Hfind.
Defined.

Lemma placeTetromino_spec_witness :
  is_board emptyGrid /\
  exists ok placed,
    placeTetromino emptyGrid squareShape 4 18 = Ret (ok, placed) /\
    isPositionValid emptyGrid squareShape 4 18 = Ret ok /\
    is_board placed.
Proof.
  split; [exact emptyGrid_board|].
  destruct (placeTetromino_spec emptyGrid squareShape 4 18 emptyGrid_board)
    as (ok & placed & Hp & Hv & Hb & _).
  exists ok, placed. auto.
Defined.

Lemma placeTetromino_twice_witness :
  is_board emptyGrid /\ hasOccupied dotShape /\
  placeTetromino (<[0%nat := <[0%nat := Some 1]> emptyRow]> emptyGrid)
    dotShape 0 0 =
    Ret (false, <[0%nat := <[0%nat := Some 1]> emptyRow]> emptyGrid).
Proof.
  split; [exact emptyGrid_board|]. split; [exact dotShape_occupied|].
  apply (placeTetromino_twice emptyGrid _ dotShape 0 0
           emptyGrid_board dotShape_occupied).
  vm_compute. reflexivity.
Defined.

Lemma lockPiece_places_then_clears_witness :
  is_board gridOneBlock /\
  isPositionValid gridOneBlock squareShape 0 18 = Ret true /\
  exists placed n cleared,
    placeTetromino gridOneBlock squareShape 0 18 = Ret (true, placed) /\
    LockAndClear.clearLines placed = Ret (n, cleared) /\
    lockPiece gridOneBlock squareShape 0 18 =
      Ret ({| linesCleared := n |}, cleared).
Proof.
  assert (Hb : is_board gridOneBlock)
    by (split; [reflexivity|repeat (constructor; try reflexivity)]).
  assert (Hv : isPositionValid gridOneBlock squareShape 0 18 = Ret true)
    by (vm_compute; reflexivity).
  split; [exact Hb|]. split; [exact Hv|].
  exact (lockPiece_places_then_clears gridOneBlock squareShape 0 18 Hb Hv).
Defined.

Lemma removeRows_single_witness :
  removeRows gridBottomFull [19] =
    Ret (1, emptyRow :: take (Z.to_nat 19) gridBottomFull ++
                         drop (S (Z.to_nat 19)) gridBottomFull).
Proof.
  apply (removeRows_single gridBottomFull 19). vm_compute. split; [discriminate|reflexivity].
Defined.

Lemma removeRows_outside_witness :
  removeRows emptyGrid [-1] = Ret (1, emptyRow :: drop 1 emptyGrid) /\
  removeRows emptyGrid [20] = Ret (1, emptyRow :: emptyGrid) /\
  removeRows emptyGrid [21] = Throw TypeError.
Proof.
  split; [|split].
  - apply (proj1 (removeRows_outside emptyGrid (-1))). lia.
  - apply (proj1 (proj2 (removeRows_outside emptyGrid 20))). reflexivity.
  - apply (proj2 (proj2 (removeRows_outside emptyGrid 21))). vm_compute. reflexivity.
Defined.

Lemma removeRows_pair_witness :
  removeRows gridThreeFull [18; 19] =
    Ret (2, emptyRow :: emptyRow :: take 17 gridThreeFull ++
              drop 18 (take 19 gridThreeFull) ++ drop 20 gridThreeFull) /\
  (emptyRow :: emptyRow :: take 17 gridThreeFull ++
     drop 18 (take 19 gridThreeFull) ++ drop 20 gridThreeFull) !! 19%nat =
    gridThreeFull !! 18%nat.
Proof.
  destruct (removeRows_pair gridThreeFull 18 19) as (H1 & _ & _ & H4).
  - lia.
  - vm_compute. lia.
  - split; [exact H1|]. apply H4. lia.
Defined.

Lemma removeRows_board_witness :
  is_board gridThreeFull /\
  exists grid',
    removeRows gridThreeFull [16; 18; 19; 19; -4] = Ret (5, grid') /\
    is_board grid'.
Proof.
  split; [exact gridThreeFull_board|].
  apply (removeRows_board gridThreeFull [16; 18; 19; 19; -4] gridThreeFull_board).
  repeat constructor.
Defined.

Lemma removeRows_clears_one_witness :
  exists rows n grid',
    findCompletedRows gridBottomFull = Ret rows /\
    removeRows gridBottomFull rows = Ret (n, grid') /\
    LockAndClear.clearLines gridBottomFull = Ret (n, grid').
Proof.
  apply (removeRows_clears_one gridBottomFull).
  - reflexivity.
  - vm_compute. lia.
Defined.

Lemma calculateGhostPosition_spec_witness :
  is_board emptyGrid /\ hasOccupied squareShape /\
  exists ghostY,
    Drop.calculateGhostPosition 21 emptyGrid squareShape 4 0 = Some (Ret ghostY) /\
    isPositionValid emptyGrid squareShape 4 (ghostY + 1) = Ret false.
Proof.
  split; [exact emptyGrid_board|]. split; [exact squareShape_occupied|].
  destruct (calculateGhostPosition_spec emptyGrid squareShape 4 0
              emptyGrid_board squareShape_occupied)
    as (ghostY & Hrun & _ & Hstop & _).
  exists ghostY. split; [|exact Hstop].
  apply Hrun. vm_compute. lia.
Defined.

Lemma calculateGhostPosition_diverges_witness :
  is_board emptyGrid /\ ~ hasOccupied [[Some 0]] /\
  forall fuel,
    Drop.calculateGhostPosition fuel emptyGrid [[Some 0]] 4 0 = None.
Proof.
  split; [exact emptyGrid_board|]. split; [exact blank_shape_unoccupied|].
  exact (calculateGhostPosition_diverges emptyGrid [[Some 0]] 4 0
           emptyGrid_board blank_shape_unoccupied).
Defined.

Lemma hardDrop_spec_witness :
  let config := {| Drop.grid := emptyGrid; Drop.shape := squareShape;
                   Drop.offsetX := 4; Drop.offsetY := 0;
                   Drop.dropInterval := 1000 # 1 |} in
  exists ghostY ok placed,
    Drop.hardDrop 21 config =
      Some (Ret (ghostY - 0,
                 {| Drop.grid := placed; Drop.shape := squareShape;
                    Drop.offsetX := 4; Drop.offsetY := ghostY;
                    Drop.dropInterval := 1000 # 1 |})) /\
    placeTetromino emptyGrid squareShape 4 ghostY = Ret (ok, placed) /\
    ok = true.
Proof.
  intros config.
  destruct (hardDrop_spec config 21 emptyGrid_board squareShape_occupied)
    as (ghostY & ok & placed & _ & Hp & Hd & _ & Hok).
  - vm_compute. lia.
  - exists ghostY, ok, placed. split; [exact Hd|]. split; [exact Hp|].
    apply Hok. vm_compute. reflexivity.
Defined.

Lemma rotate180_spec_witness :
  isSquare T_PIECE /\ rotate180 (rotate180 T_PIECE) = T_PIECE.
Proof.
  split; [exact T_PIECE_square|].
  exact (proj2 (proj2 (proj2 (rotate180_spec T_PIECE))) T_PIECE_square).
Defined.

Lemma getRotationPreview_turns_witness :
  getRotationPreview T_PIECE clockwise (Some (-1)) = T_PIECE /\
  getRotationPreview T_PIECE clockwise (Some (1 + 2)) =
    getRotationPreview (getRotationPreview T_PIECE clockwise (Some 1))
      clockwise (Some 2).
Proof.
  destruct (getRotationPreview_turns T_PIECE clockwise) as (_ & H0 & Hadd & _).
  split; [apply H0; lia|apply Hadd; lia].
Defined.

Lemma getRotationPreview_cycle_witness :
  getRotationPreview T_PIECE clockwise (Some (1 + 4)) =
    getRotationPreview T_PIECE clockwise (Some 1) /\
  isSquare T_PIECE /\
  getRotationPreview (getRotationPreview T_PIECE clockwise (Some 3))
    (opposite clockwise) (Some 3) = T_PIECE.
Proof.
  destruct (getRotationPreview_cycle T_PIECE clockwise) as (H1 & Hsq).
  split; [apply H1; lia|]. split; [exact T_PIECE_square|].
  apply (proj2 (Hsq T_PIECE_square)).
Defined.

Lemma canRotateAtAll_spec_witness :
  is_board emptyGrid /\
  exists b,
    canRotateAtAll emptyGrid T_PIECE 3 0 = Ret b /\
    (b = true <->
     exists direction kick, kick ∈ [0; 1; -1; 2; -2] /\
       canRotate emptyGrid (rotateShape T_PIECE direction) (3 + kick) 0
         = Ret true).
Proof.
  split; [exact emptyGrid_board|].
  exact (canRotateAtAll_spec emptyGrid T_PIECE 3 0 emptyGrid_board).
Defined.

Lemma attemptRotationSRS_success_witness :
  is_board emptyGrid /\
  exists res,
    attemptRotationSRS emptyGrid T_PIECE 3 0 clockwise 0 false = Ret res /\
    validSRS res = true /\
    isPositionValid emptyGrid (rotatedSRS res) (xSRS res) (ySRS res) = Ret true.
Proof.
  split; [exact emptyGrid_board|].
  destruct (attemptRotationSRS_success emptyGrid T_PIECE 3 0 clockwise 0 false)
    as [Hsound Htotal].
  destruct (Htotal emptyGrid_board) as [res Hres].
  assert (Hvalid : validSRS res = true).
  { vm_compute in Hres. injection Hres as <-. reflexivity. }
  exists res. split; [exact Hres|]. split; [exact Hvalid|].
  exact (proj1 (proj2 (proj2 (Hsound res Hres Hvalid)))).
Defined.

Lemma attemptRotationSRS_in_place_witness :
  isPositionValid emptyGrid (rotateShape T_PIECE clockwise) 3 0 = Ret true /\
  attemptRotationSRS emptyGrid T_PIECE 3 0 clockwise 7 true =
    Ret {| rotatedSRS := rotateShape T_PIECE clockwise;
           xSRS := 3; ySRS := 0; validSRS := true;
           newRotation := nextRotation clockwise 7 |}.
Proof.
  assert (Hv : isPositionValid emptyGrid (rotateShape T_PIECE clockwise) 3 0
               = Ret true) by (vm_compute; reflexivity).
  split; [exact Hv|].
  exact (attemptRotationSRS_in_place emptyGrid T_PIECE 3 0 clockwise 7 true Hv).
Defined.

Lemma srs_kicks_reversible_witness :
  0 <= 3 < 4 /\
  nextRotation (opposite clockwise) (nextRotation clockwise 3) = 3 /\
  kickOffsets true (opposite clockwise) (nextRotation clockwise 3) =
    map mirrored (kickOffsets true clockwise 3).
Proof.
  assert (H : 0 <= 3 < 4) by lia.
  split; [exact H|].
  exact (proj2 (srs_kicks_reversible true clockwise 3 H)).
Defined.

Lemma getTetrominoBounds_spec_witness :
  hasOccupied T_PIECE /\ rectangular 4 T_PIECE /\
  exists sx sy, occupiedAt T_PIECE sx sy /\
    Z.of_nat sx = minCol (getTetrominoBounds T_PIECE).
Proof.
  assert (Hocc : hasOccupied T_PIECE).
  { exists 1%nat, 1%nat, [Some 0; Some 3; Some 0; Some 0], (Some 3). auto. }
  assert (Hrect : rectangular 4 T_PIECE) by (repeat constructor).
  split; [exact Hocc|]. split; [exact Hrect|].
  destruct (getTetrominoBounds_spec T_PIECE) as (_ & Hatt & _).
  exact (proj2 (proj2 (proj2 (Hatt Hocc))) 4%nat Hrect).
Defined.

Lemma getTetrominoName_spec_witness :
  getTetrominoName 7 = "Unknown"%string /\
  (getTetrominoName 2 = getTetrominoName 2 -> 2 = 2).
Proof.
  split.
  - apply (proj1 (getTetrominoName_spec 7)). right. lia.
  - apply (proj2 (getTetrominoName_spec 2) 2). lia.
Defined.


Lemma getLineClearBonus_spec_witness :
  getLineClearBonus 2 + getLineClearBonus 2 < getLineClearBonus (2 + 2) /\
  getLineClearBonus 1 < getLineClearBonus 4.
Proof.
  destruct (getLineClearBonus_spec 2 2) as (_ & _ & Hsum).
  destruct (getLineClearBonus_spec 1 4) as (_ & Hgrow & _).
  split; [apply Hsum; lia|apply Hgrow; lia].
Defined.

Lemma moves_stop_at_walls_witness :
  occupiedAt squareShape 1 1 /\ is_board emptyGrid /\
  canMoveRight emptyGrid squareShape 8 0 = Ret false /\
  canMoveDown emptyGrid squareShape 4 18 = Ret false.
Proof.
  assert (Hocc : occupiedAt squareShape 1 1)
    by (exists [Some 1; Some 1], (Some 1); auto).
  split; [exact Hocc|]. split; [exact emptyGrid_board|].
  split.
  - destruct (moves_stop_at_walls emptyGrid squareShape 8 0 1 1 Hocc)
      as (_ & _ & _ & Hwalls).
    apply (proj1 (proj2 (Hwalls emptyGrid_board))). lia.
  - destruct (moves_stop_at_walls emptyGrid squareShape 4 18 1 1 Hocc)
      as (_ & _ & _ & Hwalls).
    apply (proj2 (proj2 (Hwalls emptyGrid_board))). lia.
Defined.

(** ** The tests of collision.test.ts for these functions, evaluated on the
    embedding *)

Example test_find_completed_rows :
  findCompletedRows
    (<[17%nat := replicate 10 (Some 2)]> (<[19%nat := fullRow]> emptyGrid)) =
    Ret [17; 19] /\
  findCompletedRows (<[15%nat := <[9%nat := Some 0]> fullRow]> emptyGrid) =
    Ret [] /\
  findCompletedRows gridFourFull = Ret [16; 17; 18; 19].
Proof. repeat split. Qed.

Example test_remove_single_row :
  removeRows
    (<[5%nat := map (fun col => Some (Z.of_nat col + 1)) (seq 0 10)]> emptyGrid)
    [19] =
  Ret (1, <[6%nat := map (fun col => Some (Z.of_nat col + 1)) (seq 0 10)]>
            emptyGrid).
Proof. vm_compute. reflexivity. Qed.

Example test_remove_rows_in_any_order :
  removeRows
    (<[5%nat := replicate 10 (Some 5)]>
       (<[10%nat := replicate 10 (Some 10)]>
          (<[15%nat := replicate 10 (Some 15)]> emptyGrid)))
    [19; 17] =
  Ret (2, <[7%nat := replicate 10 (Some 5)]>
            (<[12%nat := replicate 10 (Some 10)]>
               (<[17%nat := replicate 10 (Some 15)]> emptyGrid))) /\
  removeRows (<[5%nat := replicate 10 (Some 99)]> emptyGrid) [17; 18; 19] =
  Ret (3, <[8%nat := replicate 10 (Some 99)]> emptyGrid).
Proof. split; vm_compute; reflexivity. Qed.

Example test_moves :
  canMoveDown emptyGrid squareShape 5 10 = Ret true /\
  canMoveDown emptyGrid squareShape 5 18 = Ret false /\
  canMoveDown (<[12%nat := <[5%nat := Some 1]> emptyRow]> emptyGrid)
    squareShape 5 10 = Ret false /\
  canMoveLeft emptyGrid squareShape 5 10 = Ret true /\
  canMoveLeft emptyGrid squareShape 0 10 = Ret false /\
  canMoveRight emptyGrid squareShape 5 10 = Ret true /\
  canMoveRight emptyGrid squareShape 8 10 = Ret false /\
  canRotate emptyGrid [[Some 0; Some 1; Some 1]; [Some 1; Some 1; Some 0]] 3 10 =
    Ret true /\
  canRotate emptyGrid [[Some 0; Some 1; Some 1]; [Some 1; Some 1; Some 0]] 8 10 =
    Ret false.
Proof. repeat split. Qed.

Example test_emptiness :
  isGridEmpty emptyGrid = true /\
  isGridEmpty gridOneBlock = false /\
  isRangeEmpty emptyGrid 5 10 = Ret true /\
  isRangeEmpty (<[7%nat := <[3%nat := Some 1]> emptyRow]> emptyGrid) 5 10 =
    Ret false /\
  isRangeEmpty (<[7%nat := <[3%nat := Some 1]> emptyRow]> emptyGrid) 0 5 =
    Ret true /\
  isRangeEmpty (<[7%nat := <[3%nat := Some 1]> emptyRow]> emptyGrid) 10 15 =
    Ret true /\
  isRangeEmpty emptyGrid 15 25 = Ret true /\
  isRangeEmpty (<[19%nat := <[5%nat := Some 1]> emptyRow]> emptyGrid) 15 25 =
    Ret false.
Proof. repeat split. Qed.

Example test_place_shape :
  placeTetromino emptyGrid
    [[Some 2; Some 0]; [Some 2; Some 2]; [Some 0; Some 2]] 4 10 =
  Ret (true,
       <[10%nat := <[4%nat := Some 2]> emptyRow]>
         (<[11%nat := <[4%nat := Some 2]> (<[5%nat := Some 2]> emptyRow)]>
            (<[12%nat := <[5%nat := Some 2]> emptyRow]> emptyGrid))) /\
  placeTetromino emptyGrid squareShape 9 0 = Ret (false, emptyGrid).
Proof. split; vm_compute; reflexivity. Qed.

(** The scenario of the test suite: the upright I piece placed in the gap of
    the bottom row, the complete row found and removed. *)
Example scenario_place_find_remove :
  (let* placed :=
     placeTetromino (replicate 19 emptyRow ++ [<[5%nat := Some 0]> fullRow])
       [[Some 1]; [Some 1]; [Some 1]; [Some 1]] 5 16 in
   let* completedRows := findCompletedRows (snd placed) in
   let* removed := removeRows (snd placed) completedRows in
   Ret (fst placed, completedRows, removed)) =
  Ret (true, [19],
       (1, replicate 17 emptyRow ++ replicate 3 (<[5%nat := Some 1]> emptyRow))).
Proof. vm_compute. reflexivity. Qed.

(** With complete rows next to each other the removal goes astray: of four
    complete bottom rows [removeRows] leaves two standing, where
    [clearLines] leaves none. *)
Example adjacent_rows_survive :
  (let* removed := removeRows gridFourFull [16; 17; 18; 19] in
   let* left := findCompletedRows (snd removed) in
   Ret (fst removed, left)) = Ret (4, [18; 19]) /\
  LockAndClear.clearLines gridFourFull = Ret (4, emptyGrid).
Proof. split; vm_compute; reflexivity. Qed.

Example test_ghost_and_hard_drop :
  Drop.calculateGhostPosition 30 emptyGrid squareShape 4 0 = Some (Ret 18) /\
  Drop.calculateGhostPosition 30 gridOneBlock squareShape 5 0 = Some (Ret 3) /\
  Drop.calculateGhostPosition 30 emptyGrid [[Some 0]] 4 0 = None.
Proof. repeat split. Qed.

Example test_bounds_and_names :
  getTetrominoBounds I_PIECE =
    {| minRow := 1; maxRow := 1; minCol := 0; maxCol := 3 |} /\
  getTetrominoBounds O_PIECE =
    {| minRow := 1; maxRow := 2; minCol := 1; maxCol := 2 |} /\
  getTetrominoBounds (replicate 4 (replicate 4 (Some 0))) =
    {| minRow := 4; maxRow := -1; minCol := 4; maxCol := -1 |} /\
  getTetrominoBounds [] =
    {| minRow := 0; maxRow := -1; minCol := 0; maxCol := -1 |} /\
  getTetrominoBounds [[Some 0]; [Some 0; Some 0; Some 0; Some 1]] =
    {| minRow := 1; maxRow := 1; minCol := 1; maxCol := 3 |} /\
  map getTetrominoName [-1; 0; 6; 7] =
    ["Unknown"%string; "I"%string; "L"%string; "Unknown"%string].
Proof. repeat split. Qed.
